(** * Contrastive decoding and masked multi-head attention

    A shallow embedding of the two notebooks of the repository:
    the contrastive decoder (with and without the adaptive plausibility
    constraint) and the hand-written [MultiHeadAttention] module.

    Tensors are nested lists.  A tensor element keeps the special values of
    IEEE arithmetic (NaN and the two infinities); finite elements are
    idealised as real numbers, so rounding and overflow are outside the
    model. *)

From Stdlib Require Import String.
From Stdlib Require Import Reals Lra Lia List Bool Arith ZArith Permutation Sorted.
Import ListNotations.

(** ** Exceptions and results *)

Inductive exn : Type :=
| AssertionError
| ZeroDivisionError
| TypeError (msg : string)
| RuntimeError (msg : string)
| IndexError (msg : string)
| ScorerError (msg : string).

Inductive res (A : Type) : Type :=
| Ok (a : A)
| Raise (e : exn).

Arguments Ok {A} a.
Arguments Raise {A} e.

Definition res_bind {A B} (r : res A) (k : A -> res B) : res B :=
  match r with
  | Ok a => k a
  | Raise e => Raise e
  end.

(** Computations that draw from the global random generator: the generator
    state [G] is threaded, an exception aborts. *)
Definition M (G A : Type) : Type := G -> res (A * G).

Definition ret {G A} (a : A) : M G A := fun g => Ok (a, g).

Definition bind {G A B} (m : M G A) (k : A -> M G B) : M G B :=
  fun g => match m g with
           | Ok (a, g') => k a g'
           | Raise e => Raise e
           end.

Definition lift {G A} (r : res A) : M G A :=
  fun g => match r with
           | Ok a => Ok (a, g)
           | Raise e => Raise e
           end.

Declare Scope monad_scope.
Delimit Scope monad_scope with monad.
Notation "x <- m ;; k" := (bind m (fun x => k))
  (at level 61, m at next level, right associativity) : monad_scope.
Notation "' p <- m ;; k" := (bind m (fun x => let p := x in k))
  (at level 61, p pattern, m at next level, right associativity) : monad_scope.
Notation "x <~ r ;; k" := (res_bind r (fun x => k))
  (at level 61, r at next level, right associativity) : monad_scope.
Notation "' p <~ r ;; k" := (res_bind r (fun x => let p := x in k))
  (at level 61, p pattern, r at next level, right associativity) : monad_scope.

(** ** Tensor elements *)

Module Torch.

Inductive scalar : Type :=
| NaN
| NegInf
| PosInf
| Finite (r : R).

Definition Rleb (a b : R) : bool := if Rle_dec a b then true else false.
Definition Rltb (a b : R) : bool := if Rlt_dec a b then true else false.
Definition Reqb (a b : R) : bool := if Req_dec_T a b then true else false.

Definition isnan (x : scalar) : bool :=
  match x with NaN => true | _ => false end.

Definition isfinite (x : scalar) : bool :=
  match x with Finite _ => true | _ => false end.

Definition fneg (x : scalar) : scalar :=
  match x with
  | NaN => NaN
  | NegInf => PosInf
  | PosInf => NegInf
  | Finite r => Finite (- r)
  end.

Definition fadd (x y : scalar) : scalar :=
  match x, y with
  | NaN, _ | _, NaN => NaN
  | PosInf, NegInf | NegInf, PosInf => NaN
  | PosInf, _ | _, PosInf => PosInf
  | NegInf, _ | _, NegInf => NegInf
  | Finite a, Finite b => Finite (a + b)
  end.

Definition fsub (x y : scalar) : scalar := fadd x (fneg y).

(** The infinity with the sign of [s * a], NaN when [a] is zero. *)
Definition inf_times (positive : bool) (a : R) : scalar :=
  if Reqb a 0 then NaN
  else if Bool.eqb positive (Rltb 0 a) then PosInf else NegInf.

Definition fmul (x y : scalar) : scalar :=
  match x, y with
  | NaN, _ | _, NaN => NaN
  | Finite a, Finite b => Finite (a * b)
  | Finite a, PosInf | PosInf, Finite a => inf_times true a
  | Finite a, NegInf | NegInf, Finite a => inf_times false a
  | PosInf, PosInf | NegInf, NegInf => PosInf
  | PosInf, NegInf | NegInf, PosInf => NegInf
  end.

(** Division; a finite zero divisor is the positive zero. *)
Definition fdiv (x y : scalar) : scalar :=
  match x, y with
  | NaN, _ | _, NaN => NaN
  | Finite a, Finite b =>
      if Reqb b 0 then
        (if Reqb a 0 then NaN else if Rltb 0 a then PosInf else NegInf)
      else Finite (a / b)
  | Finite _, _ => Finite 0
  | PosInf, Finite b => if Rltb b 0 then NegInf else PosInf
  | NegInf, Finite b => if Rltb b 0 then PosInf else NegInf
  | _, _ => NaN
  end.

Definition fexp (x : scalar) : scalar :=
  match x with
  | NaN => NaN
  | NegInf => Finite 0
  | PosInf => PosInf
  | Finite r => Finite (exp r)
  end.

(** [torch.log] *)
Definition flog (x : scalar) : scalar :=
  match x with
  | NaN => NaN
  | NegInf => NaN
  | PosInf => PosInf
  | Finite r => if Rltb 0 r then Finite (ln r)
                else if Reqb r 0 then NegInf else NaN
  end.

(** [torch.sqrt] *)
Definition fsqrt (x : scalar) : scalar :=
  match x with
  | NaN => NaN
  | NegInf => NaN
  | PosInf => PosInf
  | Finite r => if Rltb r 0 then NaN else Finite (sqrt r)
  end.

(** [x >= y]; false as soon as one side is NaN. *)
Definition fge (x y : scalar) : bool :=
  match x, y with
  | NaN, _ | _, NaN => false
  | PosInf, _ => true
  | _, NegInf => true
  | NegInf, _ => false
  | Finite _, PosInf => false
  | Finite a, Finite b => Rleb b a
  end.

Definition fgt (x y : scalar) : bool :=
  match x, y with
  | NaN, _ | _, NaN => false
  | PosInf, PosInf => false
  | PosInf, _ => true
  | NegInf, _ => false
  | Finite _, NegInf => true
  | Finite _, PosInf => false
  | Finite a, Finite b => Rltb b a
  end.

(** The maximum of two elements as the reductions compute it: NaN wins. *)
Definition fmax (x y : scalar) : scalar :=
  if isnan x || isnan y then NaN else if fge x y then x else y.

(** [torch.max(t)] of a one-dimensional tensor; an empty tensor is refused. *)
Definition max (t : list scalar) : res scalar :=
  match t with
  | [] => Raise (RuntimeError "max(): Expected reduction dim to be specified for input.numel() == 0")
  | x :: t' => Ok (fold_left fmax t' x)
  end.

(** [torch.sum(t)] *)
Definition sum (t : list scalar) : scalar := fold_left fadd t (Finite 0).

(** [F.softmax(t, dim=-1)] of a one-dimensional tensor: the maximum is
    subtracted before the exponential. *)
Definition softmax (t : list scalar) : list scalar :=
  match max t with
  | Raise _ => []
  | Ok m =>
      let e := map (fun x => fexp (fsub x m)) t in
      let s := sum e in
      map (fun x => fdiv x s) e
  end.

(** The order [torch.topk] sorts by: NaN is above every number. *)
Definition topk_gt (x y : scalar) : bool :=
  (isnan x && negb (isnan y)) || fgt x y.

Fixpoint insert_desc (p : scalar * nat) (l : list (scalar * nat))
  : list (scalar * nat) :=
  match l with
  | [] => [p]
  | q :: l' => if topk_gt (fst q) (fst p) then q :: insert_desc p l'
               else p :: q :: l'
  end.

Definition sort_desc (l : list (scalar * nat)) : list (scalar * nat) :=
  fold_right insert_desc [] l.

(** [torch.topk(t, k, dim=-1)]: values in descending order with their
    indices; among equal values the lower index comes first. *)
Definition topk (t : list scalar) (k : nat) : res (list scalar * list nat) :=
  if k <=? length t then
    let s := firstn k (sort_desc (combine t (seq 0 (length t)))) in
    Ok (map fst s, map snd s)
  else Raise (RuntimeError "selected index k out of range").

(** [torch.log(t)] *)
Definition log (t : list scalar) : list scalar := map flog t.

Fixpoint zip_with {A B C} (f : A -> B -> C) (a : list A) (b : list B)
  : list C :=
  match a, b with
  | x :: a', y :: b' => f x y :: zip_with f a' b'
  | _, _ => []
  end.

(** [a - b] on one-dimensional tensors; a one-element tensor broadcasts. *)
Definition sub (a b : list scalar) : res (list scalar) :=
  if length a =? length b then Ok (zip_with fsub a b)
  else if length b =? 1 then Ok (map (fun x => fsub x (hd NaN b)) a)
  else if length a =? 1 then Ok (map (fun y => fsub (hd NaN a) y) b)
  else Raise (RuntimeError "The size of tensor a must match the size of tensor b").

(** [t >= c] for a zero-dimensional [c] *)
Definition ge (t : list scalar) (c : scalar) : list bool :=
  map (fun x => fge x c) t.

(** [c[mask] -= p[mask]]: both sides are indexed by the same boolean mask,
    which must have the shape of the tensor it indexes. *)
Definition isub_at (c : list scalar) (mask : list bool) (p : list scalar)
  : res (list scalar) :=
  if negb (length mask =? length c) then
    Raise (IndexError "The shape of the mask does not match the shape of the indexed tensor")
  else if negb (length mask =? length p) then
    Raise (IndexError "The shape of the mask does not match the shape of the indexed tensor")
  else
    Ok (zip_with (fun (cm : scalar * bool) (y : scalar) =>
                    if snd cm then fsub (fst cm) y else fst cm)
          (combine c mask) p).

(** [c[mask] = v] *)
Definition fill_at (c : list scalar) (mask : list bool) (v : scalar)
  : res (list scalar) :=
  if negb (length mask =? length c) then
    Raise (IndexError "The shape of the mask does not match the shape of the indexed tensor")
  else Ok (zip_with (fun x (m : bool) => if m then v else x) c mask).

(** [~mask] *)
Definition invert (mask : list bool) : list bool := map negb mask.

(** [t[i]] for a one-dimensional tensor and a non-negative index *)
Definition getitem {A} (t : list A) (i : nat) : res A :=
  match nth_error t i with
  | Some x => Ok x
  | None => Raise (IndexError "index out of range")
  end.

End Torch.

(** ** Contrastive decoding *)

Module ContrastiveDecoding.
Import Torch.
Local Open Scope monad_scope.

Definition token := nat.

(** [encoding['input_ids'][0]]: the ids of the one sequence of the batch. *)
Definition encoding := list token.

(** A language model, seen through the call on the encoding followed by
    [.logits[0, -1, :]]: the logits of the next token, or the exception the
    call raises. *)
Definition model := encoding -> res (list scalar).

(** The global [tokenizer]: [decode] is [tokenizer.decode], [encode] is the
    call [tokenizer(text, return_tensors='pt')]. *)
Record Tokenizer : Type := {
  decode : list token -> string;
  encode : string -> encoding
}.

(** The number of candidates kept by [torch.topk] in both decoders. *)
Definition k : nat := 50.

Section Sampling.

Variable G : Type.

(** [torch.multinomial(w, num_samples=1)], drawing from the global
    generator. *)
Variable multinomial : list scalar -> M G nat.

(** The lines shared by both decoders, from [torch.topk] to
    [next_token]: truncation to the [k] best scores, renormalisation and
    the draw. *)
Definition sample_topk (contrastive_logits : list scalar) : M G token :=
  ' (topk_logits, topk_indices) <- lift (topk contrastive_logits k) ;;
  let topk_probs := softmax topk_logits in
  sampled_index <- multinomial topk_probs ;;
  next_token <- lift (getitem topk_indices sampled_index) ;;
  ret next_token.

End Sampling.

(** *** Contrastive decoding without adaptive plausibility *)

Module Plain.

(** [contrastive_logits = torch.log(expert_probs) - torch.log(amateur_probs)] *)
Definition plain_score (expert_probs amateur_probs : list scalar)
  : res (list scalar) :=
  sub (log expert_probs) (log amateur_probs).

Section Decoder.

Variable G : Type.
Variable multinomial : list scalar -> M G nat.
Variable tokenizer : Tokenizer.

(** One turn of the loop body, up to [next_token]. *)
Definition plain_next_token (expert_model amateur_model : model)
  (enc : encoding) : M G token :=
  expert_logits <- lift (expert_model enc) ;;
  amateur_logits <- lift (amateur_model enc) ;;
  let expert_probs := softmax expert_logits in
  let amateur_probs := softmax amateur_logits in
  contrastive_logits <- lift (plain_score expert_probs amateur_probs) ;;
  sample_topk G multinomial contrastive_logits.

(** [for _ in range(num_tokens)], with [num_tokens] a count of tokens:
    the state of the loop is the list [generated_tokens] and the current
    [encoding]. *)
Fixpoint plain_loop (expert_model amateur_model : model) (num_tokens : nat)
  (generated_tokens : list token) (enc : encoding) : M G (list token) :=
  match num_tokens with
  | O => ret generated_tokens
  | S n =>
      t <- plain_next_token expert_model amateur_model enc ;;
      let generated_tokens := generated_tokens ++ [t] in
      let text := decode tokenizer generated_tokens in
      let enc := encode tokenizer text in
      plain_loop expert_model amateur_model n generated_tokens enc
  end.

Definition generate_next_token (enc : encoding)
  (expert_model amateur_model : model) (num_tokens : nat) : M G string :=
  let generated_tokens := enc in
  generated_tokens <-
    plain_loop expert_model amateur_model num_tokens generated_tokens enc ;;
  ret (decode tokenizer generated_tokens).

End Decoder.

End Plain.

(** *** Contrastive decoding with adaptive plausibility *)

Module Adaptive.

(** The plausibility mask. *)
Definition calculate_vhead (expert_probs : list scalar) (alpha : scalar)
  : res (list bool) :=
  m <~ max expert_probs ;;
  Ok (ge expert_probs (fmul alpha m)).

(** The lines from [plausible_mask = ...] to
    [contrastive_logits[~plausible_mask] = float('-inf')]. *)
Definition cd_score (expert_probs amateur_probs : list scalar)
  (alpha : scalar) : res (list scalar) :=
  plausible_mask <~ calculate_vhead expert_probs alpha ;;
  let contrastive_logits := log expert_probs in
  let amateur_penalty := log amateur_probs in
  contrastive_logits <~
    isub_at contrastive_logits plausible_mask amateur_penalty ;;
  fill_at contrastive_logits (invert plausible_mask) NegInf.

(** The default of the parameter [alpha]. *)
Definition alpha_default : scalar := Finite (1 / 10).

Section Decoder.

Variable G : Type.
Variable multinomial : list scalar -> M G nat.
Variable tokenizer : Tokenizer.

(** One turn of the loop body, up to [next_token]. *)
Definition next_token (expert_model amateur_model : model)
  (alpha : scalar) (enc : encoding) : M G token :=
  expert_logits <- lift (expert_model enc) ;;
  amateur_logits <- lift (amateur_model enc) ;;
  let expert_probs := softmax expert_logits in
  let amateur_probs := softmax amateur_logits in
  contrastive_logits <-
    lift (cd_score expert_probs amateur_probs alpha) ;;
  sample_topk G multinomial contrastive_logits.

(** The loop of the adaptive decoder, on the same state. *)
Fixpoint loop (expert_model amateur_model : model) (alpha : scalar)
  (num_tokens : nat) (generated_tokens : list token) (enc : encoding)
  : M G (list token) :=
  match num_tokens with
  | O => ret generated_tokens
  | S n =>
      t <- next_token expert_model amateur_model alpha enc ;;
      let generated_tokens := generated_tokens ++ [t] in
      let text := decode tokenizer generated_tokens in
      let enc := encode tokenizer text in
      loop expert_model amateur_model alpha n generated_tokens enc
  end.

Definition generate_next_token (enc : encoding)
  (expert_model amateur_model : model) (num_tokens : nat)
  (alpha : scalar) : M G string :=
  let generated_tokens := enc in
  generated_tokens <-
    loop expert_model amateur_model alpha num_tokens generated_tokens enc ;;
  ret (decode tokenizer generated_tokens).

End Decoder.

End Adaptive.

End ContrastiveDecoding.

(** ** Multi-head attention *)

(** A one-, two-, three- and four-dimensional tensor. *)
Abbreviation T1 := (list Torch.scalar) (only parsing).
Abbreviation T2 := (list (list Torch.scalar)) (only parsing).
Abbreviation T3 := (list (list (list Torch.scalar))) (only parsing).
Abbreviation T4 := (list (list (list (list Torch.scalar)))) (only parsing).

Module Tensor.
Import Torch.
Local Open Scope monad_scope.

(** [count] consecutive blocks of [size] elements each: the row-major
    reading of a flat buffer. *)
Fixpoint chunks {A} (count size : nat) (l : list A) : list (list A) :=
  match count with
  | O => []
  | S c => firstn size l :: chunks c size (skipn size l)
  end.

Definition column {A} (d : A) (c : nat) (m : list (list A)) : list A :=
  map (fun row => nth c row d) m.

(** Exchange of the two outer dimensions of a tensor whose second
    dimension has size [ncols]. *)
Definition transpose {A} (d : A) (ncols : nat) (m : list (list A))
  : list (list A) :=
  map (fun c => column d c m) (seq 0 ncols).

Definition dot (x y : T1) : scalar :=
  fold_left fadd (zip_with fmul x y) (Finite 0).

(** The product of a matrix by a matrix of [p] columns, rows by columns. *)
Definition matmul_rows (p : nat) (a b : T2) : T2 :=
  map (fun row => map (fun c => dot row (column NaN c b)) (seq 0 p)) a.

(** [torch.matmul] of an [n x m] by an [m' x p] matrix. *)
Definition matmul (m : nat) (a : T2) (m' p : nat) (b : T2) : res T2 :=
  if m =? m' then Ok (matmul_rows p a b)
  else Raise (RuntimeError "mat1 and mat2 shapes cannot be multiplied").

(** Size of the dimension written [-1] in a [view] of [n] elements whose
    other dimensions multiply to [c]. *)
Definition infer_dim (n c : nat) : res nat :=
  if c =? 0 then
    Raise (RuntimeError "cannot reshape: the unspecified dimension is ambiguous or the shape is invalid")
  else if n mod c =? 0 then Ok (n / c)
  else Raise (RuntimeError "shape is invalid for input of this size").

(** [x.view(b, -1, h, d)] of a contiguous three-dimensional tensor, with
    the size found for [-1]. *)
Definition view4 (x : T3) (b h d : nat) : res (nat * T4) :=
  let flat := concat (concat x) in
  L <~ infer_dim (length flat) (b * h * d) ;;
  Ok (L, chunks b L (chunks (b * L) h (chunks (b * L * h) d flat))).

(** [x.contiguous().view(b, -1, hs)] of a four-dimensional tensor. *)
Definition view3 (x : T4) (b hs : nat) : res T3 :=
  let flat := concat (concat (concat x)) in
  L <~ infer_dim (length flat) (b * hs) ;;
  Ok (chunks b L (chunks (b * L) hs flat)).

(** [x.transpose(1, 2)] of a four-dimensional tensor whose dimension 2 has
    size [n2]. *)
Definition transpose12 (n2 : nat) (x : T4) : T4 :=
  map (transpose [] n2) x.

(** Broadcast of one dimension to size [n]. *)
Definition expand {A} (n : nat) (l : list A) : res (list A) :=
  if length l =? n then Ok l
  else match l with
       | [x] => Ok (repeat x n)
       | _ => Raise (RuntimeError "The size of the mask is not broadcastable")
       end.

Fixpoint traverse {A B} (f : A -> res B) (l : list A) : res (list B) :=
  match l with
  | [] => Ok []
  | x :: l' => y <~ f x ;; ys <~ traverse f l' ;; Ok (y :: ys)
  end.

(** Broadcast of a four-dimensional mask to the shape
    [(n0, n1, n2, n3)]. *)
Definition expand4 (n0 n1 n2 n3 : nat) (mask : list (list (list (list bool))))
  : res (list (list (list (list bool)))) :=
  m0 <~ expand n0 mask ;;
  traverse (fun x1 =>
    m1 <~ expand n1 x1 ;;
    traverse (fun x2 =>
      m2 <~ expand n2 x2 ;;
      traverse (expand n3) m2) m1) m0.

(** [row.masked_fill(fill, v)] on matching rows. *)
Definition masked_fill_row (v : scalar) (row : T1) (fill : list bool) : T1 :=
  zip_with (fun x (f : bool) => if f then v else x) row fill.

End Tensor.

Module nn.
Import Torch Tensor.
Local Open Scope monad_scope.

(** An [nn.Linear] layer: [weight] has [out_features] rows of
    [in_features] elements. *)
Record Linear : Type := {
  in_features : nat;
  out_features : nat;
  weight : T2;
  bias : T1
}.

(** The binding of the arguments of a call to the required parameters
    [params]: positional arguments first, then keywords.  The optional
    parameters of [nn.Linear] are never passed in this repository and are
    left out. *)
Fixpoint bind_keywords (params : list string) (bound : list (string * Z))
  (kwargs : list (string * Z)) : res (list (string * Z)) :=
  match kwargs with
  | [] => Ok bound
  | (name, v) :: kwargs' =>
      if negb (existsb (String.eqb name) params) then
        Raise (TypeError ("__init__() got an unexpected keyword argument '" ++ name ++ "'"))
      else if existsb (fun b => String.eqb name (fst b)) bound then
        Raise (TypeError ("__init__() got multiple values for argument '" ++ name ++ "'"))
      else bind_keywords params (bound ++ [(name, v)]) kwargs'
  end.

Definition lookup (name : string) (bound : list (string * Z)) : res Z :=
  match find (fun b => String.eqb name (fst b)) bound with
  | Some b => Ok (snd b)
  | None =>
      Raise (TypeError ("__init__() missing 1 required positional argument: '" ++ name ++ "'"))
  end.

Definition bind_args (params : list string) (args : list Z)
  (kwargs : list (string * Z)) : res (list (string * Z)) :=
  if length params <? length args then
    Raise (TypeError "__init__() takes 3 positional arguments but more were given")
  else bind_keywords params (combine params args) kwargs.

Section Init.

Variable G : Type.

(** [n] fresh values from the global generator: the initialisation of a
    parameter tensor of [n] elements. *)
Variable uniform_ : nat -> M G T1.

Fixpoint init_rows (rows cols : nat) : M G T2 :=
  match rows with
  | O => ret []
  | S r => w <- uniform_ cols ;; ws <- init_rows r cols ;; ret (w :: ws)
  end.

(** [nn.Linear(...)] *)
Definition Linear_init (args : list Z) (kwargs : list (string * Z))
  : M G Linear :=
  bound <-
    lift (bind_args ["in_features"; "out_features"]%string args kwargs) ;;
  inf <- lift (lookup "in_features" bound) ;;
  outf <- lift (lookup "out_features" bound) ;;
  if ((inf <? 0) || (outf <? 0))%Z then
    lift (Raise (RuntimeError "Trying to create tensor with negative dimension"))
  else
    w <- init_rows (Z.to_nat outf) (Z.to_nat inf) ;;
    b <- uniform_ (Z.to_nat outf) ;;
    ret {| in_features := Z.to_nat inf;
           out_features := Z.to_nat outf;
           weight := w;
           bias := b |}.

End Init.

(** [x @ weight.T + bias] for one vector [x]. *)
Definition Linear_apply (l : Linear) (x : T1) : T1 :=
  zip_with (fun w b => fadd (dot x w) b) (weight l) (bias l).

(** The layer applied to one vector: its size must be [in_features]. *)
Definition Linear_row (l : Linear) (x : T1) : res T1 :=
  if length x =? in_features l then Ok (Linear_apply l x)
  else Raise (RuntimeError "mat1 and mat2 shapes cannot be multiplied").

(** The layer applied to a three-dimensional tensor. *)
Definition Linear_forward (l : Linear) (x : T3) : res T3 :=
  traverse (traverse (Linear_row l)) x.

End nn.

Module MultiHeadAttention.
Import Torch Tensor nn.
Local Open Scope monad_scope.

(** The attributes set by the constructor. *)
Record t : Type := {
  hidden_size : Z;
  num_heads : Z;
  head_dim : Z;
  query : Linear;
  key : Linear;
  value : Linear;
  fc_out : Linear;
  scale : scalar
}.

(** Python's [a % b] and [a // b] on integers. *)
Definition py_mod (a b : Z) : res Z :=
  if (b =? 0)%Z then Raise ZeroDivisionError else Ok (a mod b)%Z.

Definition py_floordiv (a b : Z) : res Z :=
  if (b =? 0)%Z then Raise ZeroDivisionError else Ok (a / b)%Z.

Definition py_assert (c : bool) : res unit :=
  if c then Ok tt else Raise AssertionError.

Section Init.

Variable G : Type.
Variable uniform_ : nat -> M G T1.

Definition __init__ (hidden_size num_heads : Z) : M G t :=
  r <- lift (py_mod hidden_size num_heads) ;;
  _ <- lift (py_assert (r =? 0)%Z) ;;
  head_dim <- lift (py_floordiv hidden_size num_heads) ;;
  query <- Linear_init G uniform_ []
             [("in_features", hidden_size); ("out_features", hidden_size)]%string ;;
  key <- Linear_init G uniform_ []
           [("in_features", hidden_size); ("out_features", hidden_size)]%string ;;
  value <- Linear_init G uniform_ []
             [("in_feautures", hidden_size); ("out_features", hidden_size)]%string ;;
  fc_out <- Linear_init G uniform_ [hidden_size; hidden_size] [] ;;
  let scale := fsqrt (Finite (IZR head_dim)) in
  ret {| hidden_size := hidden_size;
         num_heads := num_heads;
         head_dim := head_dim;
         query := query;
         key := key;
         value := value;
         fc_out := fc_out;
         scale := scale |}.

End Init.

(** A size given to [view]: a negative one other than the single [-1] is
    refused. *)
Definition size_arg (z : Z) : res nat :=
  if (z <? 0)%Z then Raise (RuntimeError "invalid shape dimension")
  else Ok (Z.to_nat z).

(** [torch.matmul] on the two inner dimensions of four-dimensional tensors
    with equal outer dimensions. *)
Definition matmul4 (m : nat) (a : T4) (m' p : nat) (b : T4) : res T4 :=
  if m =? m' then Ok (zip_with (zip_with (matmul_rows p)) a b)
  else Raise (RuntimeError "mat1 and mat2 shapes cannot be multiplied").

Abbreviation mask4 := (list (list (list (list bool)))) (only parsing).

(** [scores.masked_fill(mask == False, float('-inf'))] *)
Definition masked_fill (n0 n1 n2 n3 : nat) (scores : T4) (mask : mask4)
  : res T4 :=
  let blocked := map (map (map (map negb))) mask in
  blocked <~ expand4 n0 n1 n2 n3 blocked ;;
  Ok (zip_with (zip_with (zip_with (masked_fill_row NegInf))) scores blocked).

Definition forward (self : t) (query key value : T3) (mask : option mask4)
  : res T3 :=
  let batch_size := length query in
  Q <~ Linear_forward self.(MultiHeadAttention.query) query ;;
  K <~ Linear_forward self.(MultiHeadAttention.query) key ;;
  V <~ Linear_forward self.(MultiHeadAttention.query) value ;;
  h <~ size_arg self.(num_heads) ;;
  d <~ size_arg self.(head_dim) ;;
  ' (Lq, Q) <~ view4 Q batch_size h d ;;
  let Q := transpose12 h Q in
  ' (Lk, K) <~ view4 K batch_size h d ;;
  let K := transpose12 h K in
  ' (Lv, V) <~ view4 V batch_size h d ;;
  let V := transpose12 h V in
  scores <~ matmul4 d Q d Lk (map (map (transpose NaN d)) K) ;;
  let scores := map (map (map (map (fun x => fdiv x self.(scale))))) scores in
  scores <~ match mask with
            | Some mask => masked_fill batch_size h Lq Lk scores mask
            | None => Ok scores
            end ;;
  let attn_weights := map (map (map softmax)) scores in
  attn_output <~ matmul4 Lk attn_weights Lv d V ;;
  hs <~ size_arg self.(hidden_size) ;;
  attn_output <~ view3 (transpose12 Lq attn_output) batch_size hs ;;
  output <~ Linear_forward self.(fc_out) attn_output ;;
  Ok output.

(** [torch.tril(torch.ones((n, n))).bool().unsqueeze(0).unsqueeze(1)]: the
    causal mask built by the encoder-decoder model. *)
Definition causal_mask (n : nat) : mask4 :=
  [[map (fun i => map (fun j => j <=? i) (seq 0 n)) (seq 0 n)]].

End MultiHeadAttention.

(** ** Specification vocabulary *)

Module Spec.
Import Torch.

(** A probability distribution over the vocabulary: finite, non-negative
    entries that sum to one. *)
Definition prob_dist (p : list scalar) : Prop :=
  exists rs, p = map Finite rs /\
             Forall (fun r => (0 <= r)%R) rs /\
             fold_right Rplus 0%R rs = 1%R.

(** The adaptive score of one vocabulary entry, given the threshold
    [alpha * max(expert_probs)]. *)
Definition masked_score (threshold x y : scalar) : scalar :=
  if fge x threshold then fsub (flog x) (flog y) else NegInf.

(** [p] stands before [q] in the descending order of [torch.topk]. *)
Definition before (p q : scalar * nat) : Prop :=
  topk_gt (fst q) (fst p) = false.

(** The values of a tensor with their indices, best first: [torch.topk]
    returns a prefix of it. *)
Definition ranked (t : list scalar) : list (scalar * nat) :=
  sort_desc (combine t (seq 0 (length t))).

(** The weights [torch.multinomial] accepts: finite, non-negative, with a
    positive sum. *)
Definition valid_weights (w : list scalar) : Prop :=
  exists rs, w = map Finite rs /\
             Forall (fun r => (0 <= r)%R) rs /\
             (0 < fold_right Rplus 0%R rs)%R.

(** What the documentation of [torch.multinomial] promises of a draw: the
    index drawn is in range and carries a positive weight. *)
Definition multinomial_support {G} (multinomial : list scalar -> M G nat)
  : Prop :=
  forall w g j g', multinomial w g = Ok (j, g') ->
    exists r, nth_error w j = Some (Finite r) /\ (0 < r)%R.

(** A draw from valid weights succeeds. *)
Definition multinomial_total {G} (multinomial : list scalar -> M G nat)
  : Prop :=
  forall w g, valid_weights w -> exists j g', multinomial w g = Ok (j, g').

(** A contrastive score: a finite number, or minus infinity for an excluded
    entry. *)
Definition is_score (x : scalar) : Prop := x = NegInf \/ exists r, x = Finite r.

(** The exponential of a score shifted by [m], as a real number. *)
Definition shifted_exp (m : R) (x : scalar) : R :=
  match x with
  | Finite r => exp (r + - m)
  | _ => 0
  end.

(** Both models answer every encoding with finite logits over one
    vocabulary of at least [k] entries. *)
Definition scorers_ok (expert_model amateur_model : ContrastiveDecoding.model)
  : Prop :=
  forall enc, exists le la,
    expert_model enc = Ok (map Finite le) /\
    amateur_model enc = Ok (map Finite la) /\
    length la = length le /\ ContrastiveDecoding.k <= length le.

(** Logits that lie within [50] of each other: the range where the
    exponentials of a softmax in single precision stay positive, as the
    exact exponential of [fexp] always does. *)
Definition bounded_spread (ls : list R) : Prop :=
  forall x y, In x ls -> In y ls -> (x - y <= 50)%R.

(** Both models answer every encoding with finite logits of bounded
    spread over one vocabulary of at least [k] entries. *)
Definition scorers_conditioned
  (expert_model amateur_model : ContrastiveDecoding.model) : Prop :=
  forall enc, exists le la,
    expert_model enc = Ok (map Finite le) /\
    amateur_model enc = Ok (map Finite la) /\
    length la = length le /\ ContrastiveDecoding.k <= length le /\
    bounded_spread le /\ bounded_spread la.

(** The token [tok] passes the plausibility mask of the step that reads
    the encoding [enc]. *)
Definition plausible (expert_model : ContrastiveDecoding.model)
  (alpha : scalar) (enc : ContrastiveDecoding.encoding) (tok : nat) : Prop :=
  exists expert_logits m mask,
    expert_model enc = Ok expert_logits /\
    max (softmax expert_logits) = Ok m /\
    ContrastiveDecoding.Adaptive.calculate_vhead (softmax expert_logits) alpha
      = Ok mask /\
    nth_error mask tok = Some true /\
    fge (nth tok (softmax expert_logits) NaN) (fmul alpha m) = true.

(** The encoding read by step [i] of a run that starts from the encoding
    [enc0] with [generated_tokens = prompt] and generates [gen]: after the
    first step it is the re-encoding of the decoded tokens. *)
Definition encoding_at (tokenizer : ContrastiveDecoding.Tokenizer)
  (enc0 : ContrastiveDecoding.encoding) (prompt gen : list nat) (i : nat)
  : ContrastiveDecoding.encoding :=
  match i with
  | O => enc0
  | S _ =>
      ContrastiveDecoding.encode tokenizer
        (ContrastiveDecoding.decode tokenizer (prompt ++ firstn i gen))
  end.

(** An excluded entry of a score tensor, and the number of entries that
    are not excluded. *)
Definition excluded (x : scalar) : bool :=
  match x with NegInf => true | _ => false end.

Definition count_non_excluded (scores : list scalar) : nat :=
  length (filter (fun x => negb (excluded x)) scores).

(** A deterministic stand-in for [torch.multinomial]: the first index of
    positive weight.  It exhibits runs of the decoders. *)
Fixpoint first_positive (w : list scalar) (i : nat) : option nat :=
  match w with
  | [] => None
  | Finite r :: w' => if Rltb 0 r then Some i else first_positive w' (S i)
  | _ :: w' => first_positive w' (S i)
  end.

Definition first_positive_multinomial (w : list scalar) : M unit nat :=
  fun g => match first_positive w 0 with
           | Some j => Ok (j, g)
           | None => Raise (RuntimeError "invalid multinomial distribution (sum of probabilities <= 0)")
           end.

(** A model that gives every token of a vocabulary of [n] entries the
    logit [0], and a tokenizer over one-character tokens. *)
Definition flat_model (n : nat) : ContrastiveDecoding.model :=
  fun _ => Ok (map Finite (repeat 0%R n)).

(** A model that is confident of token [0] on a vocabulary of fifty
    entries: under the default [alpha] the forty-nine others are
    excluded. *)
Definition peaked_model : ContrastiveDecoding.model :=
  fun _ => Ok (map Finite (10%R :: repeat 0%R 49)).

Definition unary_tokenizer : ContrastiveDecoding.Tokenizer :=
  {| ContrastiveDecoding.decode :=
       fun toks => String.concat "" (map (fun _ => "a"%string) toks);
     ContrastiveDecoding.encode :=
       fun text => repeat 0 (String.length text) |}.



(** The four-token vocabulary of the end-to-end example. *)
Definition toy_expert : list scalar :=
  map Finite [(7 / 10)%R; (2 / 10)%R; (5 / 100)%R; (5 / 100)%R].

Definition toy_amateur : list scalar :=
  map Finite [(1 / 10)%R; (1 / 10)%R; (4 / 10)%R; (4 / 10)%R].

(** The exception of the call that builds the value projection. *)
Definition misspelled : exn :=
  TypeError "__init__() got an unexpected keyword argument 'in_feautures'".

(** Shapes of nested lists. *)
Definition rect {A} (n m : nat) (x : list (list A)) : Prop :=
  length x = n /\ Forall (fun r => length r = m) x.

Definition shape3 {A} (b n m : nat) (x : list (list (list A))) : Prop :=
  length x = b /\ Forall (rect n m) x.

Definition shape4 {A} (b n h d : nat) (x : list (list (list (list A))))
  : Prop :=
  length x = b /\ Forall (shape3 n h d) x.

(** The stages of [forward] on well-shaped inputs, where no shape check
    fails and every [view] is a regrouping of rows. *)
Definition project (l : nn.Linear) (x : list (list (list scalar)))
  : list (list (list scalar)) :=
  map (map (nn.Linear_apply l)) x.

Definition split_heads (h d : nat) (x : list (list (list scalar)))
  : list (list (list (list scalar))) :=
  Tensor.transpose12 h (map (map (Tensor.chunks h d)) x).

Definition scaled_scores (scale : scalar) (d Lk : nat)
  (Q K : list (list (list (list scalar)))) : list (list (list (list scalar))) :=
  map (map (map (map (fun x => fdiv x scale))))
    (zip_with (zip_with (Tensor.matmul_rows Lk)) Q
       (map (map (Tensor.transpose NaN d)) K)).

(** The causal mask, negated and broadcast to [b] samples and [h] heads. *)
Definition blocked_causal (b h n : nat) : list (list (list (list bool))) :=
  repeat (repeat (map (fun i => map (fun j => negb (j <=? i)) (seq 0 n))
                    (seq 0 n)) h) b.

Definition fill_blocked (scores : list (list (list (list scalar))))
  (blocked : list (list (list (list bool))))
  : list (list (list (list scalar))) :=
  zip_with (zip_with (zip_with (Tensor.masked_fill_row NegInf))) scores blocked.

Definition attend (d : nat) (W V : list (list (list (list scalar))))
  : list (list (list (list scalar))) :=
  zip_with (zip_with (Tensor.matmul_rows d)) W V.

Definition merge_heads (Lq : nat) (A : list (list (list (list scalar))))
  : list (list (list scalar)) :=
  map (map (@concat scalar)) (Tensor.transpose12 Lq A).

Definition causal_attention (self : MultiHeadAttention.t) (h d n : nat)
  (query key value : list (list (list scalar))) : list (list (list scalar)) :=
  let Wq := MultiHeadAttention.query self in
  let Q := split_heads h d (project Wq query) in
  let K := split_heads h d (project Wq key) in
  let V := split_heads h d (project Wq value) in
  let scores := scaled_scores (MultiHeadAttention.scale self) d n Q K in
  let scores := fill_blocked scores (blocked_causal (length query) h n) in
  let attn_weights := map (map (map softmax)) scores in
  let attn_output := attend d attn_weights V in
  project (MultiHeadAttention.fc_out self) (merge_heads n attn_output).

(** A module as the constructor would leave it for [h] heads of size [d],
    as far as [forward] reads it. *)
Definition wf_module (self : MultiHeadAttention.t) (h d : nat) : Prop :=
  MultiHeadAttention.num_heads self = Z.of_nat h /\
  MultiHeadAttention.head_dim self = Z.of_nat d /\
  MultiHeadAttention.hidden_size self = Z.of_nat (h * d) /\
  0 < h /\ 0 < d /\
  nn.in_features (MultiHeadAttention.query self) = h * d /\
  length (nn.weight (MultiHeadAttention.query self)) = h * d /\
  length (nn.bias (MultiHeadAttention.query self)) = h * d /\
  nn.in_features (MultiHeadAttention.fc_out self) = h * d.

Definition finite (x : scalar) : Prop := exists r, x = Finite r.

Definition finite_linear (l : nn.Linear) : Prop :=
  Forall (Forall finite) (nn.weight l) /\ Forall finite (nn.bias l).

Definition finite3 (x : list (list (list scalar))) : Prop :=
  Forall (Forall (Forall finite)) x.

(** Two sequences that agree up to position [i]. *)
Definition agree {A} (i : nat) (l l' : list A) : Prop :=
  length l = length l' /\
  forall j, j <= i -> nth_error l j = nth_error l' j.

(** Two sequences with the same element at position [i]. *)
Definition same_row {A} (i : nat) (l l' : list A) : Prop :=
  exists r, nth_error l i = Some r /\ nth_error l' i = Some r.

(** Past position [i] a row of attention weights holds zeros, or NaN when
    the row is degenerate. *)
Definition masked_tail (i : nat) (w : list scalar) : Prop :=
  forall j, i < j -> j < length w ->
    nth_error w j = Some (Finite 0) \/ nth_error w j = Some NaN.

(** Row [i] of two score matrices: of size [n], equal up to column [i]. *)
Definition rel_scores (i n : nat) (S S' : list (list scalar)) : Prop :=
  exists r r', nth_error S i = Some r /\ nth_error S' i = Some r' /\
               length r = n /\ length r' = n /\ agree i r r'.

(** Row [i] of two weight matrices: the same row, of size [n], with
    nothing on the future. *)
Definition rel_weights (i n : nat) (W W' : list (list scalar)) : Prop :=
  exists w, nth_error W i = Some w /\ nth_error W' i = Some w /\
            length w = n /\ masked_tail i w.

(** Finite [n x d] matrices. *)
Definition finite_rect (n d : nat) (V : list (list scalar)) : Prop :=
  rect n d V /\ Forall (Forall finite) V.

(** Two value matrices that agree up to row [i]. *)
Definition rel_value (i n d : nat) (V V' : list (list scalar)) : Prop :=
  agree i V V' /\ finite_rect n d V /\ finite_rect n d V'.

(** A stand-in for the initialisation of parameters: all zeros. *)
Definition zeros_ (n : nat) : M unit T1 :=
  fun g => Ok (repeat (Finite 0) n, g).

(** A module with one head of size one whose projections are the
    identity, and two one-sample sequences of length two that differ at
    position [1] only. *)
Definition identity_linear : nn.Linear :=
  {| nn.in_features := 1; nn.out_features := 1;
     nn.weight := [[Finite 1]]; nn.bias := [Finite 0] |}.

Definition tiny_attention : MultiHeadAttention.t :=
  {| MultiHeadAttention.hidden_size := 1;
     MultiHeadAttention.num_heads := 1;
     MultiHeadAttention.head_dim := 1;
     MultiHeadAttention.query := identity_linear;
     MultiHeadAttention.key := identity_linear;
     MultiHeadAttention.value := identity_linear;
     MultiHeadAttention.fc_out := identity_linear;
     MultiHeadAttention.scale := fsqrt (Finite (IZR 1)) |}.

(** The same module with other key and value projections. *)
Definition doubling_linear : nn.Linear :=
  {| nn.in_features := 1; nn.out_features := 1;
     nn.weight := [[Finite 2]]; nn.bias := [Finite 1] |}.

Definition tiny_attention_perturbed : MultiHeadAttention.t :=
  {| MultiHeadAttention.hidden_size := 1;
     MultiHeadAttention.num_heads := 1;
     MultiHeadAttention.head_dim := 1;
     MultiHeadAttention.query := identity_linear;
     MultiHeadAttention.key := doubling_linear;
     MultiHeadAttention.value := doubling_linear;
     MultiHeadAttention.fc_out := identity_linear;
     MultiHeadAttention.scale := fsqrt (Finite (IZR 1)) |}.

Definition tiny_input : list (list (list scalar)) :=
  [[[Finite 1]; [Finite 2]]].

Definition tiny_input' : list (list (list scalar)) :=
  [[[Finite 1]; [Finite 3]]].

(** The sequence [tiny_input] with an infinite value at position [1]. *)
Definition inf_input : list (list (list scalar)) :=
  [[[Finite 1]; [PosInf]]].

End Spec.

(** ** Vocabulary of the further properties *)

Module Props.
Import Torch Spec.

(** The token [tok] is one of the [k] best entries of the score tensor:
    fewer than [k] entries stand strictly above it in the order of
    [torch.topk]. *)
Definition among_best (scores : list scalar) (tok : nat) : Prop :=
  exists v, nth_error scores tok = Some v /\
            length (filter (fun x => topk_gt x v) scores)
              < ContrastiveDecoding.k.

(** The token [tok] is one of the best entries of the scores that the
    decoder without adaptive plausibility computes from [enc]. *)
Definition plain_choice (expert_model amateur_model : ContrastiveDecoding.model)
  (enc : ContrastiveDecoding.encoding) (tok : nat) : Prop :=
  exists expert_logits amateur_logits scores,
    expert_model enc = Ok expert_logits /\
    amateur_model enc = Ok amateur_logits /\
    ContrastiveDecoding.Plain.plain_score
      (softmax expert_logits) (softmax amateur_logits) = Ok scores /\
    among_best scores tok.

(** The stages of [forward] without a mask, for a query of [n] positions
    and keys and values of [m] positions. *)
Definition attention_stages (self : MultiHeadAttention.t) (h d n m : nat)
  (query key value : list (list (list scalar))) : list (list (list scalar)) :=
  let Wq := MultiHeadAttention.query self in
  let Q := split_heads h d (project Wq query) in
  let K := split_heads h d (project Wq key) in
  let V := split_heads h d (project Wq value) in
  let scores := scaled_scores (MultiHeadAttention.scale self) d m Q K in
  let attn_weights := map (map (map softmax)) scores in
  let attn_output := attend d attn_weights V in
  project (MultiHeadAttention.fc_out self) (merge_heads n attn_output).

(** The token [tok] is one of the best entries of the logits that the
    model gives for the sequence [ids] and the mask [mask]. *)
Definition sampled_choice (model : list nat -> list Z -> res (list scalar))
  (ids : list nat) (mask : list Z) (tok : nat) : Prop :=
  exists logits, model ids mask = Ok logits /\ among_best logits tok.

(** A language model that gives every token of a vocabulary of [n]
    entries the logit [0]. *)
Definition flat_lm (n : nat) : list nat -> list Z -> res (list scalar) :=
  fun _ _ => Ok (map Finite (repeat 0%R n)).

(** Keys and values of three positions for the one-head module, and a
    batch of two samples. *)
Definition tiny_memory : list (list (list scalar)) :=
  [[[Finite 1]; [Finite 2]; [Finite 3]]].

Definition tiny_batch : list (list (list scalar)) :=
  [[[Finite 1]; [Finite 2]]; [[Finite 5]; [Finite 4]]].

End Props.

(** ** The encoder-decoder model *)

Module EncoderDecoder.
Import Torch Tensor nn.
Local Open Scope monad_scope.

Section Init.

Variable G : Type.
Variable uniform_ : nat -> M G T1.

(** The layers of the library other than [nn.Linear], seen through
    their constructors: [nn.Embedding(num_embeddings, embedding_dim)],
    [nn.LSTM(input_size, hidden_size, num_layers, batch_first=True,
    dropout=p)], [nn.Dropout(p)] and [nn.LayerNorm(normalized_shape)]. *)
Variables Embedding LSTM Dropout LayerNorm : Type.
Variable Embedding_init : Z -> Z -> M G Embedding.
Variable LSTM_init : Z -> Z -> Z -> scalar -> M G LSTM.
Variable Dropout_init : scalar -> M G Dropout.
Variable LayerNorm_init : Z -> M G LayerNorm.

Record EncoderLSTM : Type := {
  encoder_embedding : Embedding;
  encoder_lstm : LSTM;
  encoder_self_attention : MultiHeadAttention.t;
  encoder_dropout : Dropout;
  encoder_norm : LayerNorm
}.

Record DecoderLSTM : Type := {
  decoder_embedding : Embedding;
  decoder_lstm : LSTM;
  decoder_self_attention : MultiHeadAttention.t;
  decoder_cross_attention : MultiHeadAttention.t;
  decoder_fc : Linear;
  decoder_dropout : Dropout;
  decoder_norm1 : LayerNorm;
  decoder_norm2 : LayerNorm
}.

Record EncoderDecoderLSTM : Type := {
  encoder : EncoderLSTM;
  decoder : DecoderLSTM;
  tgt_vocab_size : Z
}.

(** [EncoderLSTM.__init__] *)
Definition EncoderLSTM_init
  (vocab_size embed_size hidden_size num_layers num_heads : Z)
  (dropout : scalar) : M G EncoderLSTM :=
  embedding <- Embedding_init vocab_size embed_size ;;
  lstm <- LSTM_init embed_size hidden_size num_layers
            (if (1 <? num_layers)%Z then dropout else Finite 0) ;;
  self_attention <-
    MultiHeadAttention.__init__ G uniform_ hidden_size num_heads ;;
  dropout <- Dropout_init dropout ;;
  norm <- LayerNorm_init hidden_size ;;
  ret {| encoder_embedding := embedding;
         encoder_lstm := lstm;
         encoder_self_attention := self_attention;
         encoder_dropout := dropout;
         encoder_norm := norm |}.

(** [DecoderLSTM.__init__] *)
Definition DecoderLSTM_init
  (vocab_size embed_size hidden_size num_layers num_heads : Z)
  (dropout : scalar) : M G DecoderLSTM :=
  embedding <- Embedding_init vocab_size embed_size ;;
  lstm <- LSTM_init embed_size hidden_size num_layers
            (if (1 <? num_layers)%Z then dropout else Finite 0) ;;
  self_attention <-
    MultiHeadAttention.__init__ G uniform_ hidden_size num_heads ;;
  cross_attention <-
    MultiHeadAttention.__init__ G uniform_ hidden_size num_heads ;;
  fc <- Linear_init G uniform_ [hidden_size; vocab_size] [] ;;
  dropout <- Dropout_init dropout ;;
  norm1 <- LayerNorm_init hidden_size ;;
  norm2 <- LayerNorm_init hidden_size ;;
  ret {| decoder_embedding := embedding;
         decoder_lstm := lstm;
         decoder_self_attention := self_attention;
         decoder_cross_attention := cross_attention;
         decoder_fc := fc;
         decoder_dropout := dropout;
         decoder_norm1 := norm1;
         decoder_norm2 := norm2 |}.

(** [EncoderDecoderLSTM.__init__] *)
Definition EncoderDecoderLSTM_init
  (src_vocab_size tgt_vocab_size embed_size hidden_size num_layers
     num_heads : Z) (dropout : scalar) : M G EncoderDecoderLSTM :=
  encoder <- EncoderLSTM_init src_vocab_size embed_size hidden_size
               num_layers num_heads dropout ;;
  decoder <- DecoderLSTM_init tgt_vocab_size embed_size hidden_size
               num_layers num_heads dropout ;;
  ret {| encoder := encoder;
         decoder := decoder;
         tgt_vocab_size := tgt_vocab_size |}.

End Init.

(** [mask[:, :, :k, :k]] *)
Definition slice_inner (k : nat) (mask : list (list (list (list bool))))
  : list (list (list (list bool))) :=
  map (map (fun m => map (firstn k) (firstn k m))) mask.

(** The mask that [forward] gives the decoder at step [t] of its loop,
    for targets of [tgt_seq_len] positions. *)
Definition forward_step_mask (tgt_seq_len t : nat)
  : list (list (list (list bool))) :=
  let self_attn_mask := MultiHeadAttention.causal_mask tgt_seq_len in
  if (Z.of_nat t <? Z.of_nat tgt_seq_len - 1)%Z
  then slice_inner (t + 1) self_attn_mask
  else self_attn_mask.

(** The mask that [inference] gives the decoder at step [t] of its loop. *)
Definition inference_step_mask (max_len t : nat)
  : list (list (list (list bool))) :=
  let self_attn_mask := MultiHeadAttention.causal_mask max_len in
  if (Z.of_nat t <? Z.of_nat max_len - 1)%Z
  then slice_inner (t + 2) self_attn_mask
  else self_attn_mask.

(** The exceptions of the statements that call an attention module and
    unpack its result: those of the call, and the [ValueError] of the
    unpacking. *)
Inductive unpack_exn : Type :=
  | Attention (e : exn)
  | ValueError (msg : string).

(** [a, _ = t]: the iteration over the first dimension of [t], for two
    names. *)
Definition unpack2 {A} (t : list A) : unpack_exn + A * A :=
  match t with
  | [] => inl (ValueError "not enough values to unpack (expected 2, got 0)")
  | [_] => inl (ValueError "not enough values to unpack (expected 2, got 1)")
  | [a; b] => inr (a, b)
  | _ => inl (ValueError "too many values to unpack (expected 2)")
  end.

(** [attn_output, _ = attention(query, key, value, mask)]: the statement
    of [EncoderLSTM.forward] and the two of [DecoderLSTM.forward] that
    call an attention module. *)
Definition attention_unpacked (attention : MultiHeadAttention.t)
  (query key value : T3) (mask : option (list (list (list (list bool)))))
  : unpack_exn + T2 * T2 :=
  match MultiHeadAttention.forward attention query key value mask with
  | Raise e => inl (Attention e)
  | Ok output => unpack2 output
  end.

End EncoderDecoder.

(** ** Sampling from the language model *)

Module Generation.
Import Torch.
Local Open Scope monad_scope.

Definition temperature : scalar := Finite 1.
Definition top_k : nat := 50.
Definition max_new_tokens : nat := 50.

(** [t.gather(-1, index)] on the one row of [t], for one index. *)
Definition gather {A} (t : list A) (index : nat) : res A :=
  match nth_error t index with
  | Some x => Ok x
  | None => Raise (RuntimeError "index out of bounds")
  end.

Section Sampling.

Variable G : Type.
Variable multinomial : list scalar -> M G nat.

(** The call [model(input_ids=generated_ids,
    attention_mask=attention_mask)] followed by [.logits[:, -1, :]], for
    the one sequence of the batch. *)
Variable model : list nat -> list Z -> res (list scalar).

(** [tokenizer.eos_token_id] *)
Variable eos_token_id : nat.

(** The body of the loop up to [next_token_id]. *)
Definition sample_next_token (generated_ids : list nat)
  (attention_mask : list Z) : M G nat :=
  next_token_logits <- lift (model generated_ids attention_mask) ;;
  let next_token_logits :=
    map (fun x => fdiv x temperature) next_token_logits in
  ' (topk_logits, topk_indices) <- lift (topk next_token_logits top_k) ;;
  let probs := softmax topk_logits in
  sampled_index <- multinomial probs ;;
  next_token_id <- lift (gather topk_indices sampled_index) ;;
  ret next_token_id.

(** [n] rounds of the loop, left at the first end-of-sequence token. *)
Fixpoint sampling_loop (n : nat) (generated_ids : list nat)
  (attention_mask : list Z) : M G (list nat * list Z) :=
  match n with
  | O => ret (generated_ids, attention_mask)
  | S n' =>
      next_token_id <- sample_next_token generated_ids attention_mask ;;
      let generated_ids := generated_ids ++ [next_token_id] in
      let attention_mask := attention_mask ++ [1%Z] in
      if next_token_id =? eos_token_id
      then ret (generated_ids, attention_mask)
      else sampling_loop n' generated_ids attention_mask
  end.

(** The cell: [generated_ids = input_ids.clone()], then the loop. *)
Definition generate (input_ids : list nat) (attention_mask : list Z)
  : M G (list nat * list Z) :=
  sampling_loop max_new_tokens input_ids attention_mask.

End Sampling.

End Generation.

(** * Properties *)

(** ** Lists and tensor elements *)

Module TorchFacts.
Import Torch.

Lemma zip_with_length {A B C} (f : A -> B -> C) (a : list A) (b : list B) :
  length (zip_with f a b) = Nat.min (length a) (length b).
Proof.
  revert b; induction a as [|x a IH]; intros [|y b]; simpl; auto.
Qed.

Lemma zip_with_nth {A B C} (f : A -> B -> C) (a : list A) (b : list B)
  (da : A) (db : B) (dc : C) (i : nat) :
  i < length a -> i < length b ->
  nth i (zip_with f a b) dc = f (nth i a da) (nth i b db).
Proof.
  revert b i; induction a as [|x a IH]; intros [|y b] [|i]; simpl;
    intros Ha Hb; try lia; auto.
  apply IH; lia.
Qed.

Lemma Rleb_true (a b : R) : Rleb a b = true <-> (a <= b)%R.
Proof. unfold Rleb; destruct (Rle_dec a b); split; intros; auto; discriminate. Qed.

Lemma Rltb_true (a b : R) : Rltb a b = true <-> (a < b)%R.
Proof. unfold Rltb; destruct (Rlt_dec a b); split; intros; auto; discriminate. Qed.

Lemma Reqb_true (a b : R) : Reqb a b = true <-> a = b.
Proof. unfold Reqb; destruct (Req_dec_T a b); split; intros; auto; discriminate. Qed.

Lemma Rleb_false (a b : R) : Rleb a b = false <-> (b < a)%R.
Proof.
  unfold Rleb; destruct (Rle_dec a b); split; intros; auto; try discriminate; lra.
Qed.

Lemma Rltb_false (a b : R) : Rltb a b = false <-> (b <= a)%R.
Proof.
  unfold Rltb; destruct (Rlt_dec a b); split; intros; auto; try discriminate; lra.
Qed.

Lemma Reqb_false (a b : R) : Reqb a b = false <-> a <> b.
Proof.
  unfold Reqb; destruct (Req_dec_T a b); split; intros; auto;
    try discriminate; contradiction.
Qed.

(** The maximum of finite elements is the real maximum. *)
Lemma fmax_finite (a b : R) : fmax (Finite a) (Finite b) = Finite (Rmax a b).
Proof.
  unfold fmax; simpl. unfold Rmax.
  destruct (Rleb b a) eqn:E.
  - apply Rleb_true in E. destruct (Rle_dec a b); auto. f_equal; lra.
  - apply Rleb_false in E. destruct (Rle_dec a b); auto. lra.
Qed.

Lemma fold_fmax_finite (rs : list R) (r : R) :
  fold_left fmax (map Finite rs) (Finite r) = Finite (fold_left Rmax rs r).
Proof.
  revert r; induction rs as [|x rs IH]; intros r; simpl; auto.
  rewrite fmax_finite. apply IH.
Qed.

Lemma fold_Rmax_ge_init (rs : list R) (r : R) : (r <= fold_left Rmax rs r)%R.
Proof.
  revert r; induction rs as [|x rs IH]; intros r; simpl; [lra|].
  eapply Rle_trans; [apply (Rmax_l r x) | apply IH].
Qed.

Lemma fold_Rmax_upper (rs : list R) (r x : R) :
  In x (r :: rs) -> (x <= fold_left Rmax rs r)%R.
Proof.
  revert r; induction rs as [|y rs IH]; intros r H; simpl in *.
  - destruct H as [H|[]]; subst; lra.
  - destruct H as [H|[H|H]]; subst.
    + eapply Rle_trans; [apply (Rmax_l x y) | apply fold_Rmax_ge_init].
    + eapply Rle_trans; [apply (Rmax_r r x) | apply fold_Rmax_ge_init].
    + apply IH; right; exact H.
Qed.

Lemma fold_Rmax_attained (rs : list R) (r : R) :
  In (fold_left Rmax rs r) (r :: rs).
Proof.
  revert r; induction rs as [|y rs IH]; intros r; simpl; [left; reflexivity|].
  destruct (IH (Rmax r y)) as [H|H].
  - rewrite <- H. unfold Rmax. destruct (Rle_dec r y); auto.
  - right; right; exact H.
Qed.

(** [torch.max] of a non-empty tensor of finite elements. *)
Lemma max_finite (rs : list R) :
  rs <> [] ->
  exists m, max (map Finite rs) = Ok (Finite m) /\ In m rs /\
            forall x, In x rs -> (x <= m)%R.
Proof.
  destruct rs as [|r rs]; [congruence|]; intros _.
  exists (fold_left Rmax rs r); simpl; repeat split.
  - f_equal; apply fold_fmax_finite.
  - apply fold_Rmax_attained.
  - intros x Hx; apply fold_Rmax_upper; exact Hx.
Qed.

Lemma max_nonempty (t : list scalar) :
  t <> [] -> exists m, max t = Ok m.
Proof. destruct t; [congruence|]; intros _; eexists; reflexivity. Qed.

End TorchFacts.

(** ** The contrastive score *)

Module ScoreFacts.
Import Torch TorchFacts ContrastiveDecoding Spec.

Lemma log_length (t : list scalar) : length (log t) = length t.
Proof. apply length_map. Qed.

Lemma ge_length (t : list scalar) (c : scalar) : length (ge t c) = length t.
Proof. apply length_map. Qed.

Lemma masked_fill_zip (c : scalar) (e a : list scalar) :
  zip_with (fun x (m : bool) => if m then NegInf else x)
    (zip_with (fun (cm : scalar * bool) (y : scalar) =>
                 if snd cm then fsub (fst cm) y else fst cm)
       (combine (log e) (ge e c)) (log a))
    (invert (ge e c))
  = zip_with (masked_score c) e a.
Proof.
  revert a; induction e as [|x e IH]; intros [|y a]; simpl; auto.
  rewrite IH. unfold masked_score. destruct (fge x c); reflexivity.
Qed.

(** [cd_score] in closed form. *)
Lemma cd_score_closed (e a : list scalar) (alpha m : scalar) :
  max e = Ok m -> length a = length e ->
  Adaptive.cd_score e a alpha = Ok (zip_with (masked_score (fmul alpha m)) e a).
Proof.
  intros Hm Hlen. unfold Adaptive.cd_score, Adaptive.calculate_vhead.
  rewrite Hm; simpl. unfold isub_at.
  rewrite ge_length, !log_length, Hlen, Nat.eqb_refl; simpl.
  unfold fill_at, invert.
  rewrite length_map, ge_length, zip_with_length, length_combine,
    ge_length, !log_length, Hlen, !Nat.min_id, Nat.eqb_refl; simpl.
  f_equal. apply masked_fill_zip.
Qed.

Lemma cd_score_plain_closed (e a : list scalar) :
  length a = length e ->
  Plain.plain_score e a = Ok (zip_with (fun x y => fsub (flog x) (flog y)) e a).
Proof.
  intros Hlen. unfold Plain.plain_score, sub.
  rewrite !log_length, Hlen, Nat.eqb_refl. f_equal.
  clear Hlen. revert a; induction e as [|x e IH]; intros [|y a]; simpl; auto.
  f_equal; apply IH.
Qed.

Lemma prob_dist_nonempty (p : list scalar) : prob_dist p -> p <> [].
Proof.
  intros (rs & -> & _ & Hsum) E. destruct rs; [|discriminate].
  simpl in Hsum; lra.
Qed.

(** C2: the adaptive score is [log expert - log amateur] where the expert
    probability reaches [alpha * max(expert_probs)] and minus infinity
    everywhere else. *)
Theorem cd_score_elementwise (expert_probs amateur_probs : list scalar)
  (alpha : scalar) :
  prob_dist expert_probs -> prob_dist amateur_probs ->
  length amateur_probs = length expert_probs ->
  exists m score,
    max expert_probs = Ok m /\
    Adaptive.cd_score expert_probs amateur_probs alpha = Ok score /\
    length score = length expert_probs /\
    forall i, i < length expert_probs ->
      nth i score NaN =
        if fge (nth i expert_probs NaN) (fmul alpha m)
        then fsub (flog (nth i expert_probs NaN)) (flog (nth i amateur_probs NaN))
        else NegInf.
Proof.
  intros He _ Hlen.
  destruct (max_nonempty expert_probs (prob_dist_nonempty _ He)) as [m Hm].
  exists m, (zip_with (masked_score (fmul alpha m)) expert_probs amateur_probs).
  split; [exact Hm|]. split; [apply cd_score_closed; assumption|].
  split.
  - rewrite zip_with_length, Hlen. apply Nat.min_id.
  - intros i Hi.
    rewrite (zip_with_nth _ _ _ NaN NaN NaN) by lia. reflexivity.
Qed.

Lemma zip_with_ext_in {A B C} (f g : A -> B -> C) (a : list A) (b : list B) :
  (forall x y, In x a -> f x y = g x y) -> zip_with f a b = zip_with g a b.
Proof.
  revert b; induction a as [|x a IH]; intros [|y b] H; simpl; auto.
  f_equal; [apply H; left; reflexivity | apply IH; intros; apply H; right; assumption].
Qed.

(** With [alpha = 0] every entry of a distribution passes the mask. *)
Lemma mask_alpha_zero (rs : list R) (m r : R) :
  Forall (fun r => (0 <= r)%R) rs -> In r rs ->
  fge (Finite r) (fmul (Finite 0) (Finite m)) = true.
Proof.
  intros Hpos Hin. simpl. apply Rleb_true.
  rewrite Forall_forall in Hpos. specialize (Hpos r Hin). lra.
Qed.

(** C5: with [alpha = 0] the mask is true everywhere and the adaptive
    score is the score of the decoder without adaptive plausibility,
    [log expert - log amateur] at every index. *)
Theorem alpha_zero_degenerates (expert_probs amateur_probs : list scalar) :
  prob_dist expert_probs -> prob_dist amateur_probs ->
  length amateur_probs = length expert_probs ->
  Adaptive.calculate_vhead expert_probs (Finite 0)
    = Ok (repeat true (length expert_probs)) /\
  Adaptive.cd_score expert_probs amateur_probs (Finite 0)
    = Plain.plain_score expert_probs amateur_probs /\
  exists score,
    Adaptive.cd_score expert_probs amateur_probs (Finite 0) = Ok score /\
    length score = length expert_probs /\
    forall i, i < length expert_probs ->
      nth i score NaN =
        fsub (flog (nth i expert_probs NaN)) (flog (nth i amateur_probs NaN)).
Proof.
  intros He _ Hlen.
  pose proof (prob_dist_nonempty _ He) as Hne.
  destruct He as (rs & -> & Hpos & Hsum).
  assert (Hrs : rs <> []) by (intros ->; apply Hne; reflexivity).
  destruct (max_finite rs Hrs) as (m & Hm & _ & _).
  assert (Hall : forall x y, In x (map Finite rs) ->
            masked_score (fmul (Finite 0) (Finite m)) x y = fsub (flog x) (flog y)).
  { intros x y Hin. apply in_map_iff in Hin. destruct Hin as (r & <- & Hr).
    unfold masked_score. rewrite (mask_alpha_zero rs m r Hpos Hr). reflexivity. }
  assert (Hclosed : Adaptive.cd_score (map Finite rs) amateur_probs (Finite 0)
            = Ok (zip_with (fun x y => fsub (flog x) (flog y))
                    (map Finite rs) amateur_probs)).
  { rewrite (cd_score_closed _ _ _ _ Hm Hlen). f_equal.
    apply zip_with_ext_in. exact Hall. }
  split; [|split].
  - unfold Adaptive.calculate_vhead. rewrite Hm; simpl. f_equal.
    unfold ge. rewrite length_map. clear - Hpos.
    induction rs as [|r rs IH]; simpl; auto.
    inversion Hpos; subst. f_equal; [|apply IH; assumption].
    apply Rleb_true. lra.
  - rewrite Hclosed. symmetry. apply cd_score_plain_closed. exact Hlen.
  - eexists. split; [exact Hclosed|]. split.
    + rewrite zip_with_length, Hlen. apply Nat.min_id.
    + intros i Hi. rewrite (zip_with_nth _ _ _ NaN NaN NaN) by lia. reflexivity.
Qed.

(** C6: an index that carries the maximum expert probability passes the
    mask of [calculate_vhead], and there is such an index. *)
Theorem argmax_survives_mask (expert_probs : list scalar) (alpha : R) :
  prob_dist expert_probs -> (0 <= alpha <= 1)%R ->
  exists m mask,
    max expert_probs = Ok m /\
    Adaptive.calculate_vhead expert_probs (Finite alpha) = Ok mask /\
    length mask = length expert_probs /\
    (forall i, i < length expert_probs -> nth i expert_probs NaN = m ->
               nth i mask false = true) /\
    (exists i, i < length expert_probs /\ nth i expert_probs NaN = m /\
               nth i mask false = true).
Proof.
  intros He Ha.
  pose proof (prob_dist_nonempty _ He) as Hne.
  destruct He as (rs & -> & Hpos & Hsum).
  assert (Hrs : rs <> []) by (intros ->; apply Hne; reflexivity).
  destruct (max_finite rs Hrs) as (m & Hm & Hin & Hub).
  exists (Finite m), (ge (map Finite rs) (fmul (Finite alpha) (Finite m))).
  assert (Hm0 : (0 <= m)%R).
  { rewrite Forall_forall in Hpos. apply Hpos. exact Hin. }
  assert (Hself : fge (Finite m) (fmul (Finite alpha) (Finite m)) = true).
  { simpl. apply Rleb_true. nra. }
  assert (Hkey : forall i, i < length (map Finite rs) ->
            nth i (map Finite rs) NaN = Finite m ->
            nth i (ge (map Finite rs) (fmul (Finite alpha) (Finite m))) false = true).
  { intros i Hi Hnth. unfold ge.
    rewrite (nth_indep _ false (fge NaN (fmul (Finite alpha) (Finite m))))
      by (rewrite length_map; exact Hi).
    rewrite (map_nth (fun x => fge x (fmul (Finite alpha) (Finite m)))).
    rewrite Hnth. exact Hself. }
  split; [exact Hm|]. split.
  { unfold Adaptive.calculate_vhead. rewrite Hm. reflexivity. }
  split; [apply ge_length|]. split; [exact Hkey|].
  destruct (In_nth _ _ 0%R Hin) as (i & Hi & Hnth).
  exists i.
  assert (Hi' : i < length (map Finite rs)) by (rewrite length_map; exact Hi).
  assert (Hn : nth i (map Finite rs) NaN = Finite m).
  { rewrite (nth_indep _ NaN (Finite 0%R)) by exact Hi'.
    rewrite (map_nth Finite). rewrite Hnth. reflexivity. }
  split; [exact Hi'|]. split; [exact Hn|]. apply Hkey; assumption.
Qed.

End ScoreFacts.

(** ** [torch.topk] *)

Module TopkFacts.
Import Torch TorchFacts Spec.

Ltac order_cases :=
  repeat match goal with
         | x : scalar |- _ => destruct x
         end;
  simpl in *; try reflexivity; try discriminate;
  repeat match goal with
         | H : Rltb _ _ = true |- _ => apply Rltb_true in H
         | H : Rltb _ _ = false |- _ => apply Rltb_false in H
         | |- Rltb _ _ = true => apply Rltb_true
         | |- Rltb _ _ = false => apply Rltb_false
         end;
  try lra.

Lemma topk_gt_asym (x y : scalar) : topk_gt x y = true -> topk_gt y x = false.
Proof. unfold topk_gt; intros H; order_cases. Qed.

Lemma topk_gt_neg_trans (x y z : scalar) :
  topk_gt y x = false -> topk_gt z y = false -> topk_gt z x = false.
Proof. unfold topk_gt; intros H1 H2; order_cases. Qed.

Lemma before_trans (p q r : scalar * nat) : before p q -> before q r -> before p r.
Proof. unfold before; intros; eapply topk_gt_neg_trans; eauto. Qed.

Lemma insert_desc_perm (p : scalar * nat) (l : list (scalar * nat)) :
  Permutation (insert_desc p l) (p :: l).
Proof.
  induction l as [|q l IH]; simpl; auto.
  destruct (topk_gt (fst q) (fst p)); auto.
  rewrite IH. apply perm_swap.
Qed.

Lemma sort_desc_perm (l : list (scalar * nat)) : Permutation (sort_desc l) l.
Proof.
  induction l as [|p l IH]; simpl; auto.
  rewrite insert_desc_perm. auto.
Qed.

Lemma insert_desc_sorted (p : scalar * nat) (l : list (scalar * nat)) :
  StronglySorted before l -> StronglySorted before (insert_desc p l).
Proof.
  induction 1 as [|q l Hs IH Hall]; simpl.
  - constructor; [constructor | constructor].
  - destruct (topk_gt (fst q) (fst p)) eqn:E.
    + constructor; [exact IH|].
      eapply Permutation_Forall; [symmetry; apply insert_desc_perm|].
      constructor; [|exact Hall].
      unfold before. apply topk_gt_asym. exact E.
    + constructor; [constructor; assumption|].
      constructor; [exact E|].
      eapply Forall_impl; [|exact Hall].
      intros r Hr. eapply before_trans; [exact E | exact Hr].
Qed.

Lemma sort_desc_sorted (l : list (scalar * nat)) :
  StronglySorted before (sort_desc l).
Proof.
  induction l as [|p l IH]; simpl; [constructor|].
  apply insert_desc_sorted; exact IH.
Qed.

(** The pairs to sort: every value with its position. *)
Lemma combine_seq_in (t : list scalar) (a : nat) (v : scalar) (i : nat) :
  In (v, i) (combine t (seq a (length t))) ->
  a <= i /\ nth_error t (i - a) = Some v.
Proof.
  revert a; induction t as [|x t IH]; intros a H; simpl in *; [contradiction|].
  destruct H as [H|H].
  - inversion H; subst. rewrite Nat.sub_diag. split; [lia | reflexivity].
  - apply IH in H. destruct H as [Hle Hn]. split; [lia|].
    replace (i - a) with (S (i - S a)) by lia. exact Hn.
Qed.

Lemma combine_seq_snd (t : list scalar) (a : nat) :
  map snd (combine t (seq a (length t))) = seq a (length t).
Proof.
  revert a; induction t as [|x t IH]; intros a; simpl; auto.
  f_equal; apply IH.
Qed.

Lemma combine_seq_fst (t : list scalar) (a : nat) :
  map fst (combine t (seq a (length t))) = t.
Proof.
  revert a; induction t as [|x t IH]; intros a; simpl; auto.
  f_equal; apply IH.
Qed.

Lemma ranked_perm (t : list scalar) :
  Permutation (ranked t) (combine t (seq 0 (length t))).
Proof. apply sort_desc_perm. Qed.

Lemma ranked_length (t : list scalar) : length (ranked t) = length t.
Proof.
  rewrite (Permutation_length (ranked_perm t)), length_combine, length_seq.
  apply Nat.min_id.
Qed.

Lemma ranked_in (t : list scalar) (v : scalar) (i : nat) :
  In (v, i) (ranked t) -> nth_error t i = Some v.
Proof.
  intros H. apply (Permutation_in _ (ranked_perm t)) in H.
  apply combine_seq_in in H. rewrite Nat.sub_0_r in H. apply H.
Qed.

Lemma ranked_indices (t : list scalar) :
  Permutation (map snd (ranked t)) (seq 0 (length t)).
Proof.
  rewrite <- (combine_seq_snd t 0). apply Permutation_map, ranked_perm.
Qed.

Lemma ranked_values (t : list scalar) : Permutation (map fst (ranked t)) t.
Proof.
  rewrite <- (combine_seq_fst t 0) at 2. apply Permutation_map, ranked_perm.
Qed.

Lemma topk_ok (t : list scalar) (k : nat) :
  k <= length t ->
  topk t k = Ok (map fst (firstn k (ranked t)), map snd (firstn k (ranked t))).
Proof.
  intros H. unfold topk. apply Nat.leb_le in H. rewrite H. reflexivity.
Qed.

Lemma topk_raises (t : list scalar) (k : nat) :
  length t < k ->
  topk t k = Raise (RuntimeError "selected index k out of range").
Proof.
  intros H. unfold topk. apply Nat.leb_gt in H. rewrite H. reflexivity.
Qed.

End TopkFacts.

(** ** Softmax and the draw *)

Module SamplingFacts.
Import Torch TorchFacts Spec TopkFacts ContrastiveDecoding.

Lemma softmax_unfold (t : list scalar) (m : scalar) :
  max t = Ok m ->
  softmax t =
    map (fun x => fdiv x (sum (map (fun x => fexp (fsub x m)) t)))
      (map (fun x => fexp (fsub x m)) t).
Proof. intros H. unfold softmax. rewrite H. reflexivity. Qed.

(** The weight of an excluded entry: zero, or NaN when the whole row is
    degenerate; never positive. *)
Lemma fdiv_zero (s : scalar) :
  fdiv (Finite 0) s = Finite 0 \/ fdiv (Finite 0) s = NaN.
Proof.
  destruct s as [| | |b]; simpl; auto.
  destruct (Reqb b 0).
  - rewrite (proj2 (Reqb_true 0 0) eq_refl). auto.
  - left; f_equal; unfold Rdiv; apply Rmult_0_l.
Qed.

Lemma weight_of_neginf (m s : scalar) :
  fdiv (fexp (fsub NegInf m)) s = Finite 0 \/
  fdiv (fexp (fsub NegInf m)) s = NaN.
Proof.
  destruct m; simpl; auto; apply fdiv_zero.
Qed.

Lemma softmax_neginf (t : list scalar) (j : nat) :
  nth_error t j = Some NegInf ->
  nth_error (softmax t) j = Some (Finite 0) \/
  nth_error (softmax t) j = Some NaN.
Proof.
  intros H.
  assert (Hne : t <> []) by (intros ->; destruct j; discriminate).
  destruct (max_nonempty t Hne) as [m Hm].
  rewrite (softmax_unfold t m Hm), map_map.
  rewrite nth_error_map, H. cbv beta. unfold option_map.
  destruct (weight_of_neginf m (sum (map (fun x => fexp (fsub x m)) t)))
    as [E|E]; rewrite E; auto.
Qed.

Lemma softmax_length (t : list scalar) : length (softmax t) = length t.
Proof.
  unfold softmax. destruct t as [|x t]; [reflexivity|].
  simpl. rewrite !length_map. reflexivity.
Qed.

Section Draw.

Variable G : Type.
Variable multinomial : list scalar -> M G nat.
Hypothesis Hsupport : multinomial_support multinomial.

(** A token that [sample_topk] returns is an index of the score tensor
    whose score is not minus infinity. *)
Lemma sample_topk_not_excluded (scores : list scalar) (g g' : G)
  (tok : token) :
  sample_topk G multinomial scores g = Ok (tok, g') ->
  exists v, nth_error scores tok = Some v /\ v <> NegInf.
Proof.
  unfold sample_topk, bind, lift, ret.
  destruct (le_lt_dec k (length scores)) as [Hk|Hk];
    [|rewrite (topk_raises _ _ Hk); discriminate].
  rewrite (topk_ok _ _ Hk).
  remember (firstn k (ranked scores)) as top eqn:Etop.
  cbv beta iota.
  destruct (multinomial (softmax (map fst top)) g) as [[j g1]|e] eqn:Em;
    [|discriminate].
  unfold getitem. rewrite nth_error_map.
  destruct (nth_error top j) as [[v i]|] eqn:Ep; [|discriminate].
  cbn [option_map snd]. intros H. injection H as Htok Hg. subst i g1.
  exists v. split.
  - apply ranked_in. apply nth_error_In in Ep. subst top.
    rewrite <- (firstn_skipn k (ranked scores)). apply in_or_app; left; exact Ep.
  - intros ->.
    destruct (Hsupport _ _ _ _ Em) as (r & Hw & Hr).
    assert (Hv : nth_error (map fst top) j = Some NegInf).
    { rewrite nth_error_map, Ep. reflexivity. }
    destruct (softmax_neginf _ _ Hv) as [E|E]; rewrite E in Hw;
      inversion Hw; subst; lra.
Qed.

End Draw.

End SamplingFacts.

(** ** The decoding loop *)

Module LoopFacts.
Import Torch TorchFacts Spec TopkFacts ScoreFacts SamplingFacts ContrastiveDecoding.

(** A score tensor that [cd_score] returns has the closed form. *)
Lemma cd_score_inv (e a scores : list scalar) (alpha : scalar) :
  Adaptive.cd_score e a alpha = Ok scores ->
  exists m, max e = Ok m /\ length a = length e /\
            scores = zip_with (masked_score (fmul alpha m)) e a.
Proof.
  intros H.
  destruct (max e) as [m|err] eqn:Hm.
  2:{ unfold Adaptive.cd_score, Adaptive.calculate_vhead in H.
      rewrite Hm in H. discriminate. }
  destruct (Nat.eq_dec (length a) (length e)) as [Hlen|Hlen].
  - exists m. repeat split; auto.
    rewrite (cd_score_closed _ _ _ _ Hm Hlen) in H. congruence.
  - exfalso. unfold Adaptive.cd_score, Adaptive.calculate_vhead in H.
    rewrite Hm in H. simpl in H. unfold isub_at in H.
    rewrite ge_length, !log_length, Nat.eqb_refl in H. simpl in H.
    destruct (length e =? length a) eqn:E.
    + apply Nat.eqb_eq in E. congruence.
    + discriminate.
Qed.

Lemma masked_score_not_excluded (c x y : scalar) :
  masked_score c x y <> NegInf -> fge x c = true.
Proof. unfold masked_score. destruct (fge x c); congruence. Qed.

Lemma zip_with_nth_error {A B C} (f : A -> B -> C) (a : list A) (b : list B)
  (i : nat) (z : C) :
  nth_error (zip_with f a b) i = Some z ->
  exists x y, nth_error a i = Some x /\ nth_error b i = Some y /\ z = f x y.
Proof.
  revert b i; induction a as [|x a IH]; intros [|y b] [|i]; simpl;
    try discriminate.
  - intros H; inversion H; eauto.
  - apply IH.
Qed.

Section Runs.

Variable G : Type.
Variable multinomial : list scalar -> M G nat.
Variable tokenizer : Tokenizer.
Hypothesis Hsupport : multinomial_support multinomial.

(** The token of one step passes the mask of that step. *)
Lemma next_token_plausible (expert_model amateur_model : model)
  (alpha : scalar) (enc : encoding) (g g' : G) (tok : token) :
  Adaptive.next_token G multinomial expert_model amateur_model alpha enc g
    = Ok (tok, g') ->
  plausible expert_model alpha enc tok.
Proof.
  unfold Adaptive.next_token, bind, lift.
  destruct (expert_model enc) as [el|e] eqn:Ee; [|discriminate].
  destruct (amateur_model enc) as [al|e] eqn:Ea; [|discriminate].
  destruct (Adaptive.cd_score (softmax el) (softmax al) alpha)
    as [scores|e] eqn:Es; [|discriminate].
  intros H.
  destruct (sample_topk_not_excluded G multinomial Hsupport _ _ _ _ H)
    as (v & Hv & Hne).
  destruct (cd_score_inv _ _ _ _ Es) as (m & Hm & Hlen & ->).
  destruct (zip_with_nth_error _ _ _ _ _ Hv) as (x & y & Hx & Hy & ->).
  apply masked_score_not_excluded in Hne.
  exists el, m, (ge (softmax el) (fmul alpha m)).
  split; [exact Ee|]. split; [exact Hm|]. split.
  { unfold Adaptive.calculate_vhead. rewrite Hm. reflexivity. }
  split.
  - unfold ge. rewrite nth_error_map, Hx. simpl. rewrite Hne. reflexivity.
  - rewrite (nth_error_nth _ _ NaN Hx). exact Hne.
Qed.

Lemma encoding_at_shift (enc0 : encoding) (prompt gen : list token)
  (t : token) (i : nat) :
  encoding_at tokenizer enc0 prompt (t :: gen) (S i) =
  encoding_at tokenizer (encode tokenizer (decode tokenizer (prompt ++ [t])))
    (prompt ++ [t]) gen i.
Proof.
  destruct i; simpl.
  - reflexivity.
  - rewrite <- app_assoc. reflexivity.
Qed.

(** C3: in a run of the adaptive decoding loop every appended token
    passes the plausibility mask of its step. *)
Theorem sampled_tokens_plausible (expert_model amateur_model : model)
  (alpha : scalar) (num_tokens : nat) (prompt : list token) (enc : encoding)
  (g g' : G) (toks : list token) :
  Adaptive.loop G multinomial tokenizer expert_model amateur_model alpha
    num_tokens prompt enc g = Ok (toks, g') ->
  exists gen,
    toks = prompt ++ gen /\ length gen = num_tokens /\
    forall i, i < num_tokens ->
      plausible expert_model alpha
        (encoding_at tokenizer enc prompt gen i) (nth i gen 0).
Proof.
  revert prompt enc g.
  induction num_tokens as [|n IH]; intros prompt enc g; simpl.
  - unfold ret. intros H; inversion H; subst. exists [].
    rewrite app_nil_r. repeat split; auto. intros i Hi; lia.
  - unfold bind at 1.
    destruct (Adaptive.next_token G multinomial expert_model amateur_model
                alpha enc g) as [[t g1]|e] eqn:Et; [|discriminate].
    intros H. apply IH in H. destruct H as (gen & -> & Hlen & Hall).
    exists (t :: gen). rewrite <- app_assoc. simpl.
    split; [reflexivity|]. split; [lia|].
    intros [|i] Hi.
    + simpl. eapply next_token_plausible; exact Et.
    + rewrite encoding_at_shift. simpl. apply Hall. lia.
Qed.

End Runs.

End LoopFacts.

(** ** Softmax of scores *)

Module SoftmaxFacts.
Import Torch TorchFacts Spec SamplingFacts.

Lemma fold_fadd_finite (rs : list R) (a : R) :
  fold_left fadd (map Finite rs) (Finite a)
  = Finite (a + fold_right Rplus 0%R rs).
Proof.
  revert a; induction rs as [|r rs IH]; intros a; simpl.
  - f_equal; lra.
  - rewrite IH. f_equal; lra.
Qed.

Lemma sum_finite (rs : list R) :
  sum (map Finite rs) = Finite (fold_right Rplus 0%R rs).
Proof. unfold sum. rewrite fold_fadd_finite. f_equal; lra. Qed.

Lemma sum_nonneg (rs : list R) :
  Forall (fun r => (0 <= r)%R) rs -> (0 <= fold_right Rplus 0%R rs)%R.
Proof. induction 1; simpl; lra. Qed.

Lemma sum_pos (rs : list R) (r : R) :
  Forall (fun r => (0 <= r)%R) rs -> In r rs -> (0 < r)%R ->
  (0 < fold_right Rplus 0%R rs)%R.
Proof.
  induction 1 as [|x rs Hx Hall IH]; simpl; [contradiction|].
  intros [->|Hin] Hr.
  - pose proof (sum_nonneg rs Hall). lra.
  - specialize (IH Hin Hr). lra.
Qed.

(** The running maximum over scores. *)
Lemma fold_fmax_scores (t : list scalar) (acc : scalar) :
  Forall is_score t -> is_score acc ->
  (fold_left fmax t acc = NegInf /\ acc = NegInf /\
   forall r, ~ In (Finite r) t) \/
  (exists m, fold_left fmax t acc = Finite m /\
             (forall r, acc = Finite r -> (r <= m)%R) /\
             (forall r, In (Finite r) t -> (r <= m)%R)).
Proof.
  intros Ht; revert acc; induction Ht as [|x t Hx Ht IH]; intros acc Hacc; simpl.
  - destruct Hacc as [->|[r ->]].
    + left; repeat split; auto.
    + right; exists r; repeat split; intros; try contradiction.
      inversion H; lra.
  - assert (Hstep : is_score (fmax acc x)).
    { destruct Hacc as [->|[a ->]], Hx as [->|[b ->]]; unfold fmax; simpl.
      - left; reflexivity.
      - right; eauto.
      - right; eauto.
      - destruct (Rleb b a); right; eauto. }
    destruct (IH _ Hstep) as [(Hres & Hacc' & Hnone)|(m & Hres & Hacc' & Hin)].
    + left. split; [exact Hres|].
      destruct Hacc as [->|[a ->]], Hx as [->|[b ->]]; unfold fmax in Hacc';
        simpl in Hacc'; try discriminate.
      * split; [reflexivity|]. intros r [E|E]; [discriminate | eapply Hnone; eauto].
      * destruct (Rleb b a); discriminate.
    + right. exists m. split; [exact Hres|].
      destruct Hacc as [->|[a ->]], Hx as [->|[b ->]]; unfold fmax in Hacc';
        simpl in Hacc'.
      * split; [intros r E; discriminate|].
        intros r [E|E]; [discriminate | auto].
      * split; [intros r E; discriminate|].
        intros r [E|E]; [inversion E; subst; auto | auto].
      * split; [intros r E; inversion E; subst; auto|].
        intros r [E|E]; [discriminate | auto].
      * destruct (Rleb b a) eqn:Eba.
        -- apply Rleb_true in Eba.
           pose proof (Hacc' a eq_refl).
           split; [intros r E; inversion E; subst; auto|].
           intros r [E|E]; [inversion E; subst; lra | auto].
        -- apply Rleb_false in Eba.
           pose proof (Hacc' b eq_refl).
           split; [intros r E; inversion E; subst; lra|].
           intros r [E|E]; [inversion E; subst; lra | auto].
Qed.

Lemma max_scores (t : list scalar) (r : R) :
  Forall is_score t -> In (Finite r) t ->
  exists m, max t = Ok (Finite m).
Proof.
  intros Ht Hin. destruct t as [|x t]; [contradiction|].
  inversion Ht as [|? ? Hx Ht']; subst. simpl.
  destruct (fold_fmax_scores t x Ht' Hx) as [(Hres & -> & Hnone)|(m & Hres & _)].
  - destruct Hin as [E|E]; [discriminate | exfalso; eapply Hnone; eauto].
  - exists m. rewrite Hres. reflexivity.
Qed.

Lemma shifted_exp_correct (m : R) (x : scalar) :
  is_score x -> fexp (fsub x (Finite m)) = Finite (shifted_exp m x).
Proof. intros [->|[r ->]]; reflexivity. Qed.

Lemma shifted_exp_nonneg (m : R) (x : scalar) : (0 <= shifted_exp m x)%R.
Proof.
  destruct x; simpl; try lra. left; apply exp_pos.
Qed.

(** The softmax of a row of scores with at least one finite entry, as real
    numbers. *)
Lemma softmax_scores (t : list scalar) (r : R) :
  Forall is_score t -> In (Finite r) t ->
  exists m S, (0 < S)%R /\
    S = fold_right Rplus 0%R (map (shifted_exp m) t) /\
    softmax t = map (fun x => Finite (shifted_exp m x / S)) t.
Proof.
  intros Ht Hin. destruct (max_scores t r Ht Hin) as [m Hm].
  exists m, (fold_right Rplus 0%R (map (shifted_exp m) t)).
  assert (HS : (0 < fold_right Rplus 0%R (map (shifted_exp m) t))%R).
  { apply (sum_pos _ (shifted_exp m (Finite r))).
    - apply Forall_forall. intros x Hx. apply in_map_iff in Hx.
      destruct Hx as (y & <- & _). apply shifted_exp_nonneg.
    - apply in_map. exact Hin.
    - simpl. apply exp_pos. }
  split; [exact HS|]. split; [reflexivity|].
  rewrite (softmax_unfold t _ Hm).
  assert (He : map (fun x => fexp (fsub x (Finite m))) t
               = map Finite (map (shifted_exp m) t)).
  { rewrite map_map. apply map_ext_in. intros x Hx.
    apply shifted_exp_correct. rewrite Forall_forall in Ht. auto. }
  rewrite He, sum_finite, !map_map. apply map_ext. intros x. simpl.
  rewrite (proj2 (Reqb_false _ 0)) by lra. reflexivity.
Qed.

Lemma div_sum (rs : list R) (S : R) :
  fold_right Rplus 0%R (map (fun r => r / S)%R rs)
  = (fold_right Rplus 0%R rs / S)%R.
Proof.
  induction rs as [|r rs IH]; simpl; [lra|]. rewrite IH. lra.
Qed.

(** Such a softmax is a valid weight tensor for [torch.multinomial]. *)
Lemma softmax_scores_valid (t : list scalar) (r : R) :
  Forall is_score t -> In (Finite r) t -> valid_weights (softmax t).
Proof.
  intros Ht Hin.
  destruct (softmax_scores t r Ht Hin) as (m & S & HS & HSdef & Hsm).
  exists (map (fun x => shifted_exp m x / S)%R t). split; [|split].
  - rewrite Hsm, map_map. reflexivity.
  - apply Forall_forall. intros y Hy. apply in_map_iff in Hy.
    destruct Hy as (x & <- & _).
    apply Rmult_le_pos; [apply shifted_exp_nonneg|].
    left; apply Rinv_0_lt_compat; exact HS.
  - rewrite <- (map_map (shifted_exp m) (fun r => r / S)%R), div_sum, <- HSdef.
    unfold Rdiv. rewrite Rinv_r by lra. lra.
Qed.

(** The softmax of finite logits: positive probabilities. *)
Lemma softmax_finite (ls : list R) :
  ls <> [] ->
  exists ps, softmax (map Finite ls) = map Finite ps /\
             length ps = length ls /\
             Forall (fun p => (0 < p)%R) ps.
Proof.
  intros Hne. destruct ls as [|l ls]; [congruence|].
  assert (Ht : Forall is_score (map Finite (l :: ls))).
  { apply Forall_forall. intros x Hx. apply in_map_iff in Hx.
    destruct Hx as (y & <- & _). right; eauto. }
  destruct (softmax_scores _ l Ht (or_introl eq_refl)) as (m & S & HS & _ & Hsm).
  exists (map (fun r => exp (r + - m) / S)%R (l :: ls)). split; [|split].
  - rewrite Hsm, !map_map. reflexivity.
  - apply length_map.
  - apply Forall_forall. intros y Hy. apply in_map_iff in Hy.
    destruct Hy as (x & <- & _).
    apply Rmult_lt_0_compat; [apply exp_pos|].
    apply Rinv_0_lt_compat; exact HS.
Qed.

End SoftmaxFacts.

(** ** Runs that complete *)

Module TotalityFacts.
Import Torch TorchFacts Spec TopkFacts ScoreFacts SamplingFacts SoftmaxFacts
  LoopFacts ContrastiveDecoding.

Lemma zip_with_in {A B C} (f : A -> B -> C) (a : list A) (b : list B) (z : C) :
  In z (zip_with f a b) -> exists x y, In x a /\ In y b /\ z = f x y.
Proof.
  revert b; induction a as [|x a IH]; intros [|y b]; simpl; try contradiction.
  intros [<-|H].
  - exists x, y; auto.
  - destruct (IH _ H) as (x' & y' & ? & ? & ?). exists x', y'; auto.
Qed.

Lemma zip_with_nth_error_some {A B C} (f : A -> B -> C) (a : list A)
  (b : list B) (i : nat) (x : A) (y : B) :
  nth_error a i = Some x -> nth_error b i = Some y ->
  nth_error (zip_with f a b) i = Some (f x y).
Proof.
  revert b i; induction a as [|x' a IH]; intros [|y' b] [|i]; simpl;
    try discriminate.
  - intros H1 H2; inversion H1; inversion H2; reflexivity.
  - apply IH.
Qed.

(** The best entry of a score tensor with a finite entry is finite. *)
Lemma ranked_head_finite (t : list scalar) (r : R) :
  Forall is_score t -> In (Finite r) t ->
  exists p rest m, ranked t = p :: rest /\ fst p = Finite m.
Proof.
  intros Ht Hin.
  pose proof (ranked_values t) as Hperm.
  pose proof (sort_desc_sorted (combine t (seq 0 (length t)))) as Hsorted.
  fold (ranked t) in Hsorted.
  assert (Hin' : In (Finite r) (map fst (ranked t))).
  { eapply Permutation_in; [symmetry; exact Hperm | exact Hin]. }
  assert (Ht' : Forall is_score (map fst (ranked t))).
  { eapply Permutation_Forall; [symmetry; exact Hperm | exact Ht]. }
  destruct (ranked t) as [|p rest]; [contradiction|].
  inversion Hsorted as [|? ? _ Hall]; subst.
  inversion Ht' as [|? ? Hp _]; subst.
  destruct Hp as [Hp|[m Hp]]; [|exists p, rest, m; auto].
  exfalso. destruct Hin' as [E|E]; [congruence|].
  apply in_map_iff in E. destruct E as (q & Hq & Hqin).
  rewrite Forall_forall in Hall. specialize (Hall q Hqin).
  unfold before in Hall. rewrite Hq, Hp in Hall. discriminate.
Qed.

Lemma firstn_ranked_scores (t : list scalar) (n : nat) :
  Forall is_score t -> Forall is_score (map fst (firstn n (ranked t))).
Proof.
  intros Ht. apply Forall_forall. intros v Hv.
  apply in_map_iff in Hv. destruct Hv as ([v' i] & <- & Hin).
  assert (Hin' : In (v', i) (ranked t)).
  { rewrite <- (firstn_skipn n (ranked t)). apply in_or_app; left; exact Hin. }
  apply ranked_in, nth_error_In in Hin'.
  rewrite Forall_forall in Ht. auto.
Qed.

Section Draw.

Variable G : Type.
Variable multinomial : list scalar -> M G nat.
Hypothesis Hsupport : multinomial_support multinomial.
Hypothesis Htotal : multinomial_total multinomial.

(** Truncated sampling succeeds on a score tensor of at least [k] entries
    one of which is finite. *)
Lemma sample_topk_total (scores : list scalar) (r : R) (g : G) :
  Forall is_score scores -> In (Finite r) scores -> k <= length scores ->
  exists tok g', sample_topk G multinomial scores g = Ok (tok, g').
Proof.
  intros Hs Hin Hk.
  unfold sample_topk, bind, lift, ret.
  rewrite (topk_ok _ _ Hk).
  destruct (ranked_head_finite scores r Hs Hin) as (p & rest & m & Hr & Hp).
  pose proof (firstn_ranked_scores scores k Hs) as Hvals.
  assert (Hhead : In (Finite m) (map fst (firstn k (ranked scores)))).
  { rewrite Hr. change k with (S 49). rewrite firstn_cons. left; exact Hp. }
  remember (firstn k (ranked scores)) as top eqn:Etop.
  cbv beta iota.
  destruct (Htotal (softmax (map fst top)) g
              (softmax_scores_valid _ m Hvals Hhead)) as (j & g' & Hj).
  rewrite Hj.
  destruct (Hsupport _ _ _ _ Hj) as (w & Hw & _).
  assert (Hlt : j < length top).
  { assert (H : nth_error (softmax (map fst top)) j <> None) by congruence.
    apply nth_error_Some in H.
    rewrite softmax_length, length_map in H. exact H. }
  unfold getitem. rewrite nth_error_map.
  destruct (nth_error top j) as [[v i]|] eqn:Ep.
  - exists i, g'. reflexivity.
  - apply nth_error_None in Ep. lia.
Qed.

End Draw.

End TotalityFacts.

Module RunFacts.
Import Torch TorchFacts Spec TopkFacts ScoreFacts SamplingFacts SoftmaxFacts
  LoopFacts TotalityFacts ContrastiveDecoding.

Lemma flog_pos (p : R) : (0 < p)%R -> flog (Finite p) = Finite (ln p).
Proof. intros H. simpl. rewrite (proj2 (Rltb_true 0 p) H). reflexivity. Qed.

Lemma in_map_finite_pos (ps : list R) (x : scalar) :
  Forall (fun p => (0 < p)%R) ps -> In x (map Finite ps) ->
  exists p, x = Finite p /\ (0 < p)%R.
Proof.
  intros Hall Hin. apply in_map_iff in Hin. destruct Hin as (p & <- & Hp).
  rewrite Forall_forall in Hall. eauto.
Qed.

(** The adaptive scores of positive probabilities. *)
Lemma adaptive_scores_shape (pe pa : list R) (a pm : R) :
  Forall (fun p => (0 < p)%R) pe -> Forall (fun p => (0 < p)%R) pa ->
  length pa = length pe -> In pm pe -> (a <= 1)%R ->
  let scores := zip_with (masked_score (Finite (a * pm)))
                  (map Finite pe) (map Finite pa) in
  Forall is_score scores /\ (exists r, In (Finite r) scores) /\
  length scores = length pe.
Proof.
  intros Hpe Hpa Hlen Hin Ha scores. subst scores. split; [|split].
  - apply Forall_forall. intros z Hz.
    destruct (zip_with_in _ _ _ _ Hz) as (x & y & Hx & Hy & ->).
    destruct (in_map_finite_pos _ _ Hpe Hx) as (p & -> & Hp).
    destruct (in_map_finite_pos _ _ Hpa Hy) as (q & -> & Hq).
    unfold masked_score. destruct (fge _ _); [|left; reflexivity].
    rewrite !flog_pos by assumption. right; eexists; reflexivity.
  - destruct (In_nth _ _ 0%R Hin) as (i & Hi & Hnth).
    assert (Hx : nth_error (map Finite pe) i = Some (Finite pm)).
    { rewrite nth_error_map, (nth_error_nth' _ 0%R Hi), Hnth. reflexivity. }
    assert (Hi' : i < length pa) by lia.
    assert (Hy : nth_error (map Finite pa) i = Some (Finite (nth i pa 0%R))).
    { rewrite nth_error_map, (nth_error_nth' _ 0%R Hi'). reflexivity. }
    pose proof (zip_with_nth_error_some (masked_score (Finite (a * pm)))
                  _ _ _ _ _ Hx Hy) as Hz.
    assert (Hpm : (0 < pm)%R) by (rewrite Forall_forall in Hpe; auto).
    assert (Hq : (0 < nth i pa 0)%R).
    { rewrite Forall_forall in Hpa. apply Hpa. apply nth_In. exact Hi'. }
    unfold masked_score in Hz. simpl fge in Hz.
    rewrite (proj2 (Rleb_true (a * pm) pm)) in Hz by nra.
    rewrite !flog_pos in Hz by assumption.
    eexists. eapply nth_error_In. exact Hz.
  - rewrite zip_with_length, !length_map, Hlen. apply Nat.min_id.
Qed.

(** The scores of the decoder without adaptive plausibility. *)
Lemma plain_scores_shape (pe pa : list R) :
  Forall (fun p => (0 < p)%R) pe -> Forall (fun p => (0 < p)%R) pa ->
  length pa = length pe -> pe <> [] ->
  let scores := zip_with (fun x y => fsub (flog x) (flog y))
                  (map Finite pe) (map Finite pa) in
  Forall is_score scores /\ (exists r, In (Finite r) scores) /\
  length scores = length pe.
Proof.
  intros Hpe Hpa Hlen Hne scores. subst scores. split; [|split].
  - apply Forall_forall. intros z Hz.
    destruct (zip_with_in _ _ _ _ Hz) as (x & y & Hx & Hy & ->).
    destruct (in_map_finite_pos _ _ Hpe Hx) as (p & -> & Hp).
    destruct (in_map_finite_pos _ _ Hpa Hy) as (q & -> & Hq).
    rewrite !flog_pos by assumption. right; eexists; reflexivity.
  - destruct pe as [|p pe]; [congruence|]. destruct pa as [|q pa]; [discriminate|].
    inversion Hpe; inversion Hpa; subst. cbn [zip_with map].
    rewrite !flog_pos by assumption. eexists; left; reflexivity.
  - rewrite zip_with_length, !length_map, Hlen. apply Nat.min_id.
Qed.

Section Runs.

Variable G : Type.
Variable multinomial : list scalar -> M G nat.
Variable tokenizer : Tokenizer.
Hypothesis Hsupport : multinomial_support multinomial.
Hypothesis Htotal : multinomial_total multinomial.

Variables expert_model amateur_model : model.
Hypothesis Hscorers : scorers_ok expert_model amateur_model.

(** What the two softmaxes of a step are. *)
Lemma step_probs (enc : encoding) :
  exists le la pe pa,
    expert_model enc = Ok (map Finite le) /\
    amateur_model enc = Ok (map Finite la) /\
    softmax (map Finite le) = map Finite pe /\
    softmax (map Finite la) = map Finite pa /\
    Forall (fun p => (0 < p)%R) pe /\ Forall (fun p => (0 < p)%R) pa /\
    length pa = length pe /\ k <= length pe.
Proof.
  destruct (Hscorers enc) as (le & la & He & Ha & Hlen & Hk).
  assert (Hle : le <> []).
  { intros ->. simpl in Hk. unfold k in Hk. lia. }
  assert (Hla : la <> []).
  { intros ->. simpl in Hlen. destruct le; [congruence | discriminate]. }
  destruct (softmax_finite le Hle) as (pe & Hse & Hlpe & Hpe).
  destruct (softmax_finite la Hla) as (pa & Hsa & Hlpa & Hpa).
  exists le, la, pe, pa. repeat split; auto; lia.
Qed.

Lemma adaptive_next_token_total (a : R) (enc : encoding) (g : G) :
  (a <= 1)%R ->
  exists tok g',
    Adaptive.next_token G multinomial expert_model amateur_model
      (Finite a) enc g = Ok (tok, g').
Proof.
  intros Ha.
  destruct (step_probs enc)
    as (le & la & pe & pa & He & Hm & Hse & Hsa & Hpe & Hpa & Hlen & Hk).
  unfold Adaptive.next_token, bind, lift. rewrite He, Hm, Hse, Hsa.
  assert (Hne : pe <> []).
  { intros ->. simpl in Hk. unfold k in Hk. lia. }
  destruct (max_finite pe Hne) as (pm & Hmax & Hin & _).
  rewrite (cd_score_closed _ _ (Finite a) _ Hmax)
    by (rewrite !length_map; exact Hlen).
  cbv beta iota. simpl fmul.
  destruct (adaptive_scores_shape pe pa a pm Hpe Hpa Hlen Hin Ha)
    as (Hs & (r & Hr) & Hl).
  eapply (sample_topk_total G multinomial Hsupport Htotal _ r g Hs Hr).
  rewrite Hl. exact Hk.
Qed.

Lemma plain_next_token_total (enc : encoding) (g : G) :
  exists tok g',
    Plain.plain_next_token G multinomial expert_model amateur_model enc g
      = Ok (tok, g').
Proof.
  destruct (step_probs enc)
    as (le & la & pe & pa & He & Hm & Hse & Hsa & Hpe & Hpa & Hlen & Hk).
  unfold Plain.plain_next_token, bind, lift. rewrite He, Hm, Hse, Hsa.
  assert (Hne : pe <> []).
  { intros ->. simpl in Hk. unfold k in Hk. lia. }
  rewrite cd_score_plain_closed by (rewrite !length_map; exact Hlen).
  cbv beta iota.
  destruct (plain_scores_shape pe pa Hpe Hpa Hlen Hne)
    as (Hs & (r & Hr) & Hl).
  eapply (sample_topk_total G multinomial Hsupport Htotal _ r g Hs Hr).
  rewrite Hl. exact Hk.
Qed.

Lemma adaptive_loop_total (a : R) (num_tokens : nat) (prompt : list token)
  (enc : encoding) (g : G) :
  (a <= 1)%R ->
  exists toks g',
    Adaptive.loop G multinomial tokenizer expert_model amateur_model
      (Finite a) num_tokens prompt enc g = Ok (toks, g').
Proof.
  intros Ha. revert prompt enc g.
  induction num_tokens as [|n IH]; intros prompt enc g; simpl.
  - exists prompt, g. reflexivity.
  - unfold bind at 1.
    destruct (adaptive_next_token_total a enc g Ha) as (t & g1 & ->).
    apply IH.
Qed.

Lemma plain_loop_total (num_tokens : nat) (prompt : list token)
  (enc : encoding) (g : G) :
  exists toks g',
    Plain.plain_loop G multinomial tokenizer expert_model amateur_model
      num_tokens prompt enc g = Ok (toks, g').
Proof.
  revert prompt enc g.
  induction num_tokens as [|n IH]; intros prompt enc g; simpl.
  - exists prompt, g. reflexivity.
  - unfold bind at 1.
    destruct (plain_next_token_total enc g) as (t & g1 & ->).
    apply IH.
Qed.

End Runs.

Section Lengths.

Variable G : Type.
Variable multinomial : list scalar -> M G nat.
Variable tokenizer : Tokenizer.
Variables expert_model amateur_model : model.

Lemma adaptive_loop_length (alpha : scalar) (num_tokens : nat)
  (prompt : list token) (enc : encoding) (g g' : G) (toks : list token) :
  Adaptive.loop G multinomial tokenizer expert_model amateur_model alpha
    num_tokens prompt enc g = Ok (toks, g') ->
  length toks = length prompt + num_tokens.
Proof.
  revert prompt enc g.
  induction num_tokens as [|n IH]; intros prompt enc g; simpl.
  - unfold ret. intros H; inversion H; subst. lia.
  - unfold bind at 1.
    destruct (Adaptive.next_token _ _ _ _ _ _ _) as [[t g1]|e]; [|discriminate].
    intros H. apply IH in H. rewrite H, length_app. simpl. lia.
Qed.

Lemma plain_loop_length (num_tokens : nat)
  (prompt : list token) (enc : encoding) (g g' : G) (toks : list token) :
  Plain.plain_loop G multinomial tokenizer expert_model amateur_model
    num_tokens prompt enc g = Ok (toks, g') ->
  length toks = length prompt + num_tokens.
Proof.
  revert prompt enc g.
  induction num_tokens as [|n IH]; intros prompt enc g; simpl.
  - unfold ret. intros H; inversion H; subst. lia.
  - unfold bind at 1.
    destruct (Plain.plain_next_token _ _ _ _ _ _) as [[t g1]|e]; [|discriminate].
    intros H. apply IH in H. rewrite H, length_app. simpl. lia.
Qed.

End Lengths.

(** The stand-in sampler keeps the promises of [torch.multinomial]. *)
Lemma first_positive_spec (w : list scalar) (i j : nat) :
  first_positive w i = Some j ->
  i <= j /\ exists r, nth_error w (j - i) = Some (Finite r) /\ (0 < r)%R.
Proof.
  revert i; induction w as [|x w IH]; intros i; simpl; [discriminate|].
  assert (Hrec : first_positive w (S i) = Some j ->
            i <= j /\ exists r, nth_error (x :: w) (j - i) = Some (Finite r) /\ (0 < r)%R).
  { intros H. apply IH in H. destruct H as (Hle & r & Hn & Hr).
    split; [lia|]. exists r. replace (j - i) with (S (j - S i)) by lia. auto. }
  destruct x as [| | |r]; auto.
  destruct (Rltb 0 r) eqn:E; auto.
  intros H; inversion H; subst. rewrite Nat.sub_diag. split; [lia|].
  exists r. apply Rltb_true in E. auto.
Qed.

Lemma first_positive_support : multinomial_support first_positive_multinomial.
Proof.
  intros w g j g'. unfold first_positive_multinomial.
  destruct (first_positive w 0) as [j'|] eqn:E; [|discriminate].
  intros H; inversion H; subst.
  destruct (first_positive_spec _ _ _ E) as (_ & r & Hn & Hr).
  rewrite Nat.sub_0_r in Hn. eauto.
Qed.

Lemma first_positive_finds (rs : list R) (i : nat) :
  Forall (fun r => (0 <= r)%R) rs -> (0 < fold_right Rplus 0%R rs)%R ->
  exists j, first_positive (map Finite rs) i = Some j.
Proof.
  intros Hall. revert i. induction Hall as [|r rs Hr Hall IH]; intros i Hs; simpl in *.
  - lra.
  - destruct (Rltb 0 r) eqn:E; [eauto|].
    apply Rltb_false in E. apply IH. lra.
Qed.

Lemma first_positive_total : multinomial_total first_positive_multinomial.
Proof.
  intros w g (rs & -> & Hall & Hs). unfold first_positive_multinomial.
  destruct (first_positive_finds rs 0 Hall Hs) as [j ->]. eauto.
Qed.

Lemma flat_models_ok (n : nat) : k <= n -> scorers_ok (flat_model n) (flat_model n).
Proof.
  intros Hn enc. exists (repeat 0%R n), (repeat 0%R n).
  rewrite repeat_length. auto.
Qed.

End RunFacts.

(** ** The candidate pool *)

Module PoolFacts.
Import Torch TorchFacts Spec TopkFacts ScoreFacts SamplingFacts ContrastiveDecoding.

Lemma sorted_app_before {A} (R : A -> A -> Prop) (l1 l2 : list A) :
  StronglySorted R (l1 ++ l2) ->
  forall p q, In p l1 -> In q l2 -> R p q.
Proof.
  induction l1 as [|x l1 IH]; simpl; intros Hs p q Hp Hq; [contradiction|].
  inversion Hs as [|? ? Hs' Hall]; subst.
  destruct Hp as [->|Hp].
  - rewrite Forall_forall in Hall. apply Hall. apply in_or_app; right; exact Hq.
  - apply (IH Hs'); assumption.
Qed.

Lemma combine_seq_nth (t : list scalar) (a i : nat) :
  i < length t -> In (nth i t NaN, a + i) (combine t (seq a (length t))).
Proof.
  revert a i; induction t as [|x t IH]; intros a i Hi; simpl in *; [lia|].
  destruct i as [|i].
  - left. rewrite Nat.add_0_r. reflexivity.
  - right. replace (a + S i) with (S a + i) by lia. apply IH. lia.
Qed.

Lemma filter_seq_length (p : scalar -> bool) (f : nat -> bool)
  (t : list scalar) (a : nat) :
  (forall i, i < length t -> f (a + i) = p (nth i t NaN)) ->
  length (filter f (seq a (length t))) = length (filter p t).
Proof.
  revert a; induction t as [|x t IH]; intros a Hf; [reflexivity|].
  cbn [length seq filter].
  assert (Ha : f a = p x).
  { rewrite <- (Nat.add_0_r a) at 1. apply (Hf 0). simpl; lia. }
  assert (Hrec : length (filter f (seq (S a) (length t))) = length (filter p t)).
  { apply IH. intros i Hi. replace (S a + i) with (a + S i) by lia.
    apply (Hf (S i)). simpl; lia. }
  rewrite Ha. destruct (p x); cbn [length]; rewrite Hrec; reflexivity.
Qed.

(** The indices of the pool are distinct positions of the tensor. *)
Lemma pool_indices (t : list scalar) (n : nat) :
  NoDup (map snd (firstn n (ranked t))) /\
  forall i, In i (map snd (firstn n (ranked t))) -> i < length t.
Proof.
  pose proof (ranked_indices t) as Hperm.
  assert (Hnd : NoDup (map snd (ranked t))).
  { eapply Permutation_NoDup; [symmetry; exact Hperm | apply seq_NoDup]. }
  rewrite <- (firstn_skipn n (ranked t)), map_app in Hnd.
  split; [eapply NoDup_app_remove_r; exact Hnd|].
  intros i Hi.
  assert (Hin : In i (map snd (ranked t))).
  { rewrite <- (firstn_skipn n (ranked t)), map_app. apply in_or_app; left; exact Hi. }
  apply (Permutation_in _ Hperm), in_seq in Hin. lia.
Qed.


(** An entry outside the pool is not above any entry of the pool. *)
Lemma pool_is_best (t : list scalar) (n i : nat) (v : scalar) :
  i < length t -> ~ In i (map snd (firstn n (ranked t))) ->
  In v (map fst (firstn n (ranked t))) ->
  topk_gt (nth i t NaN) v = false.
Proof.
  intros Hi Hout Hv.
  assert (Hin : In (nth i t NaN, i) (ranked t)).
  { eapply Permutation_in; [symmetry; apply ranked_perm|].
    apply (combine_seq_nth t 0 i Hi). }
  rewrite <- (firstn_skipn n (ranked t)) in Hin.
  apply in_app_or in Hin. destruct Hin as [Hin|Hin].
  - exfalso. apply Hout. apply in_map_iff. exists (nth i t NaN, i). auto.
  - apply in_map_iff in Hv. destruct Hv as (p & <- & Hp).
    pose proof (sort_desc_sorted (combine t (seq 0 (length t)))) as Hs.
    fold (ranked t) in Hs. rewrite <- (firstn_skipn n (ranked t)) in Hs.
    exact (sorted_app_before before _ _ Hs p (nth i t NaN, i) Hp Hin).
Qed.



End PoolFacts.

(** ** A vocabulary with a single plausible entry *)

Module PeakedFacts.
Import Torch TorchFacts Spec TopkFacts ScoreFacts SamplingFacts RunFacts
  PoolFacts ContrastiveDecoding.





End PeakedFacts.

(** ** The claims on concrete inputs, and the length of the output *)

Module DecoderClaims.
Import Torch TorchFacts Spec TopkFacts ScoreFacts SamplingFacts SoftmaxFacts
  LoopFacts TotalityFacts RunFacts PoolFacts PeakedFacts ContrastiveDecoding.

Lemma scorers_conditioned_ok (expert_model amateur_model : model) :
  scorers_conditioned expert_model amateur_model ->
  scorers_ok expert_model amateur_model.
Proof.
  intros H enc. destruct (H enc) as (le & la & He & Ha & Hl & Hk & _).
  exists le, la. auto.
Qed.

Lemma flat_models_conditioned (n : nat) :
  k <= n -> scorers_conditioned (flat_model n) (flat_model n).
Proof.
  intros Hn enc. exists (repeat 0%R n), (repeat 0%R n).
  repeat split; try reflexivity.
  - rewrite repeat_length. exact Hn.
  - intros x y Hx Hy. apply repeat_spec in Hx, Hy. lra.
  - intros x y Hx Hy. apply repeat_spec in Hx, Hy. lra.
Qed.

(** Under the default [alpha] the one plausible token of [peaked_model]
    is token [0]. *)
Lemma peaked_model_plausible (enc : encoding) (tok : nat) :
  plausible peaked_model Adaptive.alpha_default enc tok -> tok = 0.
Proof.
  intros (logits & m & mask & He & Hm & _ & _ & Hge).
  assert (Hl : logits = map Finite (10%R :: repeat 0%R 49))
    by (unfold peaked_model in He; congruence).
  clear He. remember (repeat 0%R 49) as rest eqn:Erest. subst logits.
  destruct tok as [|tok]; [reflexivity|exfalso].
  assert (Ht : Forall is_score (map Finite (10%R :: rest))).
  { apply Forall_forall. intros x Hx. apply in_map_iff in Hx.
    destruct Hx as (y & <- & _). right; eauto. }
  destruct (softmax_scores _ 10 Ht (or_introl eq_refl))
    as (c & S & HS & _ & Hsm).
  rewrite Hsm, map_map in Hm, Hge.
  remember (fun x => (shifted_exp c (Finite x) / S)%R) as p eqn:Ep.
  assert (Hmap : map (fun x => Finite (shifted_exp c (Finite x) / S))
                   (10%R :: rest) = map Finite (map p (10%R :: rest))).
  { rewrite map_map, Ep. reflexivity. }
  rewrite Hmap in Hm, Hge.
  destruct (max_finite (map p (10%R :: rest))) as (pm & Hmax & _ & Hub);
    [discriminate|].
  rewrite Hmax in Hm. injection Hm as <-.
  specialize (Hub (p 10%R) (or_introl eq_refl)).
  cbn [nth map] in Hge.
  destruct (Nat.lt_ge_cases tok (length rest)) as [Hlt|Hge'].
  2:{ rewrite nth_overflow in Hge by (rewrite !length_map; exact Hge').
      discriminate. }
  rewrite (nth_indep _ NaN (Finite (p 0%R))) in Hge
    by (rewrite !length_map; exact Hlt).
  rewrite map_map, (map_nth (fun x => Finite (p x))) in Hge.
  assert (H0 : nth tok rest 0%R = 0%R).
  { apply (repeat_spec 49). rewrite <- Erest. apply nth_In. exact Hlt. }
  rewrite H0 in Hge.
  unfold Adaptive.alpha_default in Hge. cbn [fmul fge] in Hge.
  apply Rleb_true in Hge. rewrite Ep in Hge, Hub. cbn [shifted_exp] in Hge, Hub.
  rewrite exp_plus in Hub.
  replace (0 + - c)%R with (- c)%R in Hge by lra.
  pose proof (exp_pos (- c)) as Hpos.
  pose proof (exp_ineq1 10 ltac:(lra)) as H10.
  assert (Hq : (0 < exp (- c) / S)%R).
  { apply Rmult_lt_0_compat; [exact Hpos|apply Rinv_0_lt_compat; exact HS]. }
  assert (Hbig : (11 * (exp (- c) / S) <= pm)%R).
  { eapply Rle_trans; [|exact Hub]. unfold Rdiv. rewrite Rmult_assoc.
    apply Rmult_le_compat_r; [lra|lra]. }
  lra.
Qed.

Lemma toy_expert_dist : prob_dist toy_expert.
Proof.
  eexists; split; [reflexivity|]. split.
  - repeat constructor; lra.
  - simpl; lra.
Qed.

Lemma toy_amateur_dist : prob_dist toy_amateur.
Proof.
  eexists; split; [reflexivity|]. split.
  - repeat constructor; lra.
  - simpl; lra.
Qed.

Lemma cd_score_elementwise_witness :
  prob_dist toy_expert /\ prob_dist toy_amateur /\
  length toy_amateur = length toy_expert /\
  exists m score,
    max toy_expert = Ok m /\
    Adaptive.cd_score toy_expert toy_amateur (Finite (3 / 10)) = Ok score /\
    length score = length toy_expert /\
    forall i, i < length toy_expert ->
      nth i score NaN =
        if fge (nth i toy_expert NaN) (fmul (Finite (3 / 10)) m)
        then fsub (flog (nth i toy_expert NaN)) (flog (nth i toy_amateur NaN))
        else NegInf.
Proof.
  split; [exact toy_expert_dist|]. split; [exact toy_amateur_dist|].
  split; [reflexivity|].
  apply (cd_score_elementwise toy_expert toy_amateur (Finite (3 / 10))
           toy_expert_dist toy_amateur_dist eq_refl).
Defined.

Lemma alpha_zero_degenerates_witness :
  prob_dist toy_expert /\ prob_dist toy_amateur /\
  length toy_amateur = length toy_expert /\
  Adaptive.cd_score toy_expert toy_amateur (Finite 0)
    = Plain.plain_score toy_expert toy_amateur.
Proof.
  split; [exact toy_expert_dist|]. split; [exact toy_amateur_dist|].
  split; [reflexivity|].
  apply (alpha_zero_degenerates toy_expert toy_amateur
           toy_expert_dist toy_amateur_dist eq_refl).
Defined.

Lemma argmax_survives_mask_witness :
  prob_dist toy_expert /\ (0 <= 3 / 10 <= 1)%R /\
  exists m mask,
    max toy_expert = Ok m /\
    Adaptive.calculate_vhead toy_expert (Finite (3 / 10)) = Ok mask /\
    length mask = length toy_expert /\
    (forall i, i < length toy_expert -> nth i toy_expert NaN = m ->
               nth i mask false = true) /\
    (exists i, i < length toy_expert /\ nth i toy_expert NaN = m /\
               nth i mask false = true).
Proof.
  assert (Ha : (0 <= 3 / 10 <= 1)%R) by lra.
  split; [exact toy_expert_dist|]. split; [exact Ha|].
  apply (argmax_survives_mask toy_expert (3 / 10)%R toy_expert_dist Ha).
Defined.


Section Output.

Variable G : Type.
Variable multinomial : list scalar -> M G nat.
Variable tokenizer : Tokenizer.
Variables expert_model amateur_model : model.

(** C7: the token list of a completed run has the length of the prompt
    plus [num_tokens], in both decoders; [generate_next_token] returns its
    decoding.  Runs complete when the sampler keeps the promises of
    [torch.multinomial], the models answer with finite logits of
    bounded spread over a vocabulary of at least fifty entries, and
    [alpha] is at most one. *)
Theorem output_length (num_tokens : nat) (enc : encoding) :
  (forall alpha g toks g',
     Adaptive.loop G multinomial tokenizer expert_model amateur_model alpha
       num_tokens enc enc g = Ok (toks, g') ->
     length toks = length enc + num_tokens /\
     Adaptive.generate_next_token G multinomial tokenizer enc expert_model
       amateur_model num_tokens alpha g = Ok (decode tokenizer toks, g')) /\
  (forall g toks g',
     Plain.plain_loop G multinomial tokenizer expert_model amateur_model
       num_tokens enc enc g = Ok (toks, g') ->
     length toks = length enc + num_tokens /\
     Plain.generate_next_token G multinomial tokenizer enc expert_model
       amateur_model num_tokens g = Ok (decode tokenizer toks, g')) /\
  (multinomial_support multinomial -> multinomial_total multinomial ->
   scorers_conditioned expert_model amateur_model ->
   (forall a g, (a <= 1)%R ->
      exists toks g',
        Adaptive.generate_next_token G multinomial tokenizer enc
          expert_model amateur_model num_tokens (Finite a) g
          = Ok (decode tokenizer toks, g') /\
        length toks = length enc + num_tokens) /\
   (forall g,
      exists toks g',
        Plain.generate_next_token G multinomial tokenizer enc
          expert_model amateur_model num_tokens g
          = Ok (decode tokenizer toks, g') /\
        length toks = length enc + num_tokens)).
Proof.
  assert (HA : forall alpha g toks g',
     Adaptive.loop G multinomial tokenizer expert_model amateur_model alpha
       num_tokens enc enc g = Ok (toks, g') ->
     length toks = length enc + num_tokens /\
     Adaptive.generate_next_token G multinomial tokenizer enc expert_model
       amateur_model num_tokens alpha g = Ok (decode tokenizer toks, g')).
  { intros alpha g toks g' H. split.
    - eapply adaptive_loop_length; exact H.
    - unfold Adaptive.generate_next_token, bind. rewrite H. reflexivity. }
  assert (HP : forall g toks g',
     Plain.plain_loop G multinomial tokenizer expert_model amateur_model
       num_tokens enc enc g = Ok (toks, g') ->
     length toks = length enc + num_tokens /\
     Plain.generate_next_token G multinomial tokenizer enc expert_model
       amateur_model num_tokens g = Ok (decode tokenizer toks, g')).
  { intros g toks g' H. split.
    - eapply plain_loop_length; exact H.
    - unfold Plain.generate_next_token, bind. rewrite H. reflexivity. }
  split; [exact HA|]. split; [exact HP|].
  intros Hsup Htot Hcond.
  pose proof (scorers_conditioned_ok _ _ Hcond) as Hsc. split.
  - intros a g Ha.
    destruct (adaptive_loop_total G multinomial tokenizer Hsup Htot
                expert_model amateur_model Hsc a num_tokens enc enc g Ha)
      as (toks & g' & H).
    exists toks, g'. destruct (HA _ _ _ _ H). auto.
  - intros g.
    destruct (plain_loop_total G multinomial tokenizer Hsup Htot
                expert_model amateur_model Hsc num_tokens enc enc g)
      as (toks & g' & H).
    exists toks, g'. destruct (HP _ _ _ H). auto.
Qed.

End Output.

Lemma output_length_witness :
  multinomial_support first_positive_multinomial /\
  multinomial_total first_positive_multinomial /\
  scorers_conditioned (flat_model 50) (flat_model 50) /\
  exists toks g',
    Adaptive.generate_next_token unit first_positive_multinomial
      unary_tokenizer [7; 8] (flat_model 50) (flat_model 50) 3
      Adaptive.alpha_default tt = Ok (decode unary_tokenizer toks, g') /\
    length toks = 2 + 3.
Proof.
  assert (Hs : scorers_conditioned (flat_model 50) (flat_model 50)).
  { apply flat_models_conditioned. unfold k. lia. }
  assert (Ha : (1 / 10 <= 1)%R) by lra.
  split; [exact first_positive_support|].
  split; [exact first_positive_total|]. split; [exact Hs|].
  destruct (output_length unit first_positive_multinomial unary_tokenizer
              (flat_model 50) (flat_model 50) 3 [7; 8]) as (_ & _ & H).
  destruct (H first_positive_support first_positive_total Hs) as (HA & _).
  exact (HA (1 / 10)%R tt Ha).
Defined.

Lemma peaked_scorers_ok : scorers_ok peaked_model (flat_model 50).
Proof.
  intros enc. exists (10%R :: repeat 0%R 49), (repeat 0%R 50).
  repeat split; unfold k; cbn; lia.
Qed.

Lemma sampled_tokens_plausible_witness :
  multinomial_support first_positive_multinomial /\
  exists toks g' gen,
    Adaptive.loop unit first_positive_multinomial unary_tokenizer
      peaked_model (flat_model 50) Adaptive.alpha_default 3 [7; 8] [7; 8] tt
      = Ok (toks, g') /\
    toks = [7; 8] ++ gen /\ length gen = 3 /\
    (forall i, i < 3 ->
       plausible peaked_model Adaptive.alpha_default
         (encoding_at unary_tokenizer [7; 8] [7; 8] gen i) (nth i gen 0)) /\
    gen = [0; 0; 0].
Proof.
  assert (Ha : (1 / 10 <= 1)%R) by lra.
  split; [exact first_positive_support|].
  destruct (adaptive_loop_total unit first_positive_multinomial unary_tokenizer
              first_positive_support first_positive_total
              peaked_model (flat_model 50) peaked_scorers_ok
              (1 / 10)%R 3 [7; 8] [7; 8] tt Ha)
    as (toks & g' & H).
  destruct (sampled_tokens_plausible unit first_positive_multinomial
              unary_tokenizer first_positive_support
              peaked_model (flat_model 50) Adaptive.alpha_default
              3 [7; 8] [7; 8] tt g' toks H) as (gen & Ht & Hl & Hall).
  exists toks, g', gen.
  split; [exact H|]. split; [exact Ht|]. split; [exact Hl|].
  split; [exact Hall|].
  pose proof (peaked_model_plausible _ _ (Hall 0 ltac:(lia))) as H0.
  pose proof (peaked_model_plausible _ _ (Hall 1 ltac:(lia))) as H1.
  pose proof (peaked_model_plausible _ _ (Hall 2 ltac:(lia))) as H2.
  destruct gen as [|a [|b [|c [|d gen]]]]; try discriminate.
  cbn in H0, H1, H2. subst. reflexivity.
Defined.

End DecoderClaims.

(** ** The constructor of [MultiHeadAttention] *)

Module InitFacts.
Import Torch Tensor nn Spec.
Import MultiHeadAttention.

Section Init.

Variable G : Type.
Variable uniform_ : nat -> M G T1.

(** The call that builds the value projection raises whatever its
    arguments are worth. *)
Lemma value_projection_raises (hs : Z) (g : G) :
  Linear_init G uniform_ []
    [("in_feautures", hs); ("out_features", hs)]%string g
  = Raise misspelled.
Proof. reflexivity. Qed.

(** C9: a hidden size that the number of heads does not divide is refused
    by the assertion of the constructor, before any attribute is set. *)
Theorem init_rejects_indivisible (hidden_size num_heads : Z) (g : G) :
  num_heads <> 0%Z -> (hidden_size mod num_heads)%Z <> 0%Z ->
  __init__ G uniform_ hidden_size num_heads g = Raise AssertionError.
Proof.
  intros Hn Hm. unfold __init__, bind, lift, py_mod.
  apply Z.eqb_neq in Hn. rewrite Hn. cbv beta iota.
  apply Z.eqb_neq in Hm. unfold py_assert. rewrite Hm. reflexivity.
Qed.

(** C10: the constructor never returns a module.  Every call raises; on
    a valid configuration, the parameters of the query and key projections
    once drawn, it is the misspelled keyword of the value projection that
    raises. *)
Theorem init_never_succeeds (hidden_size num_heads : Z) (g : G) :
  (exists e, __init__ G uniform_ hidden_size num_heads g = Raise e) /\
  ((forall n g0, exists w g1, uniform_ n g0 = Ok (w, g1)) ->
   num_heads <> 0%Z -> (hidden_size mod num_heads)%Z = 0%Z ->
   (0 <= hidden_size)%Z ->
   __init__ G uniform_ hidden_size num_heads g = Raise misspelled).
Proof.
  split.
  - unfold __init__, bind at 1.
    destruct (lift (py_mod hidden_size num_heads) g) as [[r g1]|e];
      [|eexists; reflexivity].
    unfold bind at 1.
    destruct (lift (py_assert (r =? 0)%Z) g1) as [[u g2]|e];
      [|eexists; reflexivity].
    unfold bind at 1.
    destruct (lift (py_floordiv hidden_size num_heads) g2) as [[hd g3]|e];
      [|eexists; reflexivity].
    unfold bind at 1.
    destruct (Linear_init G uniform_ [] _ g3) as [[q g4]|e];
      [|eexists; reflexivity].
    unfold bind at 1.
    destruct (Linear_init G uniform_ [] _ g4) as [[k g5]|e];
      [|eexists; reflexivity].
    unfold bind at 1. rewrite value_projection_raises.
    eexists; reflexivity.
  - intros Hu Hn Hm Hpos.
    assert (Hrows : forall rows cols g0,
              exists w g1, init_rows G uniform_ rows cols g0 = Ok (w, g1)).
    { induction rows as [|rows IH]; intros cols g0; simpl.
      - eexists _, _; reflexivity.
      - unfold bind. destruct (Hu cols g0) as (w & g1 & ->).
        destruct (IH cols g1) as (ws & g2 & ->).
        eexists _, _; reflexivity. }
    assert (Hlin : forall g0, exists l g1,
              Linear_init G uniform_ []
                [("in_features", hidden_size); ("out_features", hidden_size)]%string
                g0 = Ok (l, g1)).
    { intros g0. unfold Linear_init, bind, lift. cbn.
      assert (E : (hidden_size <? 0)%Z = false) by (apply Z.ltb_ge; lia).
      rewrite E. cbn.
      destruct (Hrows (Z.to_nat hidden_size) (Z.to_nat hidden_size) g0)
        as (w & g1 & ->).
      destruct (Hu (Z.to_nat hidden_size) g1) as (b & g2 & ->).
      eexists _, _; reflexivity. }
    unfold __init__, bind at 1. unfold lift at 1, py_mod.
    apply Z.eqb_neq in Hn. rewrite Hn, Hm. cbv beta iota.
    unfold bind at 1. cbn [lift py_assert Z.eqb].
    unfold bind at 1. unfold lift at 1, py_floordiv. rewrite Hn.
    cbv beta iota.
    unfold bind at 1. destruct (Hlin g) as (q & g1 & ->).
    unfold bind at 1. destruct (Hlin g1) as (k & g2 & ->).
    unfold bind at 1. rewrite value_projection_raises. reflexivity.
Qed.

End Init.

Lemma init_rejects_indivisible_witness :
  3%Z <> 0%Z /\ (10 mod 3)%Z <> 0%Z /\
  __init__ unit zeros_ 10 3 tt = Raise AssertionError.
Proof.
  assert (H3 : 3%Z <> 0%Z) by discriminate.
  assert (Hm : (10 mod 3)%Z <> 0%Z) by discriminate.
  split; [exact H3|]. split; [exact Hm|].
  apply (init_rejects_indivisible unit zeros_ 10 3 tt H3 Hm).
Defined.

Lemma init_never_succeeds_witness :
  (forall n g0, exists w g1, zeros_ n g0 = Ok (w, g1)) /\
  8%Z <> 0%Z /\ (512 mod 8)%Z = 0%Z /\ (0 <= 512)%Z /\
  __init__ unit zeros_ 512 8 tt = Raise misspelled.
Proof.
  assert (Hu : forall n g0, exists w g1, zeros_ n g0 = Ok (w, g1)).
  { intros n g0. exists (repeat (Finite 0) n), g0. reflexivity. }
  assert (H8 : 8%Z <> 0%Z) by discriminate.
  assert (Hm : (512 mod 8)%Z = 0%Z) by reflexivity.
  assert (Hp : (0 <= 512)%Z) by lia.
  split; [exact Hu|]. split; [exact H8|]. split; [exact Hm|].
  split; [exact Hp|].
  exact (proj2 (init_never_succeeds unit zeros_ 512 8 tt) Hu H8 Hm Hp).
Defined.

End InitFacts.

(** ** The projections read by [forward] *)

Module ProjectionFacts.
Import Torch Tensor nn Spec.
Import MultiHeadAttention.

(** C1 fails on the code: [forward] applies [self.query] to the query, to
    the key and to the value, so the key and value projections never reach
    the output: two modules that differ in these two projections only
    return the same output on every input. *)
Theorem forward_ignores_key_projection (self self' : t)
  (query key value : list (list (list scalar)))
  (mask : option (list (list (list (list bool))))) :
  hidden_size self' = hidden_size self ->
  num_heads self' = num_heads self ->
  head_dim self' = head_dim self ->
  MultiHeadAttention.query self' = MultiHeadAttention.query self ->
  fc_out self' = fc_out self ->
  scale self' = scale self ->
  forward self' query key value mask = forward self query key value mask.
Proof.
  intros Hhs Hnh Hhd Hq Hfc Hsc. unfold forward.
  rewrite Hhs, Hnh, Hhd, Hq, Hfc, Hsc. reflexivity.
Qed.

Lemma forward_ignores_key_projection_witness :
  MultiHeadAttention.key tiny_attention_perturbed
    <> MultiHeadAttention.key tiny_attention /\
  forward tiny_attention_perturbed tiny_input tiny_input tiny_input
    (Some (causal_mask 2))
  = forward tiny_attention tiny_input tiny_input tiny_input
      (Some (causal_mask 2)).
Proof.
  split; [intros H; simpl in H; inversion H; lra|].
  apply (forward_ignores_key_projection tiny_attention tiny_attention_perturbed
           tiny_input tiny_input tiny_input (Some (causal_mask 2))
           eq_refl eq_refl eq_refl eq_refl eq_refl eq_refl).
Defined.

End ProjectionFacts.

(** ** Views and broadcasts *)

Module TensorFacts.
Import Torch Tensor nn Spec TorchFacts.

Lemma traverse_map {A B} (f : A -> res B) (g : A -> B) (l : list A) :
  (forall x, In x l -> f x = Ok (g x)) -> traverse f l = Ok (map g l).
Proof.
  induction l as [|x l IH]; intros H; simpl; [reflexivity|].
  rewrite (H x (or_introl eq_refl)). simpl.
  rewrite IH by (intros; apply H; right; assumption). reflexivity.
Qed.

Lemma traverse_id {A} (f : A -> res A) (l : list A) :
  (forall x, In x l -> f x = Ok x) -> traverse f l = Ok l.
Proof.
  intros H. rewrite (traverse_map f (fun x => x)) by exact H.
  rewrite map_id. reflexivity.
Qed.

Lemma chunks_length {A} (c s : nat) (l : list A) : length (chunks c s l) = c.
Proof. revert l; induction c as [|c IH]; intros l; simpl; auto. Qed.

Lemma concat_length_uniform {A} (s : nat) (ls : list (list A)) :
  Forall (fun r => length r = s) ls -> length (concat ls) = length ls * s.
Proof.
  induction 1 as [|x ls Hx _ IH]; simpl; [reflexivity|].
  rewrite length_app, IH, Hx. reflexivity.
Qed.

(** Cutting a concatenation of equal-sized blocks gives the blocks back. *)
Lemma chunks_concat {A} (s : nat) (ls : list (list A)) :
  Forall (fun r => length r = s) ls ->
  chunks (length ls) s (concat ls) = ls.
Proof.
  induction 1 as [|x ls Hx _ IH]; simpl; [reflexivity|].
  assert (E1 : firstn s (x ++ concat ls) = x).
  { rewrite <- Hx, firstn_app, Nat.sub_diag, firstn_all, firstn_O.
    apply app_nil_r. }
  assert (E2 : skipn s (x ++ concat ls) = concat ls).
  { rewrite <- Hx, skipn_app, Nat.sub_diag, skipn_all, skipn_O. reflexivity. }
  rewrite E1, E2, IH. reflexivity.
Qed.

Lemma chunks_concat' {A} (n s : nat) (ls : list (list A)) :
  length ls = n -> Forall (fun r => length r = s) ls ->
  chunks n s (concat ls) = ls.
Proof. intros <-. apply chunks_concat. Qed.

(** Joining the blocks of a buffer of the right size gives it back. *)
Lemma chunks_join {A} (c s : nat) (l : list A) :
  length l = c * s -> concat (chunks c s l) = l.
Proof.
  revert l; induction c as [|c IH]; intros l Hl; simpl in *.
  - destruct l; [reflexivity | discriminate].
  - rewrite IH by (rewrite length_skipn; lia). apply firstn_skipn.
Qed.

Lemma chunks_rect {A} (c s : nat) (l : list A) :
  length l = c * s -> rect c s (chunks c s l).
Proof.
  intros Hl. split; [apply chunks_length|].
  revert l Hl; induction c as [|c IH]; intros l Hl; simpl in *; constructor.
  - rewrite length_firstn. lia.
  - apply IH. rewrite length_skipn. lia.
Qed.

Lemma concat_concat {A} (l : list (list (list A))) :
  concat (concat l) = concat (map (@concat A) l).
Proof.
  induction l as [|x l IH]; simpl; [reflexivity|].
  rewrite concat_app, IH. reflexivity.
Qed.

Lemma rect_concat {A} (b n m : nat) (x : list (list (list A))) :
  shape3 b n m x -> rect (b * n) m (concat x).
Proof.
  intros [Hb Hall]. split.
  - rewrite (concat_length_uniform n); [rewrite Hb; reflexivity|].
    eapply Forall_impl; [|exact Hall]. intros r [Hr _]; exact Hr.
  - apply Forall_concat. eapply Forall_impl; [|exact Hall].
    intros r [_ Hr]; exact Hr.
Qed.

Lemma infer_dim_ok (L c : nat) : 0 < c -> infer_dim (L * c) c = Ok L.
Proof.
  intros Hc. unfold infer_dim.
  destruct (c =? 0) eqn:E; [apply Nat.eqb_eq in E; lia|].
  rewrite Nat.Div0.mod_mul, Nat.eqb_refl, Nat.div_mul by lia. reflexivity.
Qed.

(** [view(b, -1, h, d)] of a well-shaped tensor cuts every row into its
    heads. *)
Lemma view4_ok (x : T3) (b L h d : nat) :
  shape3 b L (h * d) x -> 0 < b -> 0 < h -> 0 < d ->
  view4 x b h d = Ok (L, map (map (chunks h d)) x).
Proof.
  intros Hx Hb Hh Hd.
  pose proof (rect_concat _ _ _ _ Hx) as Hrect.
  remember (concat x) as rows eqn:Erows.
  destruct Hrect as [Hrows Hrow].
  assert (Hpieces : rect (b * L) h (map (chunks h d) rows)).
  { split; [rewrite length_map; exact Hrows|].
    apply Forall_map, Forall_forall. intros r _. apply chunks_length. }
  assert (Hvec : Forall (fun r => length r = d) (concat (map (chunks h d) rows))).
  { apply Forall_concat, Forall_map.
    eapply Forall_impl; [|exact Hrow]. intros r Hr.
    apply (chunks_rect h d r Hr). }
  assert (Hflat : concat (concat (map (chunks h d) rows)) = concat rows).
  { rewrite concat_concat, map_map. f_equal.
    rewrite <- (map_id rows) at 2. apply map_ext_in. intros r Hr.
    apply chunks_join. rewrite Forall_forall in Hrow. auto. }
  unfold view4. cbv zeta. rewrite <- Erows.
  assert (Hn : length (concat rows) = L * (b * h * d)).
  { rewrite (concat_length_uniform _ _ Hrow), Hrows. lia. }
  rewrite Hn, infer_dim_ok by (apply Nat.mul_pos_pos; [apply Nat.mul_pos_pos|]; lia).
  simpl. do 2 f_equal.
  rewrite <- Hflat.
  rewrite (chunks_concat' (b * L * h) d).
  2:{ destruct Hpieces as [Hl Hall].
      rewrite (concat_length_uniform h _ Hall), Hl. reflexivity. }
  2:{ exact Hvec. }
  rewrite (chunks_concat' (b * L) h) by apply Hpieces.
  subst rows. rewrite concat_map.
  apply chunks_concat'.
  - rewrite length_map. apply Hx.
  - apply Forall_map. destruct Hx as [_ Hall].
    eapply Forall_impl; [|exact Hall]. intros r [Hr _].
    rewrite length_map. exact Hr.
Qed.

(** [view(b, -1, h * d)] of a well-shaped four-dimensional tensor joins
    the heads of every position. *)
Lemma view3_ok (x : T4) (b L h d : nat) :
  shape4 b L h d x -> 0 < b -> 0 < h -> 0 < d ->
  view3 x b (h * d) = Ok (map (map (@concat scalar)) x).
Proof.
  intros [Hlen Hall] Hb Hh Hd.
  assert (Hx3 : shape3 b L h x).
  { split; [exact Hlen|]. eapply Forall_impl; [|exact Hall].
    intros y [Hy Hy']. split; [exact Hy|].
    eapply Forall_impl; [|exact Hy']. intros z [Hz _]; exact Hz. }
  pose proof (rect_concat _ _ _ _ Hx3) as [Htoks _].
  assert (Hrows : rect (b * L) (h * d) (map (@concat scalar) (concat x))).
  { split; [rewrite length_map; exact Htoks|].
    apply Forall_map, Forall_concat.
    eapply Forall_impl; [|exact Hall]. intros y [_ Hy].
    eapply Forall_impl; [|exact Hy]. intros z [Hz Hz'].
    rewrite (concat_length_uniform d _ Hz'), Hz. reflexivity. }
  unfold view3. cbv zeta. rewrite concat_concat.
  destruct Hrows as [Hrl Hrall].
  assert (Hn : length (concat (map (@concat scalar) (concat x))) = L * (b * (h * d))).
  { rewrite (concat_length_uniform _ _ Hrall), Hrl. lia. }
  rewrite Hn, infer_dim_ok by (apply Nat.mul_pos_pos; [|apply Nat.mul_pos_pos]; lia).
  simpl. f_equal.
  rewrite (chunks_concat' (b * L) (h * d)) by assumption.
  rewrite concat_map. apply chunks_concat'.
  - rewrite length_map. exact Hlen.
  - apply Forall_map. eapply Forall_impl; [|exact Hall].
    intros y [Hy _]. rewrite length_map. exact Hy.
Qed.

End TensorFacts.

(** ** [forward] under the causal mask, stage by stage *)

Module ShapeFacts.
Import Torch Tensor nn Spec TorchFacts TensorFacts.
Import MultiHeadAttention.

Lemma Forall_zip_with {A B C} (P : A -> Prop) (Q : B -> Prop) (R : C -> Prop)
  (f : A -> B -> C) (a : list A) (b : list B) :
  (forall x y, P x -> Q y -> R (f x y)) ->
  Forall P a -> Forall Q b -> Forall R (zip_with f a b).
Proof.
  intros Hf Ha; revert b; induction Ha as [|x a Hx Ha IH]; intros b Hb;
    destruct Hb as [|y b Hy Hb]; simpl; constructor; auto.
Qed.

Lemma zip_with_length_eq {A B C} (f : A -> B -> C) (a : list A) (b : list B)
  (n : nat) :
  length a = n -> length b = n -> length (zip_with f a b) = n.
Proof. intros Ha Hb. rewrite zip_with_length, Ha, Hb. apply Nat.min_id. Qed.

Lemma Linear_apply_length (l : Linear) (o : nat) (x : list scalar) :
  length (weight l) = o -> length (bias l) = o ->
  length (Linear_apply l x) = o.
Proof. intros; unfold Linear_apply; apply zip_with_length_eq; assumption. Qed.

Lemma Linear_forward_ok (l : Linear) (b n : nat) (x : list (list (list scalar))) :
  shape3 b n (in_features l) x -> Linear_forward l x = Ok (project l x).
Proof.
  intros [_ Hall]. unfold Linear_forward, project.
  apply traverse_map. intros xb Hxb.
  apply traverse_map. intros row Hrow.
  rewrite Forall_forall in Hall. destruct (Hall xb Hxb) as [_ Hrows].
  rewrite Forall_forall in Hrows. unfold Linear_row.
  rewrite (Hrows row Hrow), Nat.eqb_refl. reflexivity.
Qed.

Lemma project_shape (l : Linear) (b n m o : nat) (x : list (list (list scalar))) :
  length (weight l) = o -> length (bias l) = o ->
  shape3 b n m x -> shape3 b n o (project l x).
Proof.
  intros Hw Hb [Hlen Hall]. split; [unfold project; rewrite length_map; exact Hlen|].
  unfold project. apply Forall_map. eapply Forall_impl; [|exact Hall].
  intros xb [Hn _]. split; [rewrite length_map; exact Hn|].
  apply Forall_map, Forall_forall. intros row _.
  apply Linear_apply_length; assumption.
Qed.

Lemma transpose_length {A} (dflt : A) (n : nat) (m : list (list A)) :
  length (transpose dflt n m) = n.
Proof. unfold transpose. rewrite length_map, length_seq. reflexivity. Qed.

(** The head [c] of one sample: the slice [c] of every row. *)
Lemma transpose_chunks (h d : nat) (xb : list (list scalar)) :
  transpose [] h (map (chunks h d) xb)
  = map (fun c => map (fun row => nth c (chunks h d row) []) xb) (seq 0 h).
Proof.
  unfold transpose, column. apply map_ext. intros c. apply map_map.
Qed.

Lemma chunks_nth_length {A} (c s : nat) (l : list A) (i : nat) :
  length l = c * s -> i < c -> length (nth i (chunks c s l) []) = s.
Proof.
  intros Hl Hi. destruct (chunks_rect c s l Hl) as [Hlen Hall].
  rewrite Forall_forall in Hall. apply Hall. apply nth_In. lia.
Qed.

Lemma split_heads_shape (b n h d : nat) (x : list (list (list scalar))) :
  shape3 b n (h * d) x -> shape4 b h n d (split_heads h d x).
Proof.
  intros [Hlen Hall]. unfold split_heads, transpose12.
  split; [rewrite !length_map; exact Hlen|].
  rewrite map_map. apply Forall_map. eapply Forall_impl; [|exact Hall].
  intros xb [Hn Hrows]. rewrite transpose_chunks.
  split; [rewrite length_map, length_seq; reflexivity|].
  apply Forall_map, Forall_forall. intros c Hc. apply in_seq in Hc.
  split; [rewrite length_map; exact Hn|].
  apply Forall_map. eapply Forall_impl; [|exact Hrows].
  intros row Hrow. apply chunks_nth_length; [exact Hrow | lia].
Qed.

Lemma matmul_rows_shape (p n : nat) (a b : list (list scalar)) :
  length a = n -> rect n p (matmul_rows p a b).
Proof.
  intros Ha. unfold matmul_rows. split; [rewrite length_map; exact Ha|].
  apply Forall_map, Forall_forall. intros row _.
  rewrite length_map, length_seq. reflexivity.
Qed.

Lemma shape4_lengths {A} (b h n d : nat) (x : list (list (list (list A)))) :
  shape4 b h n d x ->
  length x = b /\
  Forall (fun xb => length xb = h /\ Forall (fun m => length m = n) xb) x.
Proof.
  intros [Hb Hall]. split; [exact Hb|].
  eapply Forall_impl; [|exact Hall]. intros xb [Hh Hm].
  split; [exact Hh|]. eapply Forall_impl; [|exact Hm]. intros m [Hn _]; exact Hn.
Qed.

Lemma scaled_scores_shape (scale : scalar) (b h n d p m : nat)
  (Q K : list (list (list (list scalar)))) :
  shape4 b h n d Q -> shape4 b h m d K ->
  shape4 b h n p (scaled_scores scale d p Q K).
Proof.
  intros HQ HK. apply shape4_lengths in HQ, HK.
  destruct HQ as [HQb HQ], HK as [HKb HK]. unfold scaled_scores.
  split.
  { rewrite length_map. apply zip_with_length_eq; [|rewrite length_map]; assumption. }
  apply Forall_map.
  eapply (Forall_zip_with _ (fun kb => length kb = h)); [|exact HQ|].
  2:{ apply Forall_map. eapply Forall_impl; [|exact HK].
      intros kb [Hk _]. rewrite length_map. exact Hk. }
  intros qb kb [Hq Hqm] Hk. split.
  { rewrite length_map. apply zip_with_length_eq; assumption. }
  apply Forall_map.
  eapply (Forall_zip_with _ (fun _ => True)); [|exact Hqm|].
  2:{ apply Forall_forall; auto. }
  intros qh kh Hqh _.
  destruct (matmul_rows_shape p n qh kh Hqh) as [Hl Hr].
  split; [rewrite length_map; exact Hl|].
  apply Forall_map. eapply Forall_impl; [|exact Hr].
  intros row Hrow. rewrite length_map. exact Hrow.
Qed.

Lemma blocked_causal_shape (b h n : nat) : shape4 b h n n (blocked_causal b h n).
Proof.
  unfold blocked_causal. split; [apply repeat_length|].
  apply Forall_forall. intros x Hx. apply repeat_spec in Hx. subst x.
  split; [apply repeat_length|].
  apply Forall_forall. intros x Hx. apply repeat_spec in Hx. subst x.
  split; [rewrite length_map, length_seq; reflexivity|].
  apply Forall_map, Forall_forall. intros i _.
  rewrite length_map, length_seq. reflexivity.
Qed.

Lemma fill_blocked_shape (b h n p : nat)
  (S : list (list (list (list scalar)))) (blocked : list (list (list (list bool)))) :
  shape4 b h n p S -> shape4 b h n p blocked ->
  shape4 b h n p (fill_blocked S blocked).
Proof.
  intros [HSb HS] [HBb HB]. unfold fill_blocked.
  split; [apply zip_with_length_eq; assumption|].
  eapply Forall_zip_with; [|exact HS|exact HB].
  intros sb bb [Hsh Hs] [Hbh Hbm].
  split; [apply zip_with_length_eq; assumption|].
  eapply Forall_zip_with; [|exact Hs|exact Hbm].
  intros sm bm [Hsn Hsr] [Hbn Hbr].
  split; [apply zip_with_length_eq; assumption|].
  eapply Forall_zip_with; [|exact Hsr|exact Hbr].
  intros row brow Hrow Hbrow. unfold masked_fill_row.
  apply zip_with_length_eq; assumption.
Qed.

Lemma softmax_shape (b h n p : nat) (S : list (list (list (list scalar)))) :
  shape4 b h n p S -> shape4 b h n p (map (map (map softmax)) S).
Proof.
  intros [HSb HS]. split; [rewrite length_map; exact HSb|].
  apply Forall_map. eapply Forall_impl; [|exact HS].
  intros sb [Hsh Hs]. split; [rewrite length_map; exact Hsh|].
  apply Forall_map. eapply Forall_impl; [|exact Hs].
  intros sm [Hsn Hsr]. split; [rewrite length_map; exact Hsn|].
  apply Forall_map. eapply Forall_impl; [|exact Hsr].
  intros row Hrow. rewrite SamplingFacts.softmax_length. exact Hrow.
Qed.

Lemma attend_shape (b h n p d m : nat) (W V : list (list (list (list scalar)))) :
  shape4 b h n p W -> shape4 b h m d V -> shape4 b h n d (attend d W V).
Proof.
  intros HW HV. apply shape4_lengths in HW, HV.
  destruct HW as [HWb HW], HV as [HVb HV]. unfold attend.
  split; [apply zip_with_length_eq; assumption|].
  eapply Forall_zip_with; [|exact HW|exact HV].
  intros wb vb [Hwh Hw] [Hvh _].
  split; [apply zip_with_length_eq; assumption|].
  eapply (Forall_zip_with _ (fun _ => True)); [|exact Hw|].
  2:{ apply Forall_forall; auto. }
  intros wm vm Hwm _. apply matmul_rows_shape. exact Hwm.
Qed.

Lemma transpose12_shape (b h n d : nat) (A : list (list (list (list scalar)))) :
  shape4 b h n d A -> shape4 b n h d (transpose12 n A).
Proof.
  intros [HAb HA]. unfold transpose12.
  split; [rewrite length_map; exact HAb|].
  apply Forall_map. eapply Forall_impl; [|exact HA].
  intros ab [Hh Hm]. split; [apply transpose_length|].
  unfold transpose. apply Forall_map, Forall_forall. intros i Hi.
  apply in_seq in Hi. unfold column.
  split; [rewrite length_map; exact Hh|].
  apply Forall_map. eapply Forall_impl; [|exact Hm].
  intros m [Hn Hr]. rewrite Forall_forall in Hr. apply Hr.
  apply nth_In. lia.
Qed.

Lemma merge_heads_shape (b h n d : nat) (A : list (list (list (list scalar)))) :
  shape4 b h n d A -> shape3 b n (h * d) (merge_heads n A).
Proof.
  intros HA. apply transpose12_shape in HA. destruct HA as [Hb Hall].
  unfold merge_heads. split; [rewrite length_map; exact Hb|].
  apply Forall_map. eapply Forall_impl; [|exact Hall].
  intros tb [Hn Ht]. split; [rewrite length_map; exact Hn|].
  apply Forall_map. eapply Forall_impl; [|exact Ht].
  intros tok [Hh Hv]. rewrite (concat_length_uniform d _ Hv), Hh. reflexivity.
Qed.

End ShapeFacts.

Module ForwardFacts.
Import Torch Tensor nn Spec TorchFacts TensorFacts ShapeFacts.
Import MultiHeadAttention.

Lemma expand_singleton {A} (n : nat) (x : A) : expand n [x] = Ok (repeat x n).
Proof.
  unfold expand. destruct (length [x] =? n) eqn:E; [|reflexivity].
  apply Nat.eqb_eq in E. simpl in E. subst n. reflexivity.
Qed.

Lemma expand_exact {A} (n : nat) (l : list A) : length l = n -> expand n l = Ok l.
Proof. intros H. unfold expand. rewrite H, Nat.eqb_refl. reflexivity. Qed.

Lemma traverse_repeat {A B} (f : A -> res B) (x : A) (y : B) (n : nat) :
  f x = Ok y -> traverse f (repeat x n) = Ok (repeat y n).
Proof.
  intros H. rewrite (traverse_map f (fun _ => y)).
  - rewrite map_repeat. reflexivity.
  - intros z Hz. apply repeat_spec in Hz. subst z. exact H.
Qed.

(** The causal mask of the model broadcasts to every sample and head. *)
Lemma masked_fill_causal (b h n : nat) (scores : list (list (list (list scalar)))) :
  masked_fill b h n n scores (causal_mask n)
  = Ok (fill_blocked scores (blocked_causal b h n)).
Proof.
  unfold masked_fill, causal_mask, expand4. cbn [map].
  rewrite expand_singleton. cbn [res_bind].
  set (rows := map (map negb) (map (fun i => map (fun j => j <=? i) (seq 0 n)) (seq 0 n))).
  assert (Hrows : rows = map (fun i => map (fun j => negb (j <=? i)) (seq 0 n)) (seq 0 n)).
  { unfold rows. rewrite map_map. apply map_ext. intros i. apply map_map. }
  assert (Hinner : (m1 <~ expand h [rows] ;;
                    traverse (fun x2 => m2 <~ expand n x2 ;; traverse (expand n) m2) m1)%monad
                   = Ok (repeat rows h)).
  { rewrite expand_singleton. cbn [res_bind].
    apply traverse_repeat.
    rewrite expand_exact by (rewrite Hrows, length_map, length_seq; reflexivity).
    cbn [res_bind]. apply traverse_id. intros row Hrow.
    apply expand_exact. rewrite Hrows in Hrow. apply in_map_iff in Hrow.
    destruct Hrow as (i & <- & _). rewrite length_map, length_seq. reflexivity. }
  rewrite (traverse_repeat _ [rows] (repeat rows h) b Hinner).
  cbn [res_bind]. unfold blocked_causal. rewrite Hrows. reflexivity.
Qed.

Lemma size_arg_of_nat (n : nat) : size_arg (Z.of_nat n) = Ok n.
Proof.
  unfold size_arg. destruct (Z.of_nat n <? 0)%Z eqn:E.
  - apply Z.ltb_lt in E. lia.
  - rewrite Nat2Z.id. reflexivity.
Qed.

(** On well-shaped inputs [forward] under the causal mask is the
    composition of its stages. *)
Lemma forward_causal_closed (self : t) (h d b n : nat)
  (query key value : list (list (list scalar))) :
  wf_module self h d -> 0 < b ->
  shape3 b n (h * d) query -> shape3 b n (h * d) key ->
  shape3 b n (h * d) value ->
  forward self query key value (Some (causal_mask n))
  = Ok (causal_attention self h d n query key value).
Proof.
  intros (Hnh & Hhd & Hhs & Hh & Hd & Hin & Hw & Hb & Hfc) Hpos Hq Hk Hv.
  assert (Hq' := Hq). assert (Hk' := Hk). assert (Hv' := Hv).
  rewrite <- Hin in Hq', Hk', Hv'.
  pose proof (project_shape (MultiHeadAttention.query self) b n _ (h * d) _ Hw Hb Hq) as HQ.
  pose proof (project_shape (MultiHeadAttention.query self) b n _ (h * d) _ Hw Hb Hk) as HK.
  pose proof (project_shape (MultiHeadAttention.query self) b n _ (h * d) _ Hw Hb Hv) as HV.
  unfold forward.
  rewrite (Linear_forward_ok _ b n _ Hq'). cbn [res_bind].
  rewrite (Linear_forward_ok _ b n _ Hk'). cbn [res_bind].
  rewrite (Linear_forward_ok _ b n _ Hv'). cbn [res_bind].
  rewrite Hnh, Hhd, Hhs, !size_arg_of_nat. cbn [res_bind].
  destruct Hq as [Hqlen _]. rewrite Hqlen.
  rewrite (view4_ok _ b n h d HQ Hpos Hh Hd). cbn [res_bind].
  rewrite (view4_ok _ b n h d HK Hpos Hh Hd). cbn [res_bind].
  rewrite (view4_ok _ b n h d HV Hpos Hh Hd). cbn [res_bind].
  unfold matmul4. rewrite !Nat.eqb_refl. cbn [res_bind].
  rewrite masked_fill_causal. cbn [res_bind].
  fold (split_heads h d (project (MultiHeadAttention.query self) query)).
  fold (split_heads h d (project (MultiHeadAttention.query self) key)).
  fold (split_heads h d (project (MultiHeadAttention.query self) value)).
  pose proof (split_heads_shape b n h d _ HQ) as HQ4.
  pose proof (split_heads_shape b n h d _ HK) as HK4.
  pose proof (split_heads_shape b n h d _ HV) as HV4.
  set (Q := split_heads h d (project (MultiHeadAttention.query self) query)) in *.
  set (K := split_heads h d (project (MultiHeadAttention.query self) key)) in *.
  set (V := split_heads h d (project (MultiHeadAttention.query self) value)) in *.
  fold (scaled_scores (scale self) d n Q K).
  fold (attend d (map (map (map softmax))
                    (fill_blocked (scaled_scores (scale self) d n Q K)
                       (blocked_causal b h n))) V).
  pose proof (scaled_scores_shape (scale self) b h n d n n Q K HQ4 HK4) as HS.
  pose proof (fill_blocked_shape b h n n _ _ HS (blocked_causal_shape b h n)) as HM.
  pose proof (softmax_shape b h n n _ HM) as HW.
  pose proof (attend_shape b h n n d n _ V HW HV4) as HA.
  rewrite (view3_ok _ b n h d (transpose12_shape b h n d _ HA) Hpos Hh Hd).
  cbn [res_bind].
  fold (merge_heads n (attend d (map (map (map softmax))
                    (fill_blocked (scaled_scores (scale self) d n Q K)
                       (blocked_causal b h n))) V)).
  pose proof (merge_heads_shape b h n d _ HA) as Hmerged.
  rewrite <- Hfc in Hmerged.
  rewrite (Linear_forward_ok _ b n _ Hmerged). cbn [res_bind].
  unfold causal_attention. rewrite Hqlen. reflexivity.
Qed.

End ForwardFacts.

(** ** Two runs of [forward] under the causal mask *)

Module RelFacts.
Import Torch Tensor nn Spec TorchFacts TensorFacts ShapeFacts.

Lemma Forall2_map2 {A A' B B'} (R : A -> A' -> Prop) (S : B -> B' -> Prop)
  (f : A -> B) (g : A' -> B') (a : list A) (a' : list A') :
  (forall x y, R x y -> S (f x) (g y)) ->
  Forall2 R a a' -> Forall2 S (map f a) (map g a').
Proof. intros H; induction 1; simpl; constructor; auto. Qed.

Lemma Forall2_zip_with {A A' B B' C C'} (R : A -> A' -> Prop)
  (S : B -> B' -> Prop) (T : C -> C' -> Prop)
  (f : A -> B -> C) (g : A' -> B' -> C')
  (a : list A) (a' : list A') (b : list B) (b' : list B') :
  (forall x x' y y', R x x' -> S y y' -> T (f x y) (g x' y')) ->
  Forall2 R a a' -> Forall2 S b b' ->
  Forall2 T (zip_with f a b) (zip_with g a' b').
Proof.
  intros H Ha; revert b b'; induction Ha; intros b b' Hb; destruct Hb;
    simpl; constructor; auto.
Qed.

Lemma Forall2_diag {A} (R : A -> A -> Prop) (l : list A) :
  (forall x, In x l -> R x x) -> Forall2 R l l.
Proof.
  induction l as [|x l IH]; intros H; constructor.
  - apply H; left; reflexivity.
  - apply IH; intros; apply H; right; assumption.
Qed.

Lemma Forall2_with {A B} (R : A -> B -> Prop) (P : A -> Prop) (Q : B -> Prop)
  (a : list A) (b : list B) :
  Forall2 R a b -> Forall P a -> Forall Q b ->
  Forall2 (fun x y => R x y /\ P x /\ Q y) a b.
Proof.
  induction 1; intros Ha Hb; constructor;
    inversion Ha; inversion Hb; subst; auto.
Qed.

Lemma Forall2_nth_intro {A B} (R : A -> B -> Prop) (a : list A) (b : list B)
  (da : A) (db : B) :
  length a = length b ->
  (forall n, n < length a -> R (nth n a da) (nth n b db)) -> Forall2 R a b.
Proof.
  revert b; induction a as [|x a IH]; intros [|y b] Hlen H; simpl in *;
    try discriminate; constructor.
  - apply (H 0). lia.
  - apply IH; [lia|]. intros n Hn. apply (H (S n)). lia.
Qed.

Lemma Forall2_nth_elim {A B} (R : A -> B -> Prop) (a : list A) (b : list B)
  (da : A) (db : B) (n : nat) :
  Forall2 R a b -> n < length a -> R (nth n a da) (nth n b db).
Proof.
  intros H; revert n; induction H; intros [|n] Hn; simpl in *; try lia; auto.
  apply IHForall2. lia.
Qed.

Lemma Forall2_map_eq {A A' B} (f : A -> B) (g : A' -> B)
  (a : list A) (a' : list A') :
  Forall2 (fun x y => f x = g y) a a' -> map f a = map g a'.
Proof. induction 1; simpl; congruence. Qed.

Lemma nth_error_zip_with {A B C} (f : A -> B -> C) (a : list A) (b : list B)
  (j : nat) :
  nth_error (zip_with f a b) j =
    match nth_error a j, nth_error b j with
    | Some x, Some y => Some (f x y)
    | _, _ => None
    end.
Proof.
  revert b j; induction a as [|x a IH]; intros b j.
  - destruct b, j; reflexivity.
  - destruct b as [|y b].
    + destruct j; simpl; [reflexivity|]. destruct (nth_error a j); reflexivity.
    + destruct j; simpl; [reflexivity | apply IH].
Qed.

Lemma nth_map_default {A B} (g : A -> B) (l : list A) (j : nat) (dflt : B) :
  nth j (map g l) dflt =
    match nth_error l j with Some x => g x | None => dflt end.
Proof.
  revert j; induction l as [|x l IH]; intros [|j]; simpl; auto.
Qed.

Lemma same_row_map {A B} (f : A -> B) (i : nat) (M M' : list A) :
  same_row i M M' -> same_row i (map f M) (map f M').
Proof.
  intros (r & H & H'). exists (f r).
  rewrite !nth_error_map, H, H'. auto.
Qed.

Lemma agree_map {A B} (f : A -> B) (i : nat) (M M' : list A) :
  agree i M M' -> agree i (map f M) (map f M').
Proof.
  intros [Hlen H]. split; [rewrite !length_map; exact Hlen|].
  intros j Hj. rewrite !nth_error_map, (H j Hj). reflexivity.
Qed.

(** Finiteness through the projection and the cut into heads. *)
Lemma fold_fadd_finite_acc (l : list scalar) (acc : scalar) :
  Forall finite l -> finite acc -> finite (fold_left fadd l acc).
Proof.
  intros Hl; revert acc; induction Hl as [|x l [r ->] _ IH]; intros acc Ha;
    simpl; [exact Ha|].
  apply IH. destruct Ha as [a ->]. eexists; reflexivity.
Qed.

Lemma dot_finite (x w : list scalar) :
  Forall finite x -> Forall finite w -> finite (dot x w).
Proof.
  intros Hx Hw. unfold dot. apply fold_fadd_finite_acc; [|eexists; reflexivity].
  eapply Forall_zip_with; [|exact Hx|exact Hw].
  intros a b [r ->] [s ->]. eexists; reflexivity.
Qed.

Lemma Linear_apply_finite (l : Linear) (x : list scalar) :
  finite_linear l -> Forall finite x -> Forall finite (Linear_apply l x).
Proof.
  intros [Hw Hb] Hx. unfold Linear_apply.
  eapply Forall_zip_with; [|exact Hw|exact Hb].
  intros w b Hwf [s ->].
  destruct (dot_finite x w Hx Hwf) as [r ->]. eexists; reflexivity.
Qed.

Lemma chunks_incl {A} (c s : nat) (l : list A) (v : list A) (x : A) :
  In v (chunks c s l) -> In x v -> In x l.
Proof.
  revert l; induction c as [|c IH]; intros l Hv Hx; simpl in *; [contradiction|].
  destruct Hv as [<-|Hv].
  - rewrite <- (firstn_skipn s l). apply in_or_app; left; exact Hx.
  - rewrite <- (firstn_skipn s l). apply in_or_app; right. eapply IH; eauto.
Qed.

Lemma head_finite (h d c : nat) (row : list scalar) :
  Forall finite row -> Forall finite (nth c (chunks h d row) []).
Proof.
  intros Hrow. apply Forall_forall. intros x Hx.
  destruct (Nat.lt_ge_cases c h) as [Hc|Hc].
  - rewrite Forall_forall in Hrow. apply Hrow.
    eapply chunks_incl; [|exact Hx]. apply nth_In. rewrite chunks_length. exact Hc.
  - rewrite nth_overflow in Hx by (rewrite chunks_length; exact Hc). contradiction.
Qed.

End RelFacts.

Module CausalFacts.
Import Torch Tensor nn Spec TorchFacts TensorFacts ShapeFacts ForwardFacts
  RelFacts SamplingFacts.
Import MultiHeadAttention.

Lemma Forall2_map2_2 {A A' B B'} (R : A -> A' -> Prop) (S : B -> B' -> Prop)
  (f : A -> B) (g : A' -> B') (a : list (list A)) (a' : list (list A')) :
  (forall x y, R x y -> S (f x) (g y)) ->
  Forall2 (Forall2 R) a a' -> Forall2 (Forall2 S) (map (map f) a) (map (map g) a').
Proof.
  intros H. apply Forall2_map2. intros x y. apply Forall2_map2. exact H.
Qed.

Lemma Forall2_zip_with_2 {A A' B B' C C'} (R : A -> A' -> Prop)
  (S : B -> B' -> Prop) (T : C -> C' -> Prop)
  (f : A -> B -> C) (g : A' -> B' -> C')
  (a : list (list A)) (a' : list (list A'))
  (b : list (list B)) (b' : list (list B')) :
  (forall x x' y y', R x x' -> S y y' -> T (f x y) (g x' y')) ->
  Forall2 (Forall2 R) a a' -> Forall2 (Forall2 S) b b' ->
  Forall2 (Forall2 T) (zip_with (zip_with f) a b) (zip_with (zip_with g) a' b').
Proof.
  intros H. apply Forall2_zip_with. intros x x' y y'.
  apply Forall2_zip_with. exact H.
Qed.

(** The column [j] of a transposed key matrix reads row [j] only. *)
Lemma column_transpose_agree (i j d : nat) (K K' : list (list scalar)) :
  agree i K K' -> j <= i ->
  column NaN j (transpose NaN d K) = column NaN j (transpose NaN d K').
Proof.
  intros [_ H] Hj. unfold column, transpose. rewrite !map_map.
  apply map_ext. intros e. unfold column.
  rewrite !nth_map_default, (H j Hj). reflexivity.
Qed.

(** Scores: row [i] agrees up to column [i]. *)
Lemma scores_rel (scale : scalar) (i n d : nat) (Q Q' K K' : list (list scalar)) :
  i < n -> same_row i Q Q' -> agree i K K' ->
  rel_scores i n
    (map (map (fun x => fdiv x scale)) (matmul_rows n Q (transpose NaN d K)))
    (map (map (fun x => fdiv x scale)) (matmul_rows n Q' (transpose NaN d K'))).
Proof.
  intros Hi (q & Hq & Hq') HK.
  exists (map (fun x => fdiv x scale)
            (map (fun c => dot q (column NaN c (transpose NaN d K))) (seq 0 n))),
         (map (fun x => fdiv x scale)
            (map (fun c => dot q (column NaN c (transpose NaN d K'))) (seq 0 n))).
  unfold matmul_rows. rewrite !nth_error_map, Hq, Hq'. cbn [option_map].
  split; [reflexivity|]. split; [reflexivity|].
  split; [rewrite !length_map, length_seq; reflexivity|].
  split; [rewrite !length_map, length_seq; reflexivity|].
  split; [rewrite !length_map; reflexivity|].
  intros j Hj. rewrite !nth_error_map, nth_error_seq.
  destruct (j <? n); [|reflexivity]. cbn [option_map Nat.add].
  rewrite (column_transpose_agree i j d K K' HK Hj). reflexivity.
Qed.

(** Weights: after the mask and the softmax, row [i] is the same in both
    runs and holds nothing on the future. *)
Lemma weights_rel (i n : nat) (S S' : list (list scalar)) :
  i < n -> rel_scores i n S S' ->
  let rows := map (fun r => map (fun j => negb (j <=? r)) (seq 0 n)) (seq 0 n) in
  rel_weights i n
    (map softmax (zip_with (masked_fill_row NegInf) S rows))
    (map softmax (zip_with (masked_fill_row NegInf) S' rows)).
Proof.
  intros Hi (r & r' & Hr & Hr' & Hl & Hl' & [_ Hag]) rows.
  set (brow := map (fun j => negb (j <=? i)) (seq 0 n)).
  assert (Hrows : nth_error rows i = Some brow).
  { unfold rows. rewrite nth_error_map, nth_error_seq.
    rewrite (proj2 (Nat.ltb_lt i n) Hi). reflexivity. }
  assert (Hbrow : forall j, nth_error brow j =
            if j <? n then Some (negb (j <=? i)) else None).
  { intros j. unfold brow. rewrite nth_error_map, nth_error_seq.
    destruct (j <? n); reflexivity. }
  assert (Heq : masked_fill_row NegInf r' brow = masked_fill_row NegInf r brow).
  { apply nth_error_ext. intros j. unfold masked_fill_row.
    rewrite !nth_error_zip_with, Hbrow.
    destruct (j <? n) eqn:Ej.
    - destruct (j <=? i) eqn:Eji.
      + apply Nat.leb_le in Eji. rewrite (Hag j Eji). reflexivity.
      + cbn [negb]. apply Nat.ltb_lt in Ej.
        destruct (nth_error r j) eqn:E1; destruct (nth_error r' j) eqn:E2;
          try reflexivity.
        * apply nth_error_None in E2. lia.
        * apply nth_error_None in E1. lia.
    - destruct (nth_error r j), (nth_error r' j); reflexivity. }
  exists (softmax (masked_fill_row NegInf r brow)).
  rewrite !nth_error_map, !nth_error_zip_with, Hr, Hr', Hrows, Heq.
  cbn [option_map].
  split; [reflexivity|]. split; [reflexivity|].
  assert (Hlen : length (masked_fill_row NegInf r brow) = n).
  { unfold masked_fill_row. apply zip_with_length_eq; [exact Hl|].
    unfold brow. rewrite length_map, length_seq. reflexivity. }
  split; [rewrite softmax_length; exact Hlen|].
  intros j Hij Hj. rewrite softmax_length, Hlen in Hj.
  apply softmax_neginf. unfold masked_fill_row.
  rewrite nth_error_zip_with, Hbrow, (proj2 (Nat.ltb_lt j n) Hj).
  destruct (nth_error r j) eqn:E1.
  - rewrite (proj2 (Nat.leb_gt j i) Hij). reflexivity.
  - apply nth_error_None in E1. lia.
Qed.

Lemma finite_rect_entry (n d : nat) (V : list (list scalar)) (j e : nat) :
  finite_rect n d V -> j < n -> e < d ->
  exists row x, nth_error V j = Some row /\ nth e row NaN = Finite x.
Proof.
  intros [[Hn Hd] Hfin] Hj He.
  destruct (nth_error V j) as [row|] eqn:E.
  2:{ apply nth_error_None in E. lia. }
  apply nth_error_In in E as Hin.
  rewrite Forall_forall in Hd, Hfin.
  specialize (Hd row Hin). specialize (Hfin row Hin).
  rewrite Forall_forall in Hfin.
  destruct (Hfin (nth e row NaN)) as [x Hx]; [apply nth_In; lia|].
  eauto.
Qed.

(** The weighted sum: row [i] of the output of a head is the same in both
    runs. *)
Lemma attend_rel (i n d : nat) (W W' V V' : list (list scalar)) :
  rel_weights i n W W' -> rel_value i n d V V' ->
  same_row i (matmul_rows d W V) (matmul_rows d W' V').
Proof.
  intros (w & Hw & Hw' & Hl & Htail) ([_ Hag] & HV & HV').
  exists (map (fun e => dot w (column NaN e V)) (seq 0 d)).
  unfold matmul_rows. rewrite !nth_error_map, Hw, Hw'. cbn [option_map].
  split; [reflexivity|]. f_equal.
  apply map_ext_in. intros e He. apply in_seq in He.
  unfold dot. f_equal. apply nth_error_ext. intros j.
  rewrite !nth_error_zip_with. unfold column. rewrite !nth_error_map.
  destruct (nth_error w j) as [wj|] eqn:Ew; [|reflexivity].
  assert (Hj : j < n).
  { rewrite <- Hl. apply nth_error_Some. congruence. }
  destruct (Nat.le_gt_cases j i) as [Hji|Hji].
  - rewrite (Hag j Hji). reflexivity.
  - destruct (finite_rect_entry n d V j e HV Hj) as (row & x & Hrow & Hx); [lia|].
    destruct (finite_rect_entry n d V' j e HV' Hj) as (row' & x' & Hrow' & Hx'); [lia|].
    rewrite Hrow, Hrow'. cbn [option_map]. rewrite Hx, Hx'.
    destruct (Htail j Hji) as [E|E]; [rewrite Hl; exact Hj | |];
      rewrite E in Ew; inversion Ew; subst wj; cbn [fmul].
    + rewrite !Rmult_0_l. reflexivity.
    + reflexivity.
Qed.

(** Joining the heads and the output projection keep row [i]. *)
Lemma merged_rel (fc : Linear) (i n : nat) (A A' : list (list (list scalar))) :
  i < n -> Forall2 (same_row i) A A' ->
  same_row i (map (Linear_apply fc) (map (@concat scalar) (transpose [] n A)))
             (map (Linear_apply fc) (map (@concat scalar) (transpose [] n A'))).
Proof.
  intros Hi HA. apply same_row_map, same_row_map.
  exists (column [] i A). unfold transpose.
  rewrite !nth_error_map, nth_error_seq, (proj2 (Nat.ltb_lt i n) Hi).
  cbn [option_map Nat.add]. split; [reflexivity|]. f_equal.
  unfold column. symmetry. apply Forall2_map_eq.
  eapply Forall2_impl; [|exact HA].
  intros m m' (r & Hr & Hr').
  rewrite (nth_error_nth _ _ [] Hr), (nth_error_nth _ _ [] Hr'). reflexivity.
Qed.

(** The heads of one projected sample, for a relation that row-wise maps
    keep. *)
Lemma heads_rel (R : list (list scalar) -> list (list scalar) -> Prop)
  (l : Linear) (h d : nat) (x x' : list (list scalar)) :
  (forall (f : list scalar -> list scalar) M M', R M M' -> R (map f M) (map f M')) ->
  R x x' ->
  Forall2 R (transpose [] h (map (chunks h d) (map (Linear_apply l) x)))
            (transpose [] h (map (chunks h d) (map (Linear_apply l) x'))).
Proof.
  intros Hmap Hx. rewrite !transpose_chunks.
  apply (Forall2_map2 eq); [|apply Forall2_diag; reflexivity].
  intros c c' <-. apply Hmap, Hmap. exact Hx.
Qed.

Lemma value_heads_rel (l : Linear) (h d n i : nat) (v v' : list (list scalar)) :
  length (weight l) = h * d -> length (bias l) = h * d ->
  length v = n -> length v' = n ->
  Forall (Forall finite) (map (Linear_apply l) v) ->
  Forall (Forall finite) (map (Linear_apply l) v') -> agree i v v' ->
  Forall2 (rel_value i n d)
    (transpose [] h (map (chunks h d) (map (Linear_apply l) v)))
    (transpose [] h (map (chunks h d) (map (Linear_apply l) v'))).
Proof.
  intros Hw Hb Hn Hn' Hf Hf' Hag. rewrite !transpose_chunks.
  apply (Forall2_map2 (fun c c' => c = c' /\ c < h)).
  2:{ apply Forall2_diag. intros c Hc. apply in_seq in Hc. split; [reflexivity | lia]. }
  intros c c' [<- Hc].
  assert (Hfr : forall u, length u = n ->
            Forall (Forall finite) (map (Linear_apply l) u) ->
            finite_rect n d
              (map (fun row => nth c (chunks h d row) []) (map (Linear_apply l) u))).
  { intros u Hu Hfu. split; [split|].
    - rewrite !length_map. exact Hu.
    - rewrite map_map. apply Forall_map, Forall_forall. intros row _.
      apply chunks_nth_length; [|exact Hc].
      apply Linear_apply_length; assumption.
    - rewrite Forall_map in Hfu. rewrite map_map. apply Forall_map.
      eapply Forall_impl; [|exact Hfu]. intros row Hrow.
      apply head_finite. exact Hrow. }
  split; [apply agree_map, agree_map; exact Hag|].
  split; apply Hfr; assumption.
Qed.

End CausalFacts.

Module CausalClaim.
Import Torch Tensor nn Spec TorchFacts TensorFacts ShapeFacts ForwardFacts
  RelFacts SamplingFacts CausalFacts.
Import MultiHeadAttention.

(** Row [i] of the output of the stages depends on the query at position
    [i] and on the keys and values up to position [i]. *)
Lemma causal_attention_rel (self : t) (h d b n i : nat)
  (query key value query' key' value' : list (list (list scalar))) :
  wf_module self h d -> i < n ->
  length query = b -> length query' = b ->
  shape3 b n (h * d) value -> shape3 b n (h * d) value' ->
  finite3 (project (MultiHeadAttention.query self) value) ->
  finite3 (project (MultiHeadAttention.query self) value') ->
  Forall2 (same_row i) query query' ->
  Forall2 (agree i) key key' ->
  Forall2 (agree i) value value' ->
  Forall2 (same_row i)
    (causal_attention self h d n query key value)
    (causal_attention self h d n query' key' value').
Proof.
  intros (Hnh & Hhd & Hhs & Hh & Hd & Hin & Hw & Hb & Hfc) Hi
    Hql Hql' [_ Hv] [_ Hv'] Hfv Hfv' HQ HK HV.
  unfold finite3, project in Hfv, Hfv'. rewrite Forall_map in Hfv, Hfv'.
  unfold causal_attention. rewrite Hql, Hql'. cbv zeta.
  match goal with
  | |- Forall2 _ (project _ (merge_heads _ ?A)) (project _ (merge_heads _ ?A')) =>
      set (X := A); set (X' := A')
  end.
  unfold project, merge_heads, transpose12. rewrite !map_map.
  apply (Forall2_map2 (Forall2 (same_row i))).
  { intros A A' HA. apply merged_rel; assumption. }
  subst X X'. unfold attend.
  apply (Forall2_zip_with_2 (rel_weights i n) (rel_value i n d)).
  { intros W W' V V'. apply attend_rel. }
  - (* the attention weights *)
    unfold fill_blocked, blocked_causal.
    set (rows := map (fun r => map (fun j => negb (j <=? r)) (seq 0 n)) (seq 0 n)).
    apply (Forall2_map2_2
             (fun x y => rel_weights i n (map softmax x) (map softmax y))).
    { intros x y H; exact H. }
    apply (Forall2_zip_with_2 (rel_scores i n)
             (fun u v => u = rows /\ v = rows)).
    { intros S S' u u' HS [-> ->]. apply weights_rel; assumption. }
    2:{ apply Forall2_diag. intros x Hx. apply repeat_spec in Hx. subst x.
        apply Forall2_diag. intros x Hx. apply repeat_spec in Hx. subst x.
        split; reflexivity. }
    unfold scaled_scores.
    apply (Forall2_map2_2
             (fun x y => rel_scores i n
                           (map (map (fun z => fdiv z (scale self))) x)
                           (map (map (fun z => fdiv z (scale self))) y))).
    { intros x y H; exact H. }
    apply (Forall2_zip_with_2 (same_row i)
             (fun t t' => exists K K', t = transpose NaN d K /\
                                       t' = transpose NaN d K' /\ agree i K K')).
    { intros Q Q' t t' HQ' (K & K' & -> & -> & HK').
      apply scores_rel; assumption. }
    + unfold split_heads, project, transpose12. rewrite !map_map.
      apply (Forall2_map2 (same_row i)); [|exact HQ].
      intros x x' Hx. apply heads_rel; [|exact Hx].
      intros f M M'. apply same_row_map.
    + apply (Forall2_map2_2 (agree i)).
      { intros K K' HK'. exists K, K'. auto. }
      unfold split_heads, project, transpose12. rewrite !map_map.
      apply (Forall2_map2 (agree i)); [|exact HK].
      intros x x' Hx. apply heads_rel; [|exact Hx].
      intros f M M'. apply agree_map.
  - (* the values *)
    unfold split_heads, project, transpose12. rewrite !map_map.
    assert (Hboth : Forall2 (fun x y => agree i x y /\
                       (rect n (h * d) x /\
                        Forall (Forall finite)
                          (map (Linear_apply (MultiHeadAttention.query self)) x)) /\
                       (rect n (h * d) y /\
                        Forall (Forall finite)
                          (map (Linear_apply (MultiHeadAttention.query self)) y)))
                      value value').
    { apply Forall2_with; [exact HV| |]; apply Forall_and; assumption. }
    eapply Forall2_map2; [|exact Hboth].
    intros x y (Hag & [[Hx _] Hfx] & [[Hy _] Hfy]).
    apply value_heads_rel; assumption.
Qed.

(** C8: under the causal mask the output at position [i] is the same for
    two runs whose queries agree at position [i] and whose keys and values
    agree up to position [i], whatever finite numbers the projected values
    hold at later positions.  The projected values have to be finite: a
    masked position has weight zero, and zero times an infinity or a NaN
    is NaN. *)
Theorem causal_mask_hides_future (self : t) (h d b n i : nat)
  (query key value query' key' value' : list (list (list scalar))) :
  wf_module self h d -> 0 < b -> i < n ->
  shape3 b n (h * d) query -> shape3 b n (h * d) key ->
  shape3 b n (h * d) value ->
  shape3 b n (h * d) query' -> shape3 b n (h * d) key' ->
  shape3 b n (h * d) value' ->
  finite3 (project (MultiHeadAttention.query self) value) ->
  finite3 (project (MultiHeadAttention.query self) value') ->
  Forall2 (same_row i) query query' ->
  Forall2 (agree i) key key' ->
  Forall2 (agree i) value value' ->
  exists output output',
    forward self query key value (Some (causal_mask n)) = Ok output /\
    forward self query' key' value' (Some (causal_mask n)) = Ok output' /\
    Forall2 (same_row i) output output'.
Proof.
  intros Hwf Hb Hi Hq Hk Hv Hq' Hk' Hv' Hfv Hfv' HQ HK HV.
  exists (causal_attention self h d n query key value),
         (causal_attention self h d n query' key' value').
  split; [apply (forward_causal_closed self h d b n); assumption|].
  split; [apply (forward_causal_closed self h d b n); assumption|].
  apply (causal_attention_rel self h d b n i); try assumption.
  - apply Hq.
  - apply Hq'.
Qed.

Lemma tiny_shape (x y : R) : shape3 1 2 (1 * 1) [[[Finite x]; [Finite y]]].
Proof. repeat (split || constructor). Qed.

Lemma tiny_finite (x y : R) : finite3 [[[Finite x]; [Finite y]]].
Proof. repeat constructor; eexists; reflexivity. Qed.

Lemma tiny_agree : Forall2 (agree 0) tiny_input tiny_input'.
Proof.
  repeat constructor. intros j Hj. replace j with 0 by lia. reflexivity.
Qed.

Lemma tiny_same_row : Forall2 (same_row 0) tiny_input tiny_input'.
Proof. repeat constructor. exists [Finite 1]. split; reflexivity. Qed.

Lemma tiny_wf : wf_module tiny_attention 1 1.
Proof. repeat split; auto. Qed.

Lemma tiny_finite_linear : finite_linear identity_linear.
Proof. split; repeat constructor; eexists; reflexivity. Qed.

Lemma tiny_projected_finite (x y : R) :
  finite3 (project (MultiHeadAttention.query tiny_attention)
             [[[Finite x]; [Finite y]]]).
Proof.
  unfold finite3, project, Linear_apply, dot.
  cbn [MultiHeadAttention.query tiny_attention identity_linear weight bias
       map zip_with fold_left fmul fadd].
  repeat constructor; eexists; reflexivity.
Qed.

Lemma causal_mask_hides_future_witness :
  wf_module tiny_attention 1 1 /\
  finite3 (project (MultiHeadAttention.query tiny_attention) tiny_input) /\
  finite3 (project (MultiHeadAttention.query tiny_attention) tiny_input') /\
  Forall2 (agree 0) tiny_input tiny_input' /\
  exists output output',
    forward tiny_attention tiny_input tiny_input tiny_input
      (Some (causal_mask 2)) = Ok output /\
    forward tiny_attention tiny_input' tiny_input' tiny_input'
      (Some (causal_mask 2)) = Ok output' /\
    Forall2 (same_row 0) output output'.
Proof.
  split; [exact tiny_wf|].
  split; [exact (tiny_projected_finite 1 2)|].
  split; [exact (tiny_projected_finite 1 3)|].
  split; [exact tiny_agree|].
  apply (causal_mask_hides_future tiny_attention 1 1 1 2 0
           tiny_input tiny_input tiny_input tiny_input' tiny_input' tiny_input'
           tiny_wf (Nat.lt_0_succ 0) (Nat.lt_0_succ 1)
           (tiny_shape 1 2) (tiny_shape 1 2) (tiny_shape 1 2)
           (tiny_shape 1 3) (tiny_shape 1 3) (tiny_shape 1 3)
           (tiny_projected_finite 1 2) (tiny_projected_finite 1 3)
           tiny_same_row tiny_agree tiny_agree).
Defined.

(** The weights of a row whose second score is masked. *)
Lemma softmax_masked_pair (s : R) :
  softmax [Finite s; NegInf] = [Finite 1; Finite 0].
Proof.
  unfold softmax, max, fmax, sum.
  cbn [fold_left isnan orb fge map fsub fneg fadd fexp].
  replace (s + - s)%R with 0%R by lra. rewrite exp_0.
  cbn [fdiv]. rewrite (proj2 (Reqb_false (0 + 1 + 0) 0)) by lra.
  f_equal; [f_equal; field|]. f_equal. f_equal. field.
Qed.

Lemma tiny_scale : fsqrt (Finite (IZR 1)) = Finite 1.
Proof.
  unfold fsqrt. rewrite (proj2 (Rltb_false 1 0)) by lra.
  rewrite sqrt_1. reflexivity.
Qed.

Lemma inf_times_one : inf_times true 1 = PosInf.
Proof.
  unfold inf_times. rewrite (proj2 (Reqb_false 1 0)) by lra.
  rewrite (proj2 (Rltb_true 0 1)) by lra. reflexivity.
Qed.

Lemma inf_times_zero (positive : bool) : inf_times positive 0 = NaN.
Proof.
  unfold inf_times. rewrite (proj2 (Reqb_true 0 0)) by reflexivity.
  reflexivity.
Qed.

Ltac tiny_stages :=
  unfold causal_attention, tiny_attention, identity_linear;
  cbn [MultiHeadAttention.query MultiHeadAttention.scale fc_out];
  rewrite tiny_scale;
  unfold project, split_heads, scaled_scores, fill_blocked, blocked_causal,
    attend, merge_heads, transpose12, matmul_rows, transpose, column,
    Linear_apply, dot, masked_fill_row;
  cbn [map zip_with fold_left weight bias chunks firstn skipn seq nth length
       repeat negb Nat.leb concat app].

(** The run on [tiny_input]: the output at position [0] is the value at
    position [0]. *)
Lemma tiny_run :
  exists r1,
    causal_attention tiny_attention 1 1 2 tiny_input tiny_input tiny_input
    = [[[Finite 1]; r1]].
Proof.
  unfold tiny_input. tiny_stages.
  cbn [fmul fadd fdiv]. rewrite (proj2 (Reqb_false 1 0)) by lra.
  rewrite softmax_masked_pair.
  cbn [zip_with fold_left fmul fadd].
  eexists. do 4 f_equal. lra.
Qed.

(** The run on [inf_input]: the masked weight of position [1] is zero,
    its product with the infinite value is NaN, and so is the output at
    position [0]. *)
Lemma inf_run :
  exists r1,
    causal_attention tiny_attention 1 1 2 inf_input inf_input inf_input
    = [[[NaN]; r1]].
Proof.
  unfold inf_input. tiny_stages.
  cbn [fmul fadd fdiv]. rewrite (proj2 (Reqb_false 1 0)) by lra.
  rewrite inf_times_one, softmax_masked_pair.
  cbn [zip_with fold_left fmul fadd]. rewrite inf_times_zero.
  cbn [fadd fmul]. eexists. reflexivity.
Qed.

Lemma inf_shape : shape3 1 2 (1 * 1) inf_input.
Proof. repeat (split || constructor). Qed.

Lemma inf_agree : Forall2 (agree 0) tiny_input inf_input.
Proof.
  repeat constructor. intros j Hj. replace j with 0 by lia. reflexivity.
Qed.

Lemma inf_same_row : Forall2 (same_row 0) tiny_input inf_input.
Proof. repeat constructor. exists [Finite 1]. split; reflexivity. Qed.

(** C8, as stated, fails: the sequences [tiny_input] and [inf_input]
    agree at position [0] and differ at position [1] only, and under the
    causal mask the outputs at position [0] are [1] and NaN. *)
Lemma future_infinity_leaks :
  Forall2 (same_row 0) tiny_input inf_input /\
  Forall2 (agree 0) tiny_input inf_input /\
  exists output output' r r',
    forward tiny_attention tiny_input tiny_input tiny_input
      (Some (causal_mask 2)) = Ok output /\
    forward tiny_attention inf_input inf_input inf_input
      (Some (causal_mask 2)) = Ok output' /\
    output = [[[Finite 1]; r]] /\ output' = [[[NaN]; r']] /\
    ~ Forall2 (same_row 0) output output'.
Proof.
  split; [exact inf_same_row|]. split; [exact inf_agree|].
  destruct tiny_run as [r Hr]. destruct inf_run as [r' Hr'].
  exists [[[Finite 1]; r]], [[[NaN]; r']], r, r'.
  split.
  { rewrite <- Hr.
    apply (forward_causal_closed tiny_attention 1 1 1 2);
      try exact (tiny_shape 1 2); [exact tiny_wf|lia]. }
  split.
  { rewrite <- Hr'.
    apply (forward_causal_closed tiny_attention 1 1 1 2);
      try exact inf_shape; [exact tiny_wf|lia]. }
  split; [reflexivity|]. split; [reflexivity|].
  intros H. inversion H as [|? ? ? ? Hrow _]; subst.
  destruct Hrow as (x & Hx & Hx'). cbn in Hx, Hx'. congruence.
Qed.

End CausalClaim.

(** * Further properties *)

(** ** The decoders at their edges *)

Module DecoderEdges.
Import Torch TorchFacts Spec Props TopkFacts ScoreFacts SamplingFacts
  SoftmaxFacts LoopFacts TotalityFacts RunFacts PoolFacts DecoderClaims
  ContrastiveDecoding.

(** X1: The mask shrinks as [alpha] grows: an entry that passes the mask for
    [alpha'] passes it for every smaller [alpha]. *)
Theorem mask_antitone_in_alpha (expert_probs : list scalar) (alpha alpha' : R)
  (mask mask' : list bool) (i : nat) :
  prob_dist expert_probs -> (alpha <= alpha')%R ->
  Adaptive.calculate_vhead expert_probs (Finite alpha) = Ok mask ->
  Adaptive.calculate_vhead expert_probs (Finite alpha') = Ok mask' ->
  nth_error mask' i = Some true -> nth_error mask i = Some true.
Proof.
  intros He Ha Hm Hm'.
  pose proof (prob_dist_nonempty _ He) as Hne.
  destruct He as (rs & -> & Hpos & _).
  assert (Hrs : rs <> []) by (intros ->; apply Hne; reflexivity).
  destruct (max_finite rs Hrs) as (m & Hmax & Hin & _).
  assert (Hm0 : (0 <= m)%R) by (rewrite Forall_forall in Hpos; auto).
  unfold Adaptive.calculate_vhead in Hm, Hm'. rewrite Hmax in Hm, Hm'.
  simpl in Hm, Hm'. injection Hm as <-. injection Hm' as <-.
  unfold ge. rewrite !nth_error_map.
  destruct (nth_error rs i) as [r|]; [|discriminate]. simpl.
  intros H. injection H as H. apply Rleb_true in H.
  f_equal. apply Rleb_true. nra.
Qed.

Lemma max_toy_expert : max toy_expert = Ok (Finite (7 / 10)).
Proof.
  unfold toy_expert.
  destruct (max_finite [(7 / 10)%R; (2 / 10)%R; (5 / 100)%R; (5 / 100)%R])
    as (m & Hm & Hin & Hub); [discriminate|].
  rewrite Hm. do 2 f_equal.
  specialize (Hub (7 / 10)%R (or_introl eq_refl)).
  simpl in Hin. destruct Hin as [E|[E|[E|[E|[]]]]]; lra.
Qed.

Lemma vhead_toy_expert (a : R) :
  Adaptive.calculate_vhead toy_expert (Finite a)
  = Ok (ge toy_expert (Finite (a * (7 / 10)))).
Proof. unfold Adaptive.calculate_vhead. rewrite max_toy_expert. reflexivity. Qed.

Lemma toy_expert_first_passes (a : R) :
  (a <= 1)%R -> nth_error (ge toy_expert (Finite (a * (7 / 10)))) 0 = Some true.
Proof. intros Ha. simpl. f_equal. apply Rleb_true. lra. Qed.

Lemma mask_antitone_in_alpha_witness :
  prob_dist toy_expert /\ (1 / 10 <= 3 / 10)%R /\
  nth_error (ge toy_expert (Finite (1 / 10 * (7 / 10)))) 0 = Some true.
Proof.
  assert (Ha : (1 / 10 <= 3 / 10)%R) by lra.
  assert (H1 : (3 / 10 <= 1)%R) by lra.
  split; [exact toy_expert_dist|]. split; [exact Ha|].
  exact (mask_antitone_in_alpha toy_expert (1 / 10) (3 / 10) _ _ 0
           toy_expert_dist Ha (vhead_toy_expert (1 / 10))
           (vhead_toy_expert (3 / 10)) (toy_expert_first_passes (3 / 10) H1)).
Defined.

Section Edges.

Variable G : Type.
Variable multinomial : list scalar -> M G nat.
Variable tokenizer : Tokenizer.
Variables expert_model amateur_model : model.

(** An exception of the first step is the exception of the run. *)
Lemma adaptive_first_step_raises (alpha : scalar) (enc : encoding)
  (n : nat) (g : G) (e : exn) :
  Adaptive.next_token G multinomial expert_model amateur_model alpha enc g
    = Raise e ->
  Adaptive.generate_next_token G multinomial tokenizer enc expert_model
    amateur_model (S n) alpha g = Raise e.
Proof.
  intros H. unfold Adaptive.generate_next_token. cbn [Adaptive.loop].
  unfold bind. rewrite H. reflexivity.
Qed.

Lemma plain_first_step_raises (enc : encoding) (n : nat) (g : G) (e : exn) :
  Plain.plain_next_token G multinomial expert_model amateur_model enc g
    = Raise e ->
  Plain.generate_next_token G multinomial tokenizer enc expert_model
    amateur_model (S n) g = Raise e.
Proof.
  intros H. unfold Plain.generate_next_token. cbn [Plain.plain_loop].
  unfold bind. rewrite H. reflexivity.
Qed.

Lemma sample_topk_small (scores : list scalar) (g : G) :
  length scores < k ->
  sample_topk G multinomial scores g
  = Raise (RuntimeError "selected index k out of range").
Proof.
  intros H. unfold sample_topk, bind, lift.
  rewrite (topk_raises _ _ H). reflexivity.
Qed.

(** X2: On a vocabulary of fewer than fifty entries both decoders raise at
    their first step, whatever the logits are: [torch.topk] is asked for
    fifty entries. *)
Theorem small_vocabulary_raises (enc : encoding) (n : nat) (alpha : scalar)
  (g : G) (expert_logits amateur_logits : list scalar) :
  expert_model enc = Ok expert_logits ->
  amateur_model enc = Ok amateur_logits ->
  length amateur_logits = length expert_logits ->
  length expert_logits < k ->
  (exists msg,
     Adaptive.generate_next_token G multinomial tokenizer enc expert_model
       amateur_model (S n) alpha g = Raise (RuntimeError msg)) /\
  Plain.generate_next_token G multinomial tokenizer enc expert_model
    amateur_model (S n) g
  = Raise (RuntimeError "selected index k out of range").
Proof.
  intros He Ha Hlen Hk.
  assert (Hlen' : length (softmax amateur_logits) = length (softmax expert_logits))
    by (rewrite !softmax_length; exact Hlen).
  split.
  - destruct (max (softmax expert_logits)) as [m|err] eqn:Hm.
    + eexists. apply adaptive_first_step_raises.
      unfold Adaptive.next_token, bind, lift. rewrite He, Ha.
      rewrite (cd_score_closed _ _ alpha _ Hm Hlen').
      apply sample_topk_small.
      rewrite zip_with_length, Hlen', Nat.min_id, softmax_length. exact Hk.
    + assert (Herr : exists msg, err = RuntimeError msg).
      { unfold max in Hm. destruct (softmax expert_logits); [|discriminate].
        inversion Hm. eexists; reflexivity. }
      destruct Herr as [msg ->]. exists msg.
      apply adaptive_first_step_raises.
      unfold Adaptive.next_token, bind, lift. rewrite He, Ha.
      unfold Adaptive.cd_score, Adaptive.calculate_vhead. rewrite Hm.
      reflexivity.
  - apply plain_first_step_raises.
    unfold Plain.plain_next_token, bind, lift. rewrite He, Ha.
    rewrite (cd_score_plain_closed _ _ Hlen').
    apply sample_topk_small.
    rewrite zip_with_length, Hlen', Nat.min_id, softmax_length. exact Hk.
Qed.

(** X3: When the two models answer with vocabularies of different sizes the
    adaptive decoder raises [IndexError] at its first step: the mask made
    from the expert does not fit the amateur tensor. *)
Theorem vocabulary_mismatch_raises (enc : encoding) (n : nat)
  (alpha : scalar) (g : G) (expert_logits amateur_logits : list scalar) :
  expert_model enc = Ok expert_logits ->
  amateur_model enc = Ok amateur_logits ->
  expert_logits <> [] ->
  length amateur_logits <> length expert_logits ->
  Adaptive.generate_next_token G multinomial tokenizer enc expert_model
    amateur_model (S n) alpha g
  = Raise (IndexError "The shape of the mask does not match the shape of the indexed tensor").
Proof.
  intros He Ha Hne Hlen. apply adaptive_first_step_raises.
  unfold Adaptive.next_token, bind, lift. rewrite He, Ha.
  assert (Hs : softmax expert_logits <> []).
  { intros E. apply (f_equal (@length scalar)) in E.
    rewrite softmax_length in E. destruct expert_logits; [congruence | discriminate]. }
  destruct (max_nonempty _ Hs) as [m Hm].
  unfold Adaptive.cd_score, Adaptive.calculate_vhead. rewrite Hm.
  cbn [res_bind]. unfold isub_at.
  rewrite ge_length, !log_length, !softmax_length, Nat.eqb_refl.
  cbn [negb].
  destruct (length expert_logits =? length amateur_logits) eqn:E.
  - apply Nat.eqb_eq in E. congruence.
  - reflexivity.
Qed.

End Edges.

Lemma small_vocabulary_raises_witness :
  flat_model 4 [7; 8] = Ok (map Finite (repeat 0%R 4)) /\
  length (map Finite (repeat 0%R 4)) < k /\
  Plain.generate_next_token unit first_positive_multinomial unary_tokenizer
    [7; 8] (flat_model 4) (flat_model 4) 3 tt
  = Raise (RuntimeError "selected index k out of range").
Proof.
  assert (Hk : length (map Finite (repeat 0%R 4)) < k) by (unfold k; simpl; lia).
  split; [reflexivity|]. split; [exact Hk|].
  exact (proj2 (small_vocabulary_raises unit first_positive_multinomial
                  unary_tokenizer (flat_model 4) (flat_model 4) [7; 8] 2
                  Adaptive.alpha_default tt _ _ eq_refl eq_refl eq_refl Hk)).
Defined.

Lemma vocabulary_mismatch_raises_witness :
  flat_model 60 [7; 8] = Ok (map Finite (repeat 0%R 60)) /\
  flat_model 50 [7; 8] = Ok (map Finite (repeat 0%R 50)) /\
  Adaptive.generate_next_token unit first_positive_multinomial unary_tokenizer
    [7; 8] (flat_model 60) (flat_model 50) 3 Adaptive.alpha_default tt
  = Raise (IndexError "The shape of the mask does not match the shape of the indexed tensor").
Proof.
  split; [reflexivity|]. split; [reflexivity|].
  apply (vocabulary_mismatch_raises unit first_positive_multinomial
           unary_tokenizer (flat_model 60) (flat_model 50) [7; 8] 2
           Adaptive.alpha_default tt _ _ eq_refl eq_refl).
  - discriminate.
  - rewrite !length_map, !repeat_length. discriminate.
Defined.

End DecoderEdges.

(** ** The mask and the pool inside a step *)

Module StepFacts.
Import Torch TorchFacts Spec Props TopkFacts ScoreFacts SamplingFacts
  SoftmaxFacts LoopFacts TotalityFacts RunFacts PoolFacts DecoderEdges
  ContrastiveDecoding.

(** The probabilities a step computes from finite logits. *)
Lemma softmax_finite_dist (ls : list R) :
  ls <> [] -> prob_dist (softmax (map Finite ls)).
Proof.
  intros Hne. destruct ls as [|l ls]; [congruence|].
  assert (Ht : Forall is_score (map Finite (l :: ls))).
  { apply Forall_forall. intros x Hx. apply in_map_iff in Hx.
    destruct Hx as (y & <- & _). right; eauto. }
  destruct (softmax_scores _ l Ht (or_introl eq_refl)) as (m & S & HS & HSdef & Hsm).
  exists (map (fun x => shifted_exp m x / S)%R (map Finite (l :: ls))).
  split; [|split].
  - rewrite Hsm, !map_map. reflexivity.
  - apply Forall_forall. intros y Hy. apply in_map_iff in Hy.
    destruct Hy as (x & <- & _).
    apply Rmult_le_pos; [apply shifted_exp_nonneg|].
    left; apply Rinv_0_lt_compat; exact HS.
  - rewrite <- (map_map (shifted_exp m) (fun r => r / S)%R), div_sum, <- HSdef.
    unfold Rdiv. apply Rinv_r. lra.
Qed.

Section Steps.

Variable G : Type.
Variable multinomial : list scalar -> M G nat.
Variable tokenizer : Tokenizer.
Variables expert_model amateur_model : model.

(** X4: Whatever the encoding, the expert probabilities of a step form a
    probability distribution and, for [alpha] in [0, 1], its plausibility
    mask holds at least one true entry. *)
Theorem step_mask_not_empty (alpha : R) (enc : encoding) :
  scorers_ok expert_model amateur_model -> (0 <= alpha <= 1)%R ->
  exists expert_logits mask,
    expert_model enc = Ok expert_logits /\
    prob_dist (softmax expert_logits) /\
    Adaptive.calculate_vhead (softmax expert_logits) (Finite alpha) = Ok mask /\
    length mask = length expert_logits /\
    In true mask.
Proof.
  intros Hs Ha. destruct (Hs enc) as (le & la & He & _ & _ & Hk).
  assert (Hne : le <> []).
  { intros ->. simpl in Hk. unfold k in Hk. lia. }
  pose proof (softmax_finite_dist le Hne) as Hd.
  destruct (softmax_finite le Hne) as (pe & Hse & Hlen & Hpos).
  assert (Hpe : pe <> []).
  { intros ->. destruct le; [congruence | discriminate]. }
  destruct (max_finite pe Hpe) as (m & Hm & Hin & _).
  exists (map Finite le), (ge (map Finite pe) (Finite (alpha * m))).
  split; [exact He|]. split; [exact Hd|]. rewrite Hse.
  split; [unfold Adaptive.calculate_vhead; rewrite Hm; reflexivity|].
  split; [rewrite ge_length, !length_map; exact Hlen|].
  unfold ge. rewrite map_map. apply in_map_iff. exists m.
  split; [|exact Hin].
  simpl. apply Rleb_true.
  assert (0 < m)%R by (rewrite Forall_forall in Hpos; auto). nra.
Qed.

Hypothesis Hsupport : multinomial_support multinomial.

(** No draw is possible from a pool of excluded entries. *)
Lemma sample_topk_all_excluded (scores : list scalar) (g : G) :
  Forall (fun x => x = NegInf) scores ->
  exists e, sample_topk G multinomial scores g = Raise e.
Proof.
  intros Hall.
  destruct (sample_topk G multinomial scores g) as [[tok g']|e] eqn:E;
    [|eexists; reflexivity].
  destruct (sample_topk_not_excluded G multinomial Hsupport _ _ _ _ E)
    as (v & Hv & Hne).
  apply nth_error_In in Hv. rewrite Forall_forall in Hall.
  exfalso. apply Hne. auto.
Qed.

(** X5: With [alpha] at least [1.001] no entry passes the mask, not even
    the most probable one: every score is minus infinity, and the
    adaptive decoder raises at its first step.  The bound keeps [alpha]
    away from one, where the rounding of the product [alpha * max]
    decides. *)
Theorem alpha_above_one_raises (alpha : R) (enc : encoding) (n : nat) (g : G) :
  scorers_ok expert_model amateur_model -> (1001 / 1000 <= alpha)%R ->
  exists expert_logits amateur_logits mask scores e,
    expert_model enc = Ok expert_logits /\
    amateur_model enc = Ok amateur_logits /\
    Adaptive.calculate_vhead (softmax expert_logits) (Finite alpha)
      = Ok mask /\
    length mask = length expert_logits /\
    Forall (fun b => b = false) mask /\
    Adaptive.cd_score (softmax expert_logits) (softmax amateur_logits)
      (Finite alpha) = Ok scores /\
    Forall (fun x => x = NegInf) scores /\
    Adaptive.generate_next_token G multinomial tokenizer enc expert_model
      amateur_model (S n) (Finite alpha) g = Raise e.
Proof.
  intros Hs Ha.
  destruct (step_probs expert_model amateur_model Hs enc)
    as (le & la & pe & pa & He & Hm & Hse & Hsa & Hpe & Hpa & Hlen & Hk).
  assert (Hne : pe <> []).
  { intros ->. simpl in Hk. unfold k in Hk. lia. }
  destruct (max_finite pe Hne) as (pm & Hmax & Hin & Hub).
  assert (Hpm : (0 < pm)%R) by (rewrite Forall_forall in Hpe; auto).
  assert (Hbelow : forall p, In p pe -> Rleb (alpha * pm) p = false).
  { intros p Hp. specialize (Hub p Hp). apply Rleb_false. nra. }
  assert (Hscores : Forall (fun x => x = NegInf)
            (zip_with (masked_score (fmul (Finite alpha) (Finite pm)))
               (map Finite pe) (map Finite pa))).
  { apply Forall_forall. intros z Hz.
    destruct (zip_with_in _ _ _ _ Hz) as (x & y & Hx & _ & ->).
    apply in_map_iff in Hx. destruct Hx as (p & <- & Hp).
    unfold masked_score. simpl fge. rewrite (Hbelow p Hp). reflexivity. }
  assert (Hcd : Adaptive.cd_score (map Finite pe) (map Finite pa)
                  (Finite alpha)
                = Ok (zip_with (masked_score (fmul (Finite alpha) (Finite pm)))
                        (map Finite pe) (map Finite pa))).
  { apply cd_score_closed; [exact Hmax|]. rewrite !length_map. exact Hlen. }
  assert (Hstep : exists e,
            Adaptive.next_token G multinomial expert_model amateur_model
              (Finite alpha) enc g = Raise e).
  { unfold Adaptive.next_token, bind, lift. rewrite He, Hm, Hse, Hsa, Hcd.
    apply sample_topk_all_excluded. exact Hscores. }
  destruct Hstep as [e Hstep].
  exists (map Finite le), (map Finite la),
    (ge (map Finite pe) (fmul (Finite alpha) (Finite pm))),
    (zip_with (masked_score (fmul (Finite alpha) (Finite pm)))
       (map Finite pe) (map Finite pa)), e.
  split; [exact He|]. split; [exact Hm|]. rewrite Hse, Hsa.
  split; [unfold Adaptive.calculate_vhead; rewrite Hmax; reflexivity|].
  split.
  { rewrite ge_length, <- Hse, softmax_length. reflexivity. }
  split.
  { unfold ge. rewrite map_map. apply Forall_map, Forall_forall.
    intros p Hp. simpl. apply Hbelow. exact Hp. }
  split; [exact Hcd|]. split; [exact Hscores|].
  apply adaptive_first_step_raises. exact Hstep.
Qed.

End Steps.

Lemma step_mask_not_empty_witness :
  scorers_ok (flat_model 50) (flat_model 50) /\ (0 <= 1 / 10 <= 1)%R /\
  exists expert_logits mask,
    flat_model 50 [7; 8] = Ok expert_logits /\
    prob_dist (softmax expert_logits) /\
    Adaptive.calculate_vhead (softmax expert_logits) (Finite (1 / 10)) = Ok mask /\
    length mask = length expert_logits /\
    In true mask.
Proof.
  assert (Hs : scorers_ok (flat_model 50) (flat_model 50)).
  { apply flat_models_ok. unfold k. lia. }
  assert (Ha : (0 <= 1 / 10 <= 1)%R) by lra.
  split; [exact Hs|]. split; [exact Ha|].
  exact (step_mask_not_empty (flat_model 50) (flat_model 50) (1 / 10) [7; 8] Hs Ha).
Defined.

Lemma alpha_above_one_raises_witness :
  multinomial_support first_positive_multinomial /\
  scorers_ok (flat_model 50) (flat_model 50) /\ (1001 / 1000 <= 2)%R /\
  exists expert_logits amateur_logits mask scores e,
    flat_model 50 [7; 8] = Ok expert_logits /\
    flat_model 50 [7; 8] = Ok amateur_logits /\
    Adaptive.calculate_vhead (softmax expert_logits) (Finite 2) = Ok mask /\
    length mask = length expert_logits /\
    Forall (fun b => b = false) mask /\
    Adaptive.cd_score (softmax expert_logits) (softmax amateur_logits)
      (Finite 2) = Ok scores /\
    Forall (fun x => x = NegInf) scores /\
    Adaptive.generate_next_token unit first_positive_multinomial
      unary_tokenizer [7; 8] (flat_model 50) (flat_model 50) 3 (Finite 2) tt
    = Raise e.
Proof.
  assert (Hs : scorers_ok (flat_model 50) (flat_model 50)).
  { apply flat_models_ok. unfold k. lia. }
  assert (Ha : (1001 / 1000 <= 2)%R) by lra.
  split; [exact first_positive_support|]. split; [exact Hs|]. split; [exact Ha|].
  exact (alpha_above_one_raises unit first_positive_multinomial unary_tokenizer
           (flat_model 50) (flat_model 50) first_positive_support 2 [7; 8] 2 tt
           Hs Ha).
Defined.

End StepFacts.

(** ** What truncation keeps *)

Module TruncationFacts.
Import Torch TorchFacts Spec Props TopkFacts ScoreFacts SamplingFacts
  SoftmaxFacts LoopFacts TotalityFacts RunFacts PoolFacts ContrastiveDecoding.

Lemma topk_gt_irrefl (x : scalar) : topk_gt x x = false.
Proof.
  destruct x; unfold topk_gt; simpl; auto. apply Rltb_false. lra.
Qed.

Lemma topk_gt_excluded (v : scalar) : v <> NegInf -> topk_gt v NegInf = true.
Proof. destruct v; simpl; auto; congruence. Qed.

Lemma pool_member (t : list scalar) (n i : nat) :
  In i (map snd (firstn n (ranked t))) ->
  exists v, In v (map fst (firstn n (ranked t))) /\ nth_error t i = Some v.
Proof.
  intros H. apply in_map_iff in H. destruct H as ([v i'] & Hi & Hin).
  simpl in Hi. subst i'. exists v. split.
  - apply in_map_iff. exists (v, i). auto.
  - apply ranked_in. rewrite <- (firstn_skipn n (ranked t)).
    apply in_or_app; left; exact Hin.
Qed.

Lemma pool_length (t : list scalar) (n : nat) :
  n <= length t -> length (map snd (firstn n (ranked t))) = n.
Proof. intros H. rewrite length_map, length_firstn, ranked_length. lia. Qed.

(** X6: When at most fifty entries are non-excluded, truncation drops none of
    them: every entry whose score is not minus infinity is in the pool. *)
Theorem pool_keeps_every_plausible (scores : list scalar) :
  k <= length scores -> count_non_excluded scores <= k ->
  exists topk_logits topk_indices,
    topk scores k = Ok (topk_logits, topk_indices) /\
    forall i v, nth_error scores i = Some v -> v <> NegInf ->
                In i topk_indices.
Proof.
  intros Hk Hcount. rewrite (topk_ok _ _ Hk).
  eexists _, _. split; [reflexivity|].
  intros i v Hi Hv.
  destruct (in_dec Nat.eq_dec i (map snd (firstn k (ranked scores))))
    as [Hin|Hout]; [exact Hin|exfalso].
  assert (Hlt : i < length scores).
  { apply nth_error_Some. congruence. }
  assert (Hnth : nth i scores NaN = v) by (apply nth_error_nth; exact Hi).
  destruct (pool_indices scores k) as [Hnd Hrange].
  assert (Hincl : incl (i :: map snd (firstn k (ranked scores)))
            (filter (fun j => negb (excluded (nth j scores NaN)))
               (seq 0 (length scores)))).
  { intros j [<-|Hj]; apply filter_In; split.
    - apply in_seq. lia.
    - rewrite Hnth. destruct v; simpl; auto; congruence.
    - apply in_seq. specialize (Hrange j Hj). lia.
    - destruct (pool_member _ _ _ Hj) as (w & Hw & Hjw).
      rewrite (nth_error_nth _ _ NaN Hjw).
      pose proof (pool_is_best scores k i w Hlt Hout Hw) as Hbest.
      rewrite Hnth in Hbest.
      destruct w; simpl; auto.
      rewrite (topk_gt_excluded v Hv) in Hbest. discriminate. }
  assert (Hnd' : NoDup (i :: map snd (firstn k (ranked scores)))).
  { constructor; assumption. }
  apply (NoDup_incl_length Hnd') in Hincl.
  rewrite (filter_seq_length (fun x => negb (excluded x))) in Hincl
    by reflexivity.
  change (S (length (map snd (firstn k (ranked scores))))
            <= length (filter (fun x => negb (excluded x)) scores)) in Hincl.
  rewrite (pool_length _ _ Hk) in Hincl.
  unfold count_non_excluded in Hcount. lia.
Qed.

Lemma pool_keeps_every_plausible_witness :
  let scores := Finite (ln (51 / 100) + - ln (2 / 100)) :: repeat NegInf 49 in
  k <= length scores /\ count_non_excluded scores <= k /\
  exists topk_logits topk_indices,
    topk scores k = Ok (topk_logits, topk_indices) /\
    forall i v, nth_error scores i = Some v -> v <> NegInf ->
                In i topk_indices.
Proof.
  intros scores.
  assert (Hk : k <= length scores) by (unfold k; simpl; lia).
  assert (Hc : count_non_excluded scores <= k)
    by (unfold k, count_non_excluded, scores; simpl; lia).
  split; [exact Hk|]. split; [exact Hc|].
  exact (pool_keeps_every_plausible scores Hk Hc).
Defined.

Section Draws.

Variable G : Type.
Variable multinomial : list scalar -> M G nat.
Variable tokenizer : Tokenizer.
Variables expert_model amateur_model : model.

(** The token of a truncated draw is one of the fifty best entries. *)
Lemma sample_topk_among_best (scores : list scalar) (g g' : G) (tok : token) :
  sample_topk G multinomial scores g = Ok (tok, g') ->
  among_best scores tok.
Proof.
  unfold sample_topk, bind, lift, ret.
  destruct (le_lt_dec k (length scores)) as [Hk|Hk];
    [|rewrite (topk_raises _ _ Hk); discriminate].
  rewrite (topk_ok _ _ Hk).
  remember (firstn k (ranked scores)) as top eqn:Etop.
  cbv beta iota.
  destruct (multinomial (softmax (map fst top)) g) as [[j g1]|e];
    [|discriminate].
  unfold getitem. rewrite nth_error_map.
  destruct (nth_error top j) as [[v i]|] eqn:Ep; [|discriminate].
  cbn [option_map snd]. intros H. injection H as Htok Hg. subst i g1.
  apply nth_error_In in Ep.
  assert (Hidx : In tok (map snd (firstn k (ranked scores)))).
  { rewrite <- Etop. apply in_map_iff. exists (v, tok). auto. }
  assert (Hval : In v (map fst (firstn k (ranked scores)))).
  { rewrite <- Etop. apply in_map_iff. exists (v, tok). auto. }
  assert (Hv : nth_error scores tok = Some v).
  { apply ranked_in. rewrite <- (firstn_skipn k (ranked scores)).
    apply in_or_app; left. rewrite <- Etop. exact Ep. }
  exists v. split; [exact Hv|].
  set (above := filter (fun i => topk_gt (nth i scores NaN) v)
                  (seq 0 (length scores))).
  assert (Hincl : incl (tok :: above) (map snd (firstn k (ranked scores)))).
  { intros i [<-|Hi]; [exact Hidx|].
    apply filter_In in Hi. destruct Hi as [Hi Habove]. apply in_seq in Hi.
    destruct (in_dec Nat.eq_dec i (map snd (firstn k (ranked scores))))
      as [Hin|Hout]; [exact Hin|].
    rewrite (pool_is_best scores k i v) in Habove; [discriminate|lia|exact Hout|exact Hval]. }
  assert (Hnd : NoDup (tok :: above)).
  { constructor.
    - intros Hin. apply filter_In in Hin. destruct Hin as [_ Hin].
      rewrite (nth_error_nth _ _ NaN Hv), topk_gt_irrefl in Hin. discriminate.
    - apply NoDup_filter, seq_NoDup. }
  apply (NoDup_incl_length Hnd) in Hincl.
  change (S (length above)
            <= length (map (@snd scalar nat) (firstn k (ranked scores))))
    in Hincl.
  rewrite (pool_length _ _ Hk) in Hincl.
  rewrite <- (filter_seq_length (fun x => topk_gt x v)
               (fun i => topk_gt (nth i scores NaN) v) scores 0)
    by reflexivity.
  fold above. lia.
Qed.

Lemma plain_next_token_choice (enc : encoding) (g g' : G) (tok : token) :
  Plain.plain_next_token G multinomial expert_model amateur_model enc g
    = Ok (tok, g') ->
  plain_choice expert_model amateur_model enc tok.
Proof.
  unfold Plain.plain_next_token, bind, lift.
  destruct (expert_model enc) as [el|e] eqn:Ee; [|discriminate].
  destruct (amateur_model enc) as [al|e] eqn:Ea; [|discriminate].
  destruct (Plain.plain_score (softmax el) (softmax al))
    as [scores|e] eqn:Es; [|discriminate].
  intros H. exists el, al, scores. repeat split; auto.
  eapply sample_topk_among_best; exact H.
Qed.

(** X7: A run of the decoder without adaptive plausibility only appends, and
    every token it appends is one of the fifty best entries of the
    contrastive scores of its step. *)
Theorem plain_tokens_among_best (num_tokens : nat) (prompt : list token)
  (enc : encoding) (g g' : G) (toks : list token) :
  Plain.plain_loop G multinomial tokenizer expert_model amateur_model
    num_tokens prompt enc g = Ok (toks, g') ->
  exists gen,
    toks = prompt ++ gen /\ length gen = num_tokens /\
    forall i, i < num_tokens ->
      plain_choice expert_model amateur_model
        (encoding_at tokenizer enc prompt gen i) (nth i gen 0).
Proof.
  revert prompt enc g.
  induction num_tokens as [|n IH]; intros prompt enc g; simpl.
  - unfold ret. intros H; inversion H; subst. exists [].
    rewrite app_nil_r. repeat split; auto. intros i Hi; lia.
  - unfold bind at 1.
    destruct (Plain.plain_next_token G multinomial expert_model
                amateur_model enc g) as [[t g1]|e] eqn:Et; [|discriminate].
    intros H. apply IH in H. destruct H as (gen & -> & Hlen & Hall).
    exists (t :: gen). rewrite <- app_assoc. simpl.
    split; [reflexivity|]. split; [lia|].
    intros [|i] Hi.
    + simpl. eapply plain_next_token_choice; exact Et.
    + rewrite encoding_at_shift. simpl. apply Hall. lia.
Qed.

End Draws.

Lemma plain_tokens_among_best_witness :
  exists toks g' gen,
    Plain.plain_loop unit first_positive_multinomial unary_tokenizer
      (flat_model 50) (flat_model 50) 3 [7; 8] [7; 8] tt = Ok (toks, g') /\
    toks = [7; 8] ++ gen /\ length gen = 3 /\
    forall i, i < 3 ->
      plain_choice (flat_model 50) (flat_model 50)
        (encoding_at unary_tokenizer [7; 8] [7; 8] gen i) (nth i gen 0).
Proof.
  assert (Hs : scorers_ok (flat_model 50) (flat_model 50)).
  { apply flat_models_ok. unfold k. lia. }
  destruct (plain_loop_total unit first_positive_multinomial unary_tokenizer
              first_positive_support first_positive_total
              (flat_model 50) (flat_model 50) Hs 3 [7; 8] [7; 8] tt)
    as (toks & g' & H).
  destruct (plain_tokens_among_best unit first_positive_multinomial
              unary_tokenizer (flat_model 50) (flat_model 50)
              3 [7; 8] [7; 8] tt g' toks H) as (gen & Ht & Hl & Hall).
  exists toks, g', gen. auto.
Defined.

End TruncationFacts.

(** ** [forward] without a mask *)

Module CrossAttention.
Import Torch Tensor nn Spec Props TorchFacts TensorFacts ShapeFacts ForwardFacts.
Import MultiHeadAttention.

(** On well-shaped inputs [forward] without a mask is the composition of
    its stages. *)
Lemma forward_none_closed (self : t) (h d b n m : nat)
  (query key value : list (list (list scalar))) :
  wf_module self h d -> 0 < b ->
  shape3 b n (h * d) query -> shape3 b m (h * d) key ->
  shape3 b m (h * d) value ->
  forward self query key value None
  = Ok (attention_stages self h d n m query key value).
Proof.
  intros (Hnh & Hhd & Hhs & Hh & Hd & Hin & Hw & Hb & Hfc) Hpos Hq Hk Hv.
  assert (Hq' := Hq). assert (Hk' := Hk). assert (Hv' := Hv).
  rewrite <- Hin in Hq', Hk', Hv'.
  pose proof (project_shape (MultiHeadAttention.query self) b n _ (h * d) _ Hw Hb Hq) as HQ.
  pose proof (project_shape (MultiHeadAttention.query self) b m _ (h * d) _ Hw Hb Hk) as HK.
  pose proof (project_shape (MultiHeadAttention.query self) b m _ (h * d) _ Hw Hb Hv) as HV.
  unfold forward.
  rewrite (Linear_forward_ok _ b n _ Hq'). cbn [res_bind].
  rewrite (Linear_forward_ok _ b m _ Hk'). cbn [res_bind].
  rewrite (Linear_forward_ok _ b m _ Hv'). cbn [res_bind].
  rewrite Hnh, Hhd, Hhs, !size_arg_of_nat. cbn [res_bind].
  destruct Hq as [Hqlen _]. rewrite Hqlen.
  rewrite (view4_ok _ b n h d HQ Hpos Hh Hd). cbn [res_bind].
  rewrite (view4_ok _ b m h d HK Hpos Hh Hd). cbn [res_bind].
  rewrite (view4_ok _ b m h d HV Hpos Hh Hd). cbn [res_bind].
  unfold matmul4. rewrite !Nat.eqb_refl. cbn [res_bind].
  fold (split_heads h d (project (MultiHeadAttention.query self) query)).
  fold (split_heads h d (project (MultiHeadAttention.query self) key)).
  fold (split_heads h d (project (MultiHeadAttention.query self) value)).
  pose proof (split_heads_shape b n h d _ HQ) as HQ4.
  pose proof (split_heads_shape b m h d _ HK) as HK4.
  pose proof (split_heads_shape b m h d _ HV) as HV4.
  set (Q := split_heads h d (project (MultiHeadAttention.query self) query)) in *.
  set (K := split_heads h d (project (MultiHeadAttention.query self) key)) in *.
  set (V := split_heads h d (project (MultiHeadAttention.query self) value)) in *.
  fold (scaled_scores (scale self) d m Q K).
  fold (attend d (map (map (map softmax)) (scaled_scores (scale self) d m Q K)) V).
  pose proof (scaled_scores_shape (scale self) b h n d m m Q K HQ4 HK4) as HS.
  pose proof (softmax_shape b h n m _ HS) as HW.
  pose proof (attend_shape b h n m d m _ V HW HV4) as HA.
  rewrite (view3_ok _ b n h d (transpose12_shape b h n d _ HA) Hpos Hh Hd).
  cbn [res_bind].
  fold (merge_heads n (attend d (map (map (map softmax))
                         (scaled_scores (scale self) d m Q K)) V)).
  pose proof (merge_heads_shape b h n d _ HA) as Hmerged.
  rewrite <- Hfc in Hmerged.
  rewrite (Linear_forward_ok _ b n _ Hmerged). cbn [res_bind].
  reflexivity.
Qed.

Lemma attention_stages_shape (self : t) (h d b n m o : nat)
  (query key value : list (list (list scalar))) :
  wf_module self h d ->
  length (weight (fc_out self)) = o -> length (bias (fc_out self)) = o ->
  shape3 b n (h * d) query -> shape3 b m (h * d) key ->
  shape3 b m (h * d) value ->
  shape3 b n o (attention_stages self h d n m query key value).
Proof.
  intros (Hnh & Hhd & Hhs & Hh & Hd & Hin & Hw & Hb & Hfc) Hfw Hfb Hq Hk Hv.
  pose proof (project_shape (MultiHeadAttention.query self) b n _ (h * d) _ Hw Hb Hq) as HQ.
  pose proof (project_shape (MultiHeadAttention.query self) b m _ (h * d) _ Hw Hb Hk) as HK.
  pose proof (project_shape (MultiHeadAttention.query self) b m _ (h * d) _ Hw Hb Hv) as HV.
  apply (split_heads_shape b n h d) in HQ.
  apply (split_heads_shape b m h d) in HK.
  apply (split_heads_shape b m h d) in HV.
  unfold attention_stages.
  apply (project_shape _ b n (h * d) o); [assumption|assumption|].
  apply merge_heads_shape.
  eapply (attend_shape b h n m d m); [|exact HV].
  apply softmax_shape.
  eapply scaled_scores_shape; eassumption.
Qed.

(** X8: The output of [forward] has one row per query position, whatever the
    number of key and value positions: the shape is (batch, query length,
    output features of [fc_out]). *)
Theorem forward_output_shape (self : t) (h d b n m o : nat)
  (query key value : list (list (list scalar))) :
  wf_module self h d -> 0 < b ->
  length (weight (fc_out self)) = o -> length (bias (fc_out self)) = o ->
  shape3 b n (h * d) query -> shape3 b m (h * d) key ->
  shape3 b m (h * d) value ->
  exists output,
    forward self query key value None = Ok output /\ shape3 b n o output.
Proof.
  intros Hwf Hb Hfw Hfb Hq Hk Hv.
  exists (attention_stages self h d n m query key value). split.
  - apply (forward_none_closed self h d b n m); assumption.
  - apply (attention_stages_shape self h d b n m o); assumption.
Qed.

(** X9: Keys and values of different lengths are refused: the product of the
    attention weights by the values raises. *)
Theorem key_value_length_mismatch_raises (self : t) (h d b n m m' : nat)
  (query key value : list (list (list scalar))) :
  wf_module self h d -> 0 < b ->
  shape3 b n (h * d) query -> shape3 b m (h * d) key ->
  shape3 b m' (h * d) value -> m <> m' ->
  forward self query key value None
  = Raise (RuntimeError "mat1 and mat2 shapes cannot be multiplied").
Proof.
  intros (Hnh & Hhd & Hhs & Hh & Hd & Hin & Hw & Hb & Hfc) Hpos Hq Hk Hv Hm.
  assert (Hq' := Hq). assert (Hk' := Hk). assert (Hv' := Hv).
  rewrite <- Hin in Hq', Hk', Hv'.
  pose proof (project_shape (MultiHeadAttention.query self) b n _ (h * d) _ Hw Hb Hq) as HQ.
  pose proof (project_shape (MultiHeadAttention.query self) b m _ (h * d) _ Hw Hb Hk) as HK.
  pose proof (project_shape (MultiHeadAttention.query self) b m' _ (h * d) _ Hw Hb Hv) as HV.
  unfold forward.
  rewrite (Linear_forward_ok _ b n _ Hq'). cbn [res_bind].
  rewrite (Linear_forward_ok _ b m _ Hk'). cbn [res_bind].
  rewrite (Linear_forward_ok _ b m' _ Hv'). cbn [res_bind].
  rewrite Hnh, Hhd, !size_arg_of_nat. cbn [res_bind].
  destruct Hq as [Hqlen _]. rewrite Hqlen.
  rewrite (view4_ok _ b n h d HQ Hpos Hh Hd). cbn [res_bind].
  rewrite (view4_ok _ b m h d HK Hpos Hh Hd). cbn [res_bind].
  rewrite (view4_ok _ b m' h d HV Hpos Hh Hd). cbn [res_bind].
  unfold matmul4. rewrite Nat.eqb_refl. cbn [res_bind].
  rewrite (proj2 (Nat.eqb_neq m m') Hm). reflexivity.
Qed.

Lemma traverse_raises_runtime {A B} (f : A -> res B) (l : list A) (e : exn) :
  (forall x e', f x = Raise e' -> exists msg, e' = RuntimeError msg) ->
  traverse f l = Raise e -> exists msg, e = RuntimeError msg.
Proof.
  intros Hf. induction l as [|x l IH]; simpl; [discriminate|].
  destruct (f x) as [y|e'] eqn:Ex; simpl.
  - destruct (traverse f l) as [ys|e'']; simpl; [discriminate|].
    intros H; inversion H; subst. apply IH. reflexivity.
  - intros H; inversion H; subst. eapply Hf; eauto.
Qed.

Lemma Linear_forward_raises_runtime (l : Linear)
  (x : list (list (list scalar))) (e : exn) :
  Linear_forward l x = Raise e -> exists msg, e = RuntimeError msg.
Proof.
  unfold Linear_forward. apply traverse_raises_runtime.
  intros xb e'. apply traverse_raises_runtime.
  intros row e''. unfold Linear_row.
  destruct (length row =? in_features l); [discriminate|].
  intros H; inversion H. eexists; reflexivity.
Qed.

Lemma size_arg_raises_runtime (z : Z) (e : exn) :
  size_arg z = Raise e -> exists msg, e = RuntimeError msg.
Proof.
  unfold size_arg. destruct (z <? 0)%Z; [|discriminate].
  intros H; inversion H. eexists; reflexivity.
Qed.

(** X10: An empty batch is refused by every module, whatever the keys, the
    values and the mask: the size that [view] has to infer is ambiguous. *)
Theorem empty_batch_raises (self : t) (key value : list (list (list scalar)))
  (mask : option (list (list (list (list bool))))) :
  exists msg, forward self [] key value mask = Raise (RuntimeError msg).
Proof.
  unfold forward. cbn [Linear_forward traverse res_bind length].
  destruct (Linear_forward (MultiHeadAttention.query self) key) as [K|e] eqn:EK.
  2:{ destruct (Linear_forward_raises_runtime _ _ _ EK) as [msg ->].
      exists msg. reflexivity. }
  cbn [res_bind].
  destruct (Linear_forward (MultiHeadAttention.query self) value) as [V|e] eqn:EV.
  2:{ destruct (Linear_forward_raises_runtime _ _ _ EV) as [msg ->].
      exists msg. reflexivity. }
  cbn [res_bind].
  destruct (size_arg (num_heads self)) as [h|e] eqn:Eh.
  2:{ destruct (size_arg_raises_runtime _ _ Eh) as [msg ->].
      exists msg. reflexivity. }
  cbn [res_bind].
  destruct (size_arg (head_dim self)) as [d|e] eqn:Ed.
  2:{ destruct (size_arg_raises_runtime _ _ Ed) as [msg ->].
      exists msg. reflexivity. }
  cbn [res_bind]. eexists. reflexivity.
Qed.

Lemma tiny_memory_shape : shape3 1 3 (1 * 1) tiny_memory.
Proof. repeat (split || constructor). Qed.

Lemma forward_output_shape_witness :
  wf_module tiny_attention 1 1 /\
  shape3 1 2 (1 * 1) tiny_input /\ shape3 1 3 (1 * 1) tiny_memory /\
  exists output,
    forward tiny_attention tiny_input tiny_memory tiny_memory None = Ok output /\
    shape3 1 2 1 output.
Proof.
  split; [exact CausalClaim.tiny_wf|]. split; [exact (CausalClaim.tiny_shape 1 2)|].
  split; [exact tiny_memory_shape|].
  exact (forward_output_shape tiny_attention 1 1 1 2 3 1
           tiny_input tiny_memory tiny_memory CausalClaim.tiny_wf
           (Nat.lt_0_succ 0) eq_refl eq_refl (CausalClaim.tiny_shape 1 2)
           tiny_memory_shape tiny_memory_shape).
Defined.

Lemma key_value_length_mismatch_raises_witness :
  wf_module tiny_attention 1 1 /\
  shape3 1 2 (1 * 1) tiny_input /\ shape3 1 3 (1 * 1) tiny_memory /\
  forward tiny_attention tiny_input tiny_input tiny_memory None
  = Raise (RuntimeError "mat1 and mat2 shapes cannot be multiplied").
Proof.
  assert (Hne : 2 <> 3) by discriminate.
  split; [exact CausalClaim.tiny_wf|]. split; [exact (CausalClaim.tiny_shape 1 2)|].
  split; [exact tiny_memory_shape|].
  exact (key_value_length_mismatch_raises tiny_attention 1 1 1 2 2 3
           tiny_input tiny_input tiny_memory CausalClaim.tiny_wf
           (Nat.lt_0_succ 0) (CausalClaim.tiny_shape 1 2)
           (CausalClaim.tiny_shape 1 2) tiny_memory_shape Hne).
Defined.

Lemma shape3_sample {A} (b n m i : nat) (x : list (list (list A))) :
  shape3 b n m x -> i < b ->
  nth_error x i = Some (nth i x []) /\ shape3 1 n m [nth i x []].
Proof.
  intros [Hb Hall] Hi. rewrite <- Hb in Hi. split.
  - apply nth_error_nth'. exact Hi.
  - split; [reflexivity|]. constructor; [|constructor].
    rewrite Forall_forall in Hall. apply Hall. apply nth_In. exact Hi.
Qed.

(** X11: The samples of a batch do not mix: the output for sample [i] of a
    batch is the output of [forward] on that sample alone. *)
Theorem batch_samples_independent (self : t) (h d b n m i : nat)
  (query key value : list (list (list scalar))) :
  wf_module self h d -> i < b ->
  shape3 b n (h * d) query -> shape3 b m (h * d) key ->
  shape3 b m (h * d) value ->
  exists output row,
    forward self query key value None = Ok output /\
    nth_error output i = Some row /\
    forward self [nth i query []] [nth i key []] [nth i value []] None
    = Ok [row].
Proof.
  intros Hwf Hi Hq Hk Hv.
  destruct (shape3_sample b n _ i query Hq Hi) as [Eq Hq1].
  destruct (shape3_sample b m _ i key Hk Hi) as [Ek Hk1].
  destruct (shape3_sample b m _ i value Hv Hi) as [Ev Hv1].
  rewrite (forward_none_closed self h d b n m) by (try assumption; lia).
  rewrite (forward_none_closed self h d 1 n m) by (try assumption; lia).
  eexists _, _. split; [reflexivity|].
  unfold attention_stages, project, merge_heads, attend, scaled_scores,
    split_heads, transpose12.
  rewrite !nth_error_map, !RelFacts.nth_error_zip_with, !nth_error_map,
    !RelFacts.nth_error_zip_with, !nth_error_map, Eq, Ek, Ev.
  cbn [option_map map zip_with]. split; reflexivity.
Qed.

Lemma tiny_batch_shape : shape3 2 2 (1 * 1) tiny_batch.
Proof. repeat (split || constructor). Qed.

Lemma batch_samples_independent_witness :
  wf_module tiny_attention 1 1 /\ shape3 2 2 (1 * 1) tiny_batch /\
  exists output row,
    forward tiny_attention tiny_batch tiny_batch tiny_batch None = Ok output /\
    nth_error output 1 = Some row /\
    forward tiny_attention [nth 1 tiny_batch []] [nth 1 tiny_batch []]
      [nth 1 tiny_batch []] None = Ok [row].
Proof.
  split; [exact CausalClaim.tiny_wf|]. split; [exact tiny_batch_shape|].
  exact (batch_samples_independent tiny_attention 1 1 2 2 2 1
           tiny_batch tiny_batch tiny_batch CausalClaim.tiny_wf
           (Nat.lt_succ_diag_r 1) tiny_batch_shape tiny_batch_shape
           tiny_batch_shape).
Defined.

Lemma map_nth_seq {A} (dflt : A) (l : list A) :
  map (fun c => nth c l dflt) (seq 0 (length l)) = l.
Proof.
  apply nth_error_ext. intros i.
  rewrite nth_error_map, nth_error_seq.
  destruct (i <? length l) eqn:E; cbn [option_map Nat.add].
  - apply Nat.ltb_lt in E. symmetry. apply nth_error_nth'. exact E.
  - apply Nat.ltb_ge in E. symmetry. apply nth_error_None. exact E.
Qed.

(** Exchanging two dimensions twice gives the tensor back. *)
Lemma transpose_involutive {A} (dflt : A) (n h : nat) (M : list (list A)) :
  rect n h M -> transpose dflt n (transpose dflt h M) = M.
Proof.
  intros [Hn Hall]. unfold transpose.
  etransitivity; [|exact (map_nth_seq [] M)]. rewrite Hn.
  apply map_ext_in. intros r Hr. apply in_seq in Hr.
  unfold column. rewrite map_map.
  assert (Hrow : length (nth r M []) = h).
  { rewrite Forall_forall in Hall. apply Hall. apply nth_In. lia. }
  etransitivity; [|exact (map_nth_seq dflt (nth r M []))]. rewrite Hrow.
  apply map_ext. intros c.
  rewrite RelFacts.nth_map_default.
  rewrite (nth_error_nth' M []) by lia. reflexivity.
Qed.

(** X12: Cutting the rows into heads and joining the heads again gives the
    tensor back: the two [view]s and the two [transpose]s of [forward]
    are inverse to each other. *)
Theorem split_merge_round_trip (x : list (list (list scalar))) (b n h d : nat) :
  shape3 b n (h * d) x -> 0 < b -> 0 < h -> 0 < d ->
  exists y,
    view4 x b h d = Ok (n, y) /\
    view3 (transpose12 n (transpose12 h y)) b (h * d) = Ok x.
Proof.
  intros Hx Hb Hh Hd.
  exists (map (map (chunks h d)) x).
  split; [apply view4_ok; assumption|].
  destruct Hx as [Hlen Hall].
  assert (Hy : shape4 b n h d (map (map (chunks h d)) x)).
  { split; [rewrite length_map; exact Hlen|].
    apply Forall_map. eapply Forall_impl; [|exact Hall].
    intros xb [Hn Hrows]. split; [rewrite length_map; exact Hn|].
    apply Forall_map. eapply Forall_impl; [|exact Hrows].
    intros row Hrow. apply chunks_rect. exact Hrow. }
  assert (Hback : transpose12 n (transpose12 h (map (map (chunks h d)) x))
                  = map (map (chunks h d)) x).
  { unfold transpose12. rewrite map_map.
    rewrite <- (map_id (map (map (chunks h d)) x)) at 2.
    apply map_ext_in. intros yb Hyb.
    apply transpose_involutive.
    destruct Hy as [_ Hy]. rewrite Forall_forall in Hy.
    destruct (Hy yb Hyb) as [Hn Htok]. split; [exact Hn|].
    eapply Forall_impl; [|exact Htok]. intros tok [Ht _]; exact Ht. }
  rewrite Hback, (view3_ok _ b n h d Hy Hb Hh Hd). f_equal.
  rewrite map_map. rewrite <- (map_id x) at 2.
  apply map_ext_in. intros xb Hxb. rewrite map_map.
  rewrite <- (map_id xb) at 2. apply map_ext_in. intros row Hrow.
  apply chunks_join.
  rewrite Forall_forall in Hall. destruct (Hall xb Hxb) as [_ Hrows].
  rewrite Forall_forall in Hrows. auto.
Qed.

Lemma split_merge_round_trip_witness :
  shape3 2 2 (1 * 1) tiny_batch /\
  exists y,
    view4 tiny_batch 2 1 1 = Ok (2, y) /\
    view3 (transpose12 2 (transpose12 1 y)) 2 (1 * 1) = Ok tiny_batch.
Proof.
  split; [exact tiny_batch_shape|].
  exact (split_merge_round_trip tiny_batch 2 2 1 1 tiny_batch_shape
           (Nat.lt_0_succ 1) (Nat.lt_0_succ 0) (Nat.lt_0_succ 0)).
Defined.

End CrossAttention.

Module EncoderDecoderFacts.
Import Torch Tensor nn Spec.
Import EncoderDecoder.

Section Init.

Variable G : Type.
Variable uniform_ : nat -> M G T1.
Variables Embedding LSTM Dropout LayerNorm : Type.
Variable Embedding_init : Z -> Z -> M G Embedding.
Variable LSTM_init : Z -> Z -> Z -> scalar -> M G LSTM.
Variable Dropout_init : scalar -> M G Dropout.
Variable LayerNorm_init : Z -> M G LayerNorm.

Lemma attention_init_raises (hidden_size num_heads : Z) (g : G) :
  exists e,
    MultiHeadAttention.__init__ G uniform_ hidden_size num_heads g = Raise e.
Proof.
  unfold MultiHeadAttention.__init__, bind at 1.
  destruct (lift (MultiHeadAttention.py_mod hidden_size num_heads) g)
    as [[r g1]|e]; [|eexists; reflexivity].
  unfold bind at 1.
  destruct (lift (MultiHeadAttention.py_assert (r =? 0)%Z) g1)
    as [[u g2]|e]; [|eexists; reflexivity].
  unfold bind at 1.
  destruct (lift (MultiHeadAttention.py_floordiv hidden_size num_heads) g2)
    as [[hd g3]|e]; [|eexists; reflexivity].
  unfold bind at 1.
  destruct (Linear_init G uniform_ [] _ g3) as [[q g4]|e];
    [|eexists; reflexivity].
  unfold bind at 1.
  destruct (Linear_init G uniform_ [] _ g4) as [[k g5]|e];
    [|eexists; reflexivity].
  unfold bind at 1. rewrite InitFacts.value_projection_raises.
  eexists; reflexivity.
Qed.

(** X13: None of the three constructors of the encoder-decoder model returns
    a module: each one builds a [MultiHeadAttention], whose constructor
    raises, before it sets its last attribute. *)
Theorem constructors_never_succeed
  (src_vocab_size tgt_vocab_size embed_size hidden_size num_layers
     num_heads : Z) (dropout : scalar) (g : G) :
  (exists e,
     EncoderLSTM_init G uniform_ Embedding LSTM Dropout LayerNorm
       Embedding_init LSTM_init Dropout_init LayerNorm_init
       src_vocab_size embed_size hidden_size num_layers num_heads dropout g
     = Raise e) /\
  (exists e,
     DecoderLSTM_init G uniform_ Embedding LSTM Dropout LayerNorm
       Embedding_init LSTM_init Dropout_init LayerNorm_init
       tgt_vocab_size embed_size hidden_size num_layers num_heads dropout g
     = Raise e) /\
  (exists e,
     EncoderDecoderLSTM_init G uniform_ Embedding LSTM Dropout LayerNorm
       Embedding_init LSTM_init Dropout_init LayerNorm_init
       src_vocab_size tgt_vocab_size embed_size hidden_size num_layers
       num_heads dropout g
     = Raise e).
Proof.
  assert (Henc : forall vocab_size g0, exists e,
            EncoderLSTM_init G uniform_ Embedding LSTM Dropout LayerNorm
              Embedding_init LSTM_init Dropout_init LayerNorm_init
              vocab_size embed_size hidden_size num_layers num_heads
              dropout g0 = Raise e).
  { intros vocab_size g0. unfold EncoderLSTM_init, bind at 1.
    destruct (Embedding_init vocab_size embed_size g0) as [[emb g1]|e];
      [|eexists; reflexivity].
    unfold bind at 1.
    destruct (LSTM_init embed_size hidden_size num_layers _ g1)
      as [[lstm g2]|e]; [|eexists; reflexivity].
    unfold bind at 1.
    destruct (attention_init_raises hidden_size num_heads g2) as [e ->].
    eexists; reflexivity. }
  split; [apply Henc|]. split.
  - unfold DecoderLSTM_init, bind at 1.
    destruct (Embedding_init tgt_vocab_size embed_size g) as [[emb g1]|e];
      [|eexists; reflexivity].
    unfold bind at 1.
    destruct (LSTM_init embed_size hidden_size num_layers _ g1)
      as [[lstm g2]|e]; [|eexists; reflexivity].
    unfold bind at 1.
    destruct (attention_init_raises hidden_size num_heads g2) as [e ->].
    eexists; reflexivity.
  - unfold EncoderDecoderLSTM_init, bind at 1.
    destruct (Henc src_vocab_size g) as [e ->]. eexists; reflexivity.
Qed.

End Init.

Import MultiHeadAttention.

Lemma firstn_seq_le (k n start : nat) :
  k <= n -> firstn k (seq start n) = seq start k.
Proof.
  revert n start; induction k as [|k IH]; intros [|n] start Hk; simpl;
    try reflexivity; try lia.
  f_equal. apply IH. lia.
Qed.

(** A corner of the lower-triangular mask is the lower-triangular mask of
    the smaller size. *)
Lemma slice_causal (k n : nat) :
  k <= n -> slice_inner k (causal_mask n) = causal_mask k.
Proof.
  intros Hk. unfold slice_inner, causal_mask. cbn [map].
  do 2 f_equal.
  rewrite firstn_map, firstn_seq_le by exact Hk.
  rewrite map_map. apply map_ext. intros i.
  rewrite firstn_map, firstn_seq_le by exact Hk. reflexivity.
Qed.

(** X14: At every step [t] of the loop of [forward] the decoder is given the
    lower-triangular mask of [t + 1] positions: a corner of the full mask
    before the last step, the full mask at the last one. *)
Theorem forward_step_mask_causal (tgt_seq_len t : nat) :
  1 <= t < tgt_seq_len ->
  forward_step_mask tgt_seq_len t = causal_mask (t + 1).
Proof.
  intros Ht. unfold forward_step_mask.
  destruct (Z.of_nat t <? Z.of_nat tgt_seq_len - 1)%Z eqn:E.
  - apply slice_causal. lia.
  - apply Z.ltb_ge in E. f_equal. lia.
Qed.

Lemma forward_step_mask_causal_witness :
  1 <= 2 < 4 /\ forward_step_mask 4 2 = causal_mask (2 + 1).
Proof.
  assert (H : 1 <= 2 < 4) by lia.
  split; [exact H|]. exact (forward_step_mask_causal 4 2 H).
Defined.

(** X15: At step [t] of the loop of [inference] the decoder is given the
    lower-triangular mask of [t + 2] positions, except at the last step,
    where the mask has [max_len] positions, one less. *)
Theorem inference_step_mask_causal (max_len t : nat) :
  t < max_len ->
  inference_step_mask max_len t = causal_mask (Nat.min (t + 2) max_len).
Proof.
  intros Ht. unfold inference_step_mask.
  destruct (Z.of_nat t <? Z.of_nat max_len - 1)%Z eqn:E.
  - apply Z.ltb_lt in E. rewrite Nat.min_l by lia. apply slice_causal. lia.
  - apply Z.ltb_ge in E. f_equal. lia.
Qed.

Lemma inference_step_mask_causal_witness :
  3 < 4 /\ inference_step_mask 4 3 = causal_mask (Nat.min (3 + 2) 4).
Proof.
  assert (H : 3 < 4) by lia.
  split; [exact H|]. exact (inference_step_mask_causal 4 3 H).
Defined.

End EncoderDecoderFacts.

Module GenerationFacts.
Import Torch TorchFacts Spec Props TopkFacts TotalityFacts TruncationFacts.
Import Generation.

(** Division by the temperature [1.0] leaves every logit as it is. *)
Lemma fdiv_temperature (x : scalar) : fdiv x temperature = x.
Proof.
  unfold temperature. destruct x as [| | |r]; cbn [fdiv].
  - reflexivity.
  - unfold Rltb. destruct (Rlt_dec 1 0); [lra|reflexivity].
  - unfold Rltb. destruct (Rlt_dec 1 0); [lra|reflexivity].
  - unfold Reqb. destruct (Req_dec_T 1 0); [lra|]. f_equal. field.
Qed.

Section Runs.

Variable G : Type.
Variable multinomial : list scalar -> M G nat.
Variable model : list nat -> list Z -> res (list scalar).
Variable eos_token_id : nat.

(** A step of the loop is a truncated draw from the logits of the
    model. *)
Lemma next_token_sample (ids : list nat) (mask : list Z)
  (logits : list scalar) (g g' : G) (tok : nat) :
  model ids mask = Ok logits ->
  (sample_next_token G multinomial model ids mask g = Ok (tok, g') <->
   ContrastiveDecoding.sample_topk G multinomial logits g = Ok (tok, g')).
Proof.
  intros Hm.
  unfold sample_next_token, ContrastiveDecoding.sample_topk, bind, lift, ret.
  rewrite Hm. cbv beta iota.
  rewrite (map_ext _ (fun x => x) fdiv_temperature), map_id.
  change top_k with ContrastiveDecoding.k.
  destruct (topk logits ContrastiveDecoding.k) as [[tl ti]|e];
    [|split; discriminate].
  cbv beta iota.
  destruct (multinomial (softmax tl) g) as [[j g1]|e];
    [|split; discriminate].
  unfold gather, getitem.
  destruct (nth_error ti j); [reflexivity|split; discriminate].
Qed.

Lemma next_token_choice (ids : list nat) (mask : list Z) (g g' : G)
  (tok : nat) :
  sample_next_token G multinomial model ids mask g = Ok (tok, g') ->
  sampled_choice model ids mask tok.
Proof.
  intros H. destruct (model ids mask) as [logits|e] eqn:Hm.
  - exists logits. split; [exact Hm|].
    apply (next_token_sample ids mask logits g g' tok Hm) in H.
    eapply sample_topk_among_best; exact H.
  - unfold sample_next_token, bind, lift in H. rewrite Hm in H. discriminate.
Qed.

(** X16: The sampling loop only appends: the ids grow by at most [n] tokens
    and the attention mask by as many ones; the end-of-sequence token
    can only be the last token appended, and the loop stops before [n]
    rounds only on it. *)
Theorem generation_appends (n : nat) (ids ids' : list nat)
  (mask mask' : list Z) (g g' : G) :
  sampling_loop G multinomial model eos_token_id n ids mask g
    = Ok ((ids', mask'), g') ->
  exists new,
    ids' = ids ++ new /\
    mask' = mask ++ repeat 1%Z (length new) /\
    length new <= n /\
    ~ In eos_token_id (removelast new) /\
    (length new = n \/ (new <> [] /\ last new 0 = eos_token_id)).
Proof.
  revert ids mask g.
  induction n as [|n IH]; intros ids mask g; cbn [sampling_loop].
  - unfold ret. intros H. injection H as <- <- _. exists [].
    rewrite !app_nil_r. repeat split; auto.
  - unfold bind at 1.
    destruct (sample_next_token G multinomial model ids mask g)
      as [[tok g1]|e]; [|discriminate].
    destruct (tok =? eos_token_id) eqn:E.
    + unfold ret. intros H. injection H as <- <- _.
      apply Nat.eqb_eq in E. exists [tok]. cbn.
      repeat split; auto; try lia.
      right. split; [discriminate|exact E].
    + intros H. apply IH in H.
      destruct H as (new & -> & -> & Hlen & Hno & Hstop).
      apply Nat.eqb_neq in E.
      exists (tok :: new). rewrite <- !app_assoc. cbn [app length repeat].
      split; [reflexivity|]. split; [reflexivity|]. split; [lia|]. split.
      * destruct new as [|t new]; [cbn; tauto|].
        change (removelast (tok :: t :: new))
          with (tok :: removelast (t :: new)).
        intros [Hin|Hin]; [congruence|contradiction].
      * destruct Hstop as [Hn|[Hne Hlast]]; [left; lia|].
        right. split; [discriminate|].
        destruct new as [|t new]; [contradiction|exact Hlast].
Qed.

(** X17: Every token the sampling loop appends is one of the fifty best
    entries of the logits that the model gives for the ids and the mask
    of its round. *)
Theorem generated_tokens_among_best (n : nat) (ids ids' : list nat)
  (mask mask' : list Z) (g g' : G) :
  sampling_loop G multinomial model eos_token_id n ids mask g
    = Ok ((ids', mask'), g') ->
  exists new,
    ids' = ids ++ new /\
    forall i, i < length new ->
      sampled_choice model (ids ++ firstn i new) (mask ++ repeat 1%Z i)
        (nth i new 0).
Proof.
  revert ids mask g.
  induction n as [|n IH]; intros ids mask g; cbn [sampling_loop].
  - unfold ret. intros H. injection H as <- <- _. exists [].
    rewrite app_nil_r. split; [reflexivity|]. cbn. intros i Hi; lia.
  - unfold bind at 1.
    destruct (sample_next_token G multinomial model ids mask g)
      as [[tok g1]|e] eqn:Et; [|discriminate].
    apply next_token_choice in Et.
    destruct (tok =? eos_token_id).
    + unfold ret. intros H. injection H as <- <- _.
      exists [tok]. split; [reflexivity|].
      intros [|i] Hi; [|cbn in Hi; lia].
      cbn [firstn repeat nth]. rewrite !app_nil_r. exact Et.
    + intros H. apply IH in H. destruct H as (new & -> & Hall).
      exists (tok :: new). rewrite <- app_assoc.
      split; [reflexivity|].
      intros [|i] Hi.
      * cbn [firstn repeat nth]. rewrite !app_nil_r. exact Et.
      * cbn [firstn repeat nth]. cbn [length] in Hi.
        specialize (Hall i ltac:(lia)).
        rewrite <- !app_assoc in Hall. exact Hall.
Qed.

Hypothesis Hsupport : multinomial_support multinomial.
Hypothesis Htotal : multinomial_total multinomial.
Hypothesis Hmodel : forall ids mask, exists ls,
  model ids mask = Ok (map Finite ls) /\ top_k <= length ls.

Lemma next_token_total (ids : list nat) (mask : list Z) (g : G) :
  exists tok g', sample_next_token G multinomial model ids mask g = Ok (tok, g').
Proof.
  destruct (Hmodel ids mask) as (ls & Hm & Hk).
  assert (Hs : Forall is_score (map Finite ls)).
  { apply Forall_map, Forall_forall. intros r _. right. exists r.
    reflexivity. }
  destruct ls as [|r ls]; [unfold top_k in Hk; cbn in Hk; lia|].
  assert (Hin : In (Finite r) (map Finite (r :: ls))) by (left; reflexivity).
  assert (Hlen : ContrastiveDecoding.k <= length (map Finite (r :: ls))).
  { rewrite length_map. exact Hk. }
  destruct (sample_topk_total G multinomial Hsupport Htotal
              (map Finite (r :: ls)) r g Hs Hin Hlen) as (tok & g' & H).
  exists tok, g'.
  apply (next_token_sample ids mask _ g g' tok Hm). exact H.
Qed.

Lemma loop_total (n : nat) (ids : list nat) (mask : list Z) (g : G) :
  exists new mask' g',
    sampling_loop G multinomial model eos_token_id n ids mask g
      = Ok ((ids ++ new, mask'), g') /\
    Nat.min 1 n <= length new <= n.
Proof.
  revert ids mask g.
  induction n as [|n IH]; intros ids mask g; cbn [sampling_loop].
  - exists [], mask, g. rewrite app_nil_r. split; [reflexivity|].
    cbn. lia.
  - unfold bind at 1.
    destruct (next_token_total ids mask g) as (tok & g1 & ->).
    destruct (tok =? eos_token_id).
    + exists [tok], (mask ++ [1%Z]), g1. split; [reflexivity|]. cbn. lia.
    + destruct (IH (ids ++ [tok]) (mask ++ [1%Z]) g1)
        as (new & mask' & g' & -> & Hlen).
      exists (tok :: new), mask', g'. rewrite <- app_assoc.
      split; [reflexivity|]. cbn [length]. lia.
Qed.

(** X18: With a model that answers with finite logits over a vocabulary of at
    least fifty tokens, and draws as [torch.multinomial] documents them,
    the cell returns: between one and [max_new_tokens] tokens have been
    appended to the prompt. *)
Theorem generation_returns (input_ids : list nat) (attention_mask : list Z)
  (g : G) :
  exists new mask' g',
    generate G multinomial model eos_token_id input_ids attention_mask g
      = Ok ((input_ids ++ new, mask'), g') /\
    1 <= length new <= max_new_tokens.
Proof.
  unfold generate.
  destruct (loop_total max_new_tokens input_ids attention_mask g)
    as (new & mask' & g' & H & Hlen).
  exists new, mask', g'. split; [exact H|].
  unfold max_new_tokens in *. cbn in Hlen. lia.
Qed.

End Runs.

Lemma flat_lm_ok (n : nat) : top_k <= n ->
  forall ids mask, exists ls,
    flat_lm n ids mask = Ok (map Finite ls) /\ top_k <= length ls.
Proof.
  intros Hn ids mask. exists (repeat 0%R n). split; [reflexivity|].
  rewrite repeat_length. exact Hn.
Qed.

Lemma generation_appends_witness :
  exists ids' mask' g' new,
    sampling_loop unit first_positive_multinomial (flat_lm 50) 0 3 [7; 8] [1; 1]%Z tt
      = Ok ((ids', mask'), g') /\
    ids' = [7; 8] ++ new /\
    mask' = [1; 1]%Z ++ repeat 1%Z (length new) /\
    length new <= 3 /\
    ~ In 0 (removelast new) /\
    (length new = 3 \/ (new <> [] /\ last new 0 = 0)).
Proof.
  destruct (loop_total unit first_positive_multinomial (flat_lm 50) 0
              RunFacts.first_positive_support RunFacts.first_positive_total
              (flat_lm_ok 50 (le_n 50)) 3 [7; 8] [1; 1]%Z tt)
    as (new0 & mask' & g' & H & _).
  destruct (generation_appends unit first_positive_multinomial (flat_lm 50) 0
              3 [7; 8] _ [1; 1]%Z mask' tt g' H) as (new & Hids & Hrest).
  exists ([7; 8] ++ new0), mask', g', new. split; [exact H|].
  split; [exact Hids|exact Hrest].
Defined.

Lemma generated_tokens_among_best_witness :
  exists ids' mask' g' new,
    sampling_loop unit first_positive_multinomial (flat_lm 50) 0 3 [7; 8] [1; 1]%Z tt
      = Ok ((ids', mask'), g') /\
    ids' = [7; 8] ++ new /\
    forall i, i < length new ->
      sampled_choice (flat_lm 50) ([7; 8] ++ firstn i new)
        ([1; 1]%Z ++ repeat 1%Z i) (nth i new 0).
Proof.
  destruct (loop_total unit first_positive_multinomial (flat_lm 50) 0
              RunFacts.first_positive_support RunFacts.first_positive_total
              (flat_lm_ok 50 (le_n 50)) 3 [7; 8] [1; 1]%Z tt)
    as (new0 & mask' & g' & H & _).
  destruct (generated_tokens_among_best unit first_positive_multinomial
              (flat_lm 50) 0 3 [7; 8] _ [1; 1]%Z mask' tt g' H)
    as (new & Hids & Hall).
  exists ([7; 8] ++ new0), mask', g', new. split; [exact H|].
  split; [exact Hids|exact Hall].
Defined.

Lemma generation_returns_witness :
  multinomial_support first_positive_multinomial /\
  multinomial_total first_positive_multinomial /\
  (forall ids mask, exists ls,
     flat_lm 50 ids mask = Ok (map Finite ls) /\ top_k <= length ls) /\
  exists new mask' g',
    generate unit first_positive_multinomial (flat_lm 50) 0 [7; 8] [1; 1]%Z tt
      = Ok (([7; 8] ++ new, mask'), g') /\
    1 <= length new <= max_new_tokens.
Proof.
  split; [exact RunFacts.first_positive_support|].
  split; [exact RunFacts.first_positive_total|].
  split; [exact (flat_lm_ok 50 (le_n 50))|].
  exact (generation_returns unit first_positive_multinomial (flat_lm 50) 0
           RunFacts.first_positive_support RunFacts.first_positive_total
           (flat_lm_ok 50 (le_n 50)) [7; 8] [1; 1]%Z tt).
Defined.

End GenerationFacts.

Module UnpackingFacts.
Import Torch Tensor nn Spec Props TensorFacts ShapeFacts CrossAttention.
Import MultiHeadAttention EncoderDecoder.

Lemma res_bind_ok {A B} (r : res A) (k : A -> res B) (b : B) :
  res_bind r k = Ok b -> exists a, r = Ok a /\ k a = Ok b.
Proof. destruct r as [a|e]; simpl; [eauto|discriminate]. Qed.

Lemma traverse_length {A B} (f : A -> res B) (l : list A) (l' : list B) :
  traverse f l = Ok l' -> length l' = length l.
Proof.
  revert l'; induction l as [|x l IH]; intros l'; simpl.
  - intros H; inversion H; reflexivity.
  - destruct (f x) as [y|e]; simpl; [|discriminate].
    destruct (traverse f l) as [ys|e]; simpl; [|discriminate].
    intros H; inversion H; subst. simpl. f_equal. apply IH. reflexivity.
Qed.

Lemma view3_length (x : list (list (list (list scalar)))) (b hs : nat)
  (y : list (list (list scalar))) :
  view3 x b hs = Ok y -> length y = b.
Proof.
  unfold view3. intros H. apply res_bind_ok in H.
  destruct H as (L & _ & H). inversion H. apply chunks_length.
Qed.

(** Whatever its arguments, a call of [forward] that returns gives a
    tensor of as many samples as the query has. *)
Lemma forward_length (self : MultiHeadAttention.t) (query key value : list (list (list scalar)))
  (mask : option (list (list (list (list bool)))))
  (output : list (list (list scalar))) :
  forward self query key value mask = Ok output ->
  length output = length query.
Proof.
  unfold forward. intros H.
  repeat (apply res_bind_ok in H; destruct H as (? & ? & H); cbv beta in H;
          try match type of H with
              | context [let '(_, _) := ?p in _] => destruct p
              end).
  inversion H; subst.
  match goal with
  | Hl : Linear_forward _ _ = Ok output |- _ =>
      unfold Linear_forward in Hl; apply traverse_length in Hl; rewrite Hl
  end.
  match goal with
  | Hv : view3 _ _ _ = Ok _ |- _ => apply view3_length in Hv; exact Hv
  end.
Qed.

(** X19: The statements that unpack the result of an attention module into
    two names raise unless the batch holds exactly two samples: the
    module returns one tensor, and the unpacking iterates over its
    samples. *)
Theorem attention_unpacking_raises (attention : MultiHeadAttention.t)
  (query key value : list (list (list scalar)))
  (mask : option (list (list (list (list bool))))) :
  length query <> 2 ->
  exists e, attention_unpacked attention query key value mask = inl e.
Proof.
  intros Hb. unfold attention_unpacked.
  destruct (forward attention query key value mask) as [output|e] eqn:Hf;
    [|eexists; reflexivity].
  apply forward_length in Hf.
  destruct output as [|a [|b [|c output]]]; cbn [unpack2];
    try (eexists; reflexivity).
  cbn in Hf. congruence.
Qed.

Lemma attention_unpacking_raises_witness :
  length tiny_input <> 2 /\
  exists e,
    attention_unpacked tiny_attention tiny_input tiny_input tiny_input None
    = inl e.
Proof.
  assert (H : length tiny_input <> 2) by (cbn; discriminate).
  split; [exact H|].
  exact (attention_unpacking_raises tiny_attention tiny_input tiny_input
           tiny_input None H).
Defined.

(** X20: On a well-shaped batch of one sample the attention call itself
    succeeds and it is the unpacking that raises. *)
Theorem single_sample_unpacking_raises (attention : MultiHeadAttention.t) (h d n : nat)
  (x : list (list (list scalar))) :
  wf_module attention h d -> shape3 1 n (h * d) x ->
  attention_unpacked attention x x x None
  = inl (ValueError "not enough values to unpack (expected 2, got 1)").
Proof.
  intros Hwf Hx. unfold attention_unpacked.
  pose proof (forward_none_closed attention h d 1 n n x x x Hwf
                (Nat.lt_0_succ 0) Hx Hx Hx) as Hf.
  rewrite Hf. apply forward_length in Hf.
  destruct (attention_stages attention h d n n x x x) as [|a [|b rest]];
    cbn [unpack2]; try reflexivity.
  - destruct Hx as [Hx _]. rewrite Hx in Hf. discriminate.
  - destruct Hx as [Hx _]. rewrite Hx in Hf. discriminate.
Qed.

Lemma single_sample_unpacking_raises_witness :
  wf_module tiny_attention 1 1 /\ shape3 1 2 (1 * 1) tiny_input /\
  attention_unpacked tiny_attention tiny_input tiny_input tiny_input None
  = inl (ValueError "not enough values to unpack (expected 2, got 1)").
Proof.
  split; [exact CausalClaim.tiny_wf|]. split; [exact (CausalClaim.tiny_shape 1 2)|].
  exact (single_sample_unpacking_raises tiny_attention 1 1 2 tiny_input
           CausalClaim.tiny_wf (CausalClaim.tiny_shape 1 2)).
Defined.

End UnpackingFacts.
